(** * N-Queens game: board rules and adversarial search

    A shallow embedding of the three variants of the repository:
    - [alphabeta/board.py] and [alphabeta/alphabeta.py]  (modules [BoardAB], [AlphaBetaAI]),
    - [minimax/board.py] and [minimax/minimax.py]        (modules [BoardMM], [MinimaxAI]),
    - [nqueens/minimax.py]                               (module [NQueensAI]).

    Python integers are [Z].  The numpy grid is a list of rows of [Z] with
    numpy's checked indexing written out (negative indices wrap, anything
    else out of range raises).  A raised exception is [None] in the option
    monad; the mutable board object is threaded through the search as
    explicit state.  The scores mix Python integers with [float('-inf')] and
    [float('inf')]; they are the type [score]. *)

From stdpp Require Import base option list numbers sorting.
From Stdlib Require Import ZArith Lia.

Local Open Scope Z_scope.

(** ** Scores: integers extended with the two float infinities *)

Inductive score : Type :=
| NegInf
| Fin (z : Z)
| PosInf.

(** [a < b] on scores. *)
Definition score_lt (a b : score) : bool :=
  match a, b with
  | NegInf, NegInf => false
  | NegInf, _ => true
  | Fin _, NegInf => false
  | Fin x, Fin y => x <? y
  | Fin _, PosInf => true
  | PosInf, _ => false
  end.

(** [a <= b] on scores. *)
Definition score_le (a b : score) : bool := negb (score_lt b a).

(** Python's [max(a, b)]: the first argument unless the second is strictly greater. *)
Definition py_max (a b : score) : score := if score_lt a b then b else a.

(** Python's [min(a, b)]: the first argument unless the second is strictly smaller. *)
Definition py_min (a b : score) : score := if score_lt b a then b else a.

(** ** Loops *)

(** How the body of a [for] loop ends: it falls through to the next element
    or it executes [break]. *)
Inductive ctl : Type :=
| Continue
| Break.

Section Loops.
Context {A S : Type}.

(** [for x in l: body], run in the option monad on a loop state. *)
Fixpoint for_loop (body : A → S → option (ctl * S)) (l : list A) (s : S) : option S :=
  match l with
  | [] => Some s
  | x :: l' =>
      match body x s with
      | None => None
      | Some (Break, s') => Some s'
      | Some (Continue, s') => for_loop body l' s'
      end
  end.

(** [for x in l: if test(x): return ...]: the loop leaves the enclosing
    function at the first element whose test holds. *)
Fixpoint any_of (test : A → option bool) (l : list A) : option bool :=
  match l with
  | [] => Some false
  | x :: l' =>
      match test x with
      | None => None
      | Some true => Some true
      | Some false => any_of test l'
      end
  end.
End Loops.

(** Python's [range(n)]. *)
Definition range (n : Z) : list Z := seqZ 0 n.

(** ** The numpy grid *)

Abbreviation ndarray := (list (list Z)).

(** [np.zeros((n, n))]. *)
Definition np_zeros (n : Z) : ndarray :=
  replicate (Z.to_nat n) (replicate (Z.to_nat n) 0).

(** numpy's index check along one axis of length [len]: [0 <= k < len] is
    itself, [-len <= k < 0] counts from the end, anything else is an
    [IndexError]. *)
Definition np_index (len : nat) (k : Z) : option nat :=
  if (0 <=? k) && (k <? Z.of_nat len) then Some (Z.to_nat k)
  else if (- Z.of_nat len <=? k) && (k <? 0) then Some (Z.to_nat (Z.of_nat len + k))
  else None.

(** [a[i, j]]. *)
Definition getitem (a : ndarray) (i j : Z) : option Z :=
  r ← np_index (length a) i;
  row ← a !! r;
  c ← np_index (length row) j;
  row !! c.

(** [a[i, j] = v]. *)
Definition setitem (a : ndarray) (i j : Z) (v : Z) : option ndarray :=
  r ← np_index (length a) i;
  row ← a !! r;
  c ← np_index (length row) j;
  Some (<[r := <[c := v]> row]> a).

(** Sum of a list of integers. *)
Definition sumZ (l : list Z) : Z := foldr Z.add 0 l.

(** [np.sum(a)]. *)
Definition np_sum (a : ndarray) : Z := sumZ (concat a).

(** ** The board object, common to the variants *)

Record Board : Type := mkBoard {
  size : Z;
  board : ndarray;
  queens_left : Z
}.

(** The board object with its grid replaced ([self.board.board[..] = ..]). *)
Definition with_grid (b : Board) (g : ndarray) : Board :=
  {| size := size b; board := g; queens_left := queens_left b |}.

(** [Board.__init__]; numpy refuses a negative dimension. *)
Definition Board_init (n : Z) : option Board :=
  if n <? 0 then None
  else Some {| size := n; board := np_zeros n; queens_left := n |}.

(** [Board.reset]. *)
Definition reset (new_size : option Z) (b : Board) : option Board :=
  let n := match new_size with Some n => n | None => size b end in
  if n <? 0 then None
  else Some {| size := n; board := np_zeros n; queens_left := n |}.

(** [Board.is_safe]; identical in [alphabeta/board.py] and [minimax/board.py]. *)
Definition is_safe (b : Board) (row col : Z) : option bool :=
  let n := size b in
  x ← getitem (board b) row col;
  if x =? 1 then Some false
  else
    hit ← any_of (λ i,
             y ← getitem (board b) row i;
             if y =? 1 then Some true
             else z ← getitem (board b) i col; Some (z =? 1)) (range n);
    if (hit : bool) then Some false
    else
      hit' ← any_of (λ i,
                any_of (λ j,
                  if (i + j =? row + col) || (i - j =? row - col)
                  then w ← getitem (board b) i j; Some (w =? 1)
                  else Some false) (range n)) (range n);
      if (hit' : bool) then Some false else Some true.

(** [Board.place_queen]: the result and the board afterwards. *)
Definition place_queen (row col : Z) (b : Board) : option (bool * Board) :=
  ok ← is_safe b row col;
  if (ok : bool) then
    g ← setitem (board b) row col 1;
    Some (true, {| size := size b; board := g; queens_left := queens_left b - 1 |})
  else Some (false, b).

(** ** [alphabeta/board.py]: the board with the constructive heuristic *)

Module BoardAB.

(** [Board.get_safe_positions]. *)
Definition get_safe_positions (b : Board) : option (list (Z * Z)) :=
  for_loop (λ i acc,
    acc' ← for_loop (λ j acc,
              x ← getitem (board b) i j;
              if x =? 0 then
                ok ← is_safe b i j;
                Some (Continue, if (ok : bool) then acc ++ [(i, j)] else acc)
              else Some (Continue, acc)) (range (size b)) acc;
    Some (Continue, acc')) (range (size b)) [].

(** [Board.evaluate]. *)
Definition evaluate (b : Board) : option Z :=
  let n := size b in
  let queens_placed := n - queens_left b in
  if queens_placed =? n then Some 1000
  else
    sp ← get_safe_positions b;
    let safe_positions := Z.of_nat (length sp) in
    if (safe_positions =? 0) && (queens_placed <? n) then Some (-1000)
    else Some (queens_placed * 10 + safe_positions).

(** [Board.is_game_over]. *)
Definition is_game_over (b : Board) : bool := queens_left b =? 0.

End BoardAB.

(** ** [alphabeta/alphabeta.py]

    The statistics of the engine (the node counter and the wall-clock time)
    are not part of the board and are left out.  The depth is a natural
    number: the engine is configured with a positive depth and the recursion
    stops at zero. *)

Module AlphaBetaAI.
Import BoardAB.

(** "Make move": [board[i, j] = 1; queens_left -= 1]. *)
Definition make_move (b : Board) (i j : Z) : option Board :=
  g ← setitem (board b) i j 1;
  Some {| size := size b; board := g; queens_left := queens_left b - 1 |}.

(** "Undo move": [board[i, j] = 0; queens_left += 1]. *)
Definition undo_move (b : Board) (i j : Z) : option Board :=
  g ← setitem (board b) i j 0;
  Some {| size := size b; board := g; queens_left := queens_left b + 1 |}.

(** The loop state of a branch of the search: the shared board, the running
    best score, and the bound the branch tightens (alpha when maximizing,
    beta when minimizing). *)
Definition branch_state : Type := Board * score * score.

(** [AlphaBetaAI.alpha_beta_search]. *)
Fixpoint alpha_beta_search (depth : nat) (alpha beta : score)
    (is_maximizing_player : bool) (b : Board) : option (score * Board) :=
  match depth with
  | O => ev ← evaluate b; Some (Fin ev, b)
  | S d =>
    if is_game_over b then ev ← evaluate b; Some (Fin ev, b)
    else
      safe_positions ← get_safe_positions b;
      match safe_positions with
      | [] => ev ← evaluate b; Some (Fin ev, b)
      | _ =>
        if is_maximizing_player then
          st ← for_loop (λ (p : Z * Z) (st : branch_state),
                  let '(b, max_eval, alpha) := st in
                  b1 ← make_move b p.1 p.2;
                  r ← alpha_beta_search d alpha beta false b1;
                  b3 ← undo_move r.2 p.1 p.2;
                  let max_eval := py_max max_eval r.1 in
                  let alpha := py_max alpha r.1 in
                  Some (if score_le beta alpha then Break else Continue,
                        (b3, max_eval, alpha)))
                safe_positions (b, NegInf, alpha);
          Some (st.1.2, st.1.1)
        else
          st ← for_loop (λ (p : Z * Z) (st : branch_state),
                  let '(b, min_eval, beta) := st in
                  b1 ← make_move b p.1 p.2;
                  r ← alpha_beta_search d alpha beta true b1;
                  b3 ← undo_move r.2 p.1 p.2;
                  let min_eval := py_min min_eval r.1 in
                  let beta := py_min beta r.1 in
                  Some (if score_le beta alpha then Break else Continue,
                        (b3, min_eval, beta)))
                safe_positions (b, PosInf, beta);
          Some (st.1.2, st.1.1)
      end
  end.

(** The score [get_best_move] gives a candidate: the move is made, the
    opponent's reply is searched with the full window, the score is kept. *)
Definition move_score (max_depth : nat) (b : Board) (p : Z * Z) : option score :=
  b1 ← make_move b p.1 p.2;
  r ← alpha_beta_search max_depth NegInf PosInf false b1;
  Some r.1.

(** [AlphaBetaAI.get_best_move]: the chosen move ([None] is Python's
    [None]) and the board afterwards. *)
Definition get_best_move (max_depth : nat) (b : Board)
    : option (option (Z * Z) * Board) :=
  safe_positions ← BoardAB.get_safe_positions b;
  match safe_positions with
  | [] => Some (None, b)
  | _ =>
    st ← for_loop (λ (p : Z * Z) (st : Board * score * option (Z * Z)),
            let '(b, best_score, best_move) := st in
            b1 ← make_move b p.1 p.2;
            r ← alpha_beta_search max_depth NegInf PosInf false b1;
            b3 ← undo_move r.2 p.1 p.2;
            Some (Continue,
                  if score_lt best_score r.1 then (b3, r.1, Some p)
                  else (b3, best_score, best_move)))
          safe_positions (b, NegInf, None);
    Some (st.2, st.1.1)
  end.

End AlphaBetaAI.

(** ** [minimax/board.py]: the board with the conflict-counting heuristic *)

Module BoardMM.

(** [np.sum(a, axis=1)]. *)
Definition row_sums (a : ndarray) : list Z := map sumZ a.

(** Number of columns of the grid. *)
Definition ncols (a : ndarray) : nat :=
  match a with [] => O | r :: _ => length r end.

(** [np.sum(a, axis=0)]. *)
Definition col_sums (a : ndarray) : list Z :=
  map (λ c, sumZ (omap (λ row : list Z, row !! c) a)) (seq 0 (ncols a)).

(** [np.diagonal(a, k)]: the entries [a[r, r + k]] that exist. *)
Definition np_diagonal (a : ndarray) (k : Z) : list Z :=
  omap (λ r : nat,
          row ← a !! r;
          if 0 <=? Z.of_nat r + k then row !! Z.to_nat (Z.of_nat r + k) else None)
       (seq 0 (length a)).

(** [np.fliplr(a)]. *)
Definition np_fliplr (a : ndarray) : ndarray := map (@rev Z) a.

(** [np.sum(np.array(l) > 1)]. *)
Definition count_gt1 (l : list Z) : Z :=
  Z.of_nat (length (filter (λ x, 1 < x) l)).

(** [Board.evaluate]. *)
Definition evaluate (b : Board) : Z :=
  let n := size b in
  let score := 0 in
  let score := score + count_gt1 (row_sums (board b)) in
  let score := score + count_gt1 (col_sums (board b)) in
  let diagonal_counts :=
    flat_map (λ i, [sumZ (np_diagonal (board b) (i - n + 1));
                    sumZ (np_diagonal (np_fliplr (board b)) (i - n + 1))])
             (range (2 * n - 1)) in
  score + count_gt1 diagonal_counts.

(** [Board.is_game_over]. *)
Definition is_game_over (b : Board) : bool := np_sum (board b) =? size b.

End BoardMM.


(** ** [minimax/minimax.py]: the search without pruning

    The engine calls [self.board.evaluate()] on whatever board object it was
    given, so the heuristic is a parameter of the section; [BoardMM.evaluate]
    is the one of [minimax/board.py].  The moves of this engine touch the
    grid only: [queens_left] is neither decremented nor restored. *)

Module MinimaxAI.
Section Engine.
Variable evaluate : Board → Z.

(** The loop state of a branch: the shared board and the running best score. *)
Definition branch_state : Type := Board * score.

(** [MinimaxAI.minimax]. *)
Fixpoint minimax (depth : nat) (is_maximizing_player : bool) (b : Board)
    : option (score * Board) :=
  match depth with
  | O => Some (Fin (evaluate b), b)
  | S d =>
    if np_sum (board b) =? size b then Some (Fin (evaluate b), b)
    else if is_maximizing_player then
      st ← for_loop (λ i (st : branch_state),
              st' ← for_loop (λ j (st : branch_state),
                       let '(b, max_eval) := st in
                       x ← getitem (board b) i j;
                       if x =? 0 then
                         ok ← is_safe b i j;
                         if (ok : bool) then
                           g1 ← setitem (board b) i j 1;
                           r ← minimax d false (with_grid b g1);
                           g3 ← setitem (board r.2) i j 0;
                           Some (Continue, (with_grid r.2 g3, py_max max_eval r.1))
                         else Some (Continue, st)
                       else Some (Continue, st))
                     (range (size st.1)) st;
              Some (Continue, st'))
            (range (size b)) (b, NegInf);
      Some (st.2, st.1)
    else
      st ← for_loop (λ i (st : branch_state),
              st' ← for_loop (λ j (st : branch_state),
                       let '(b, min_eval) := st in
                       x ← getitem (board b) i j;
                       if x =? 0 then
                         ok ← is_safe b i j;
                         if (ok : bool) then
                           g1 ← setitem (board b) i j 1;
                           r ← minimax d true (with_grid b g1);
                           g3 ← setitem (board r.2) i j 0;
                           Some (Continue, (with_grid r.2 g3, py_min min_eval r.1))
                         else Some (Continue, st)
                       else Some (Continue, st))
                     (range (size st.1)) st;
              Some (Continue, st'))
            (range (size b)) (b, PosInf);
      Some (st.2, st.1)
  end.

(** The first loop of [get_best_move]: the valid moves, collected in
    row-major order. *)
Definition valid_moves (b : Board) : option (list (Z * Z)) :=
  for_loop (λ i acc,
    acc' ← for_loop (λ j acc,
              x ← getitem (board b) i j;
              if x =? 0 then
                ok ← is_safe b i j;
                Some (Continue, if (ok : bool) then acc ++ [(i, j)] else acc)
              else Some (Continue, acc)) (range (size b)) acc;
    Some (Continue, acc')) (range (size b)) [].

(** [MinimaxAI.get_best_move]: the chosen move ([None] is Python's [None])
    and the board afterwards.  The depth of the search is the constant 3. *)
Definition get_best_move (b : Board) : option (option (Z * Z) * Board) :=
  moves ← valid_moves b;
  match moves with
  | [] => Some (None, b)
  | _ =>
    st ← for_loop (λ (p : Z * Z) (st : Board * score * option (Z * Z)),
            let '(b, best_score, best_move) := st in
            g1 ← setitem (board b) p.1 p.2 1;
            r ← minimax 3 false (with_grid b g1);
            g3 ← setitem (board r.2) p.1 p.2 0;
            Some (Continue,
                  if score_lt best_score r.1 then (with_grid r.2 g3, r.1, Some p)
                  else (with_grid r.2 g3, best_score, best_move)))
          moves (b, NegInf, None);
    Some (st.2, st.1.1)
  end.

End Engine.
End MinimaxAI.

(** ** [nqueens/minimax.py]: the search with pruning inside a row

    The [break] of this engine leaves the inner loop over the columns only;
    the loop over the rows goes on with the next row.  The board class of
    this variant is not among the sources: its heuristic is a parameter, and
    its grid, size and [is_safe] are those shared by the two boards above. *)

Module NQueensAI.
Section Engine.
Variable evaluate : Board → Z.

(** The loop state of a branch: the shared board, the running best score,
    and the bound the branch tightens. *)
Definition branch_state : Type := Board * score * score.

(** [MinimaxAI.minimax] of [nqueens/minimax.py]. *)
Fixpoint minimax (depth : nat) (alpha beta : score) (is_maximizing_player : bool)
    (b : Board) : option (score * Board) :=
  match depth with
  | O => Some (Fin (evaluate b), b)
  | S d =>
    if np_sum (board b) =? size b then Some (Fin (evaluate b), b)
    else if is_maximizing_player then
      st ← for_loop (λ i (st : branch_state),
              st' ← for_loop (λ j (st : branch_state),
                       let '(b, max_eval, alpha) := st in
                       x ← getitem (board b) i j;
                       if x =? 0 then
                         ok ← is_safe b i j;
                         if (ok : bool) then
                           g1 ← setitem (board b) i j 1;
                           r ← minimax d alpha beta false (with_grid b g1);
                           g3 ← setitem (board r.2) i j 0;
                           let max_eval := py_max max_eval r.1 in
                           let alpha := py_max alpha r.1 in
                           Some (if score_le beta alpha then Break else Continue,
                                 (with_grid r.2 g3, max_eval, alpha))
                         else Some (Continue, st)
                       else Some (Continue, st))
                     (range (size st.1.1)) st;
              Some (Continue, st'))
            (range (size b)) (b, NegInf, alpha);
      Some (st.1.2, st.1.1)
    else
      st ← for_loop (λ i (st : branch_state),
              st' ← for_loop (λ j (st : branch_state),
                       let '(b, min_eval, beta) := st in
                       x ← getitem (board b) i j;
                       if x =? 0 then
                         ok ← is_safe b i j;
                         if (ok : bool) then
                           g1 ← setitem (board b) i j 1;
                           r ← minimax d alpha beta true (with_grid b g1);
                           g3 ← setitem (board r.2) i j 0;
                           let min_eval := py_min min_eval r.1 in
                           let beta := py_min beta r.1 in
                           Some (if score_le beta alpha then Break else Continue,
                                 (with_grid r.2 g3, min_eval, beta))
                         else Some (Continue, st)
                       else Some (Continue, st))
                     (range (size st.1.1)) st;
              Some (Continue, st'))
            (range (size b)) (b, PosInf, beta);
      Some (st.1.2, st.1.1)
  end.

(** [MinimaxAI.get_best_move] of [nqueens/minimax.py]; its first loop is the
    one of [MinimaxAI.valid_moves]. *)
Definition get_best_move (b : Board) : option (option (Z * Z) * Board) :=
  moves ← MinimaxAI.valid_moves b;
  match moves with
  | [] => Some (None, b)
  | _ =>
    st ← for_loop (λ (p : Z * Z) (st : Board * score * option (Z * Z)),
            let '(b, best_score, best_move) := st in
            g1 ← setitem (board b) p.1 p.2 1;
            r ← minimax 3 NegInf PosInf false (with_grid b g1);
            g3 ← setitem (board r.2) p.1 p.2 0;
            Some (Continue,
                  if score_lt best_score r.1 then (with_grid r.2 g3, r.1, Some p)
                  else (with_grid r.2 g3, best_score, best_move)))
          moves (b, NegInf, None);
    Some (st.2, st.1.1)
  end.

End Engine.
End NQueensAI.
(** ** The vocabulary of the properties *)

(** The grid is an [n] by [n] matrix. *)
Definition wf_grid (n : Z) (g : ndarray) : Prop :=
  length g = Z.to_nat n ∧ Forall (λ row : list Z, length row = Z.to_nat n) g.

(** A board object as the constructor and the operations leave it: a
    non-negative size and a square grid of that size. *)
Definition wf_board (b : Board) : Prop :=
  0 <= size b ∧ wf_grid (size b) (board b).

(** The cell [(r, c)] lies on the board. *)
Definition in_range (b : Board) (r c : Z) : Prop :=
  0 <= r < size b ∧ 0 <= c < size b.

(** There is a queen on the cell [(r, c)]. *)
Definition queen_at (b : Board) (r c : Z) : Prop :=
  in_range b r c ∧ getitem (board b) r c = Some 1.

(** A queen on [(r', c')] attacks the cell [(r, c)]: same row, same column
    or same diagonal. *)
Definition attacks (r c r' c' : Z) : Prop :=
  r' = r ∨ c' = c ∨ Z.abs (r - r') = Z.abs (c - c').

(** Number of occupied cells of the grid. *)
Definition occupied_cells (g : ndarray) : Z :=
  Z.of_nat (length (filter (λ x, x = 1) (concat g))).

(** The counter agrees with the grid. *)
Definition counter_ok (b : Board) : Prop :=
  queens_left b = size b - occupied_cells (board b).

(** Row-major order on cells. *)
Definition row_major_lt (p q : Z * Z) : Prop :=
  p.1 < q.1 ∨ (p.1 = q.1 ∧ p.2 < q.2).

(** The test the engines and [get_safe_positions] apply to a cell,
    [board[i, j] == 0 and is_safe(i, j)]; an exception counts as no. *)
Definition free_and_safe (b : Board) (i j : Z) : bool :=
  match getitem (board b) i j with
  | Some x => (x =? 0) && default false (is_safe b i j)
  | None => false
  end.

(** The free and safe cells of the board, row by row. *)
Definition safe_cells (b : Board) : list (Z * Z) :=
  range (size b) ≫= λ i,
    pair i <$> filter (λ j, free_and_safe b i j) (range (size b)).

(** *** The two branches of a search, read as one

    A maximizing node and a minimizing node run the same loop up to the
    direction of the comparisons.  [dir_lt true] is [<] and [dir_lt false]
    is [>]; [pick] is [max] or [min]; [init] is the score a branch starts
    from. *)
Definition dir_lt (m : bool) (a b : score) : bool :=
  if m then score_lt a b else score_lt b a.

Definition pick (m : bool) (a b : score) : score :=
  if dir_lt m a b then b else a.

Definition init (m : bool) : score := if m then NegInf else PosInf.

(** The guarantee of a search with the window [(alpha, beta)] that returned
    [r] on a node of minimax value [v]: at or below [alpha] the value is at
    most [alpha], at or above [beta] it is at least [beta], strictly inside
    the result is the value. *)
Definition window_ok (alpha beta r v : score) : Prop :=
  (score_lt alpha r = false → score_lt alpha v = false)
  ∧ (score_lt r beta = false → score_lt v beta = false)
  ∧ (score_lt alpha r = true → score_lt r beta = true → v = r).

(** The state of a pruned branch against the unpruned one.  [own0] is the
    bound of the branch at entry, [other] the bound it is cut against, [u]
    the unpruned running score and [r] the pruned one.  Either no cut has
    happened and the two agree above [own0], or both are past [other]. *)
Definition phase (m : bool) (own0 other u r : score) : Prop :=
  (dir_lt m (pick m own0 r) other = true
   ∧ dir_lt m (pick m own0 r) u = false
   ∧ (dir_lt m own0 r = true → u = r))
  ∨ (dir_lt m r other = false ∧ dir_lt m u other = false).

(** The scores read as integers: for a bound [K] beyond the finite scores
    at hand the two infinities sit at [-K] and [K]. *)
Definition emb (K : Z) (s : score) : Z :=
  match s with NegInf => - K | Fin z => z | PosInf => K end.

Definition bounded (K : Z) (s : score) : Prop :=
  match s with Fin z => - K < z < K | _ => 0 < K end.

(** The board after a move on [(i, j)]. *)
Definition child (b : Board) (i j : Z) : Board :=
  with_grid b (default (board b) (setitem (board b) i j 1)).

Arguments child : simpl never.

(** *** The loops of the two minimax engines, for either branch *)

Section EngineViews.
Variable evaluate : Board → Z.

(** The score the unpruned search gives a board. *)
Definition mm_value (d : nat) (m : bool) (b : Board) : score :=
  match MinimaxAI.minimax evaluate d m b with
  | Some r => r.1
  | None => init m
  end.

(** The body of the inner loop of the unpruned search. *)
Definition mm_cell (d : nat) (m : bool) (i j : Z) (st : Board * score)
    : option (ctl * (Board * score)) :=
  let '(b, best) := st in
  x ← getitem (board b) i j;
  if x =? 0 then
    ok ← is_safe b i j;
    if (ok : bool) then
      g1 ← setitem (board b) i j 1;
      r ← MinimaxAI.minimax evaluate d (negb m) (with_grid b g1);
      g3 ← setitem (board r.2) i j 0;
      Some (Continue, (with_grid r.2 g3, pick m best r.1))
    else Some (Continue, st)
  else Some (Continue, st).

(** The body of the inner loop of the pruned search; [other] is the bound
    the branch is cut against, the bound it tightens is in the state. *)
Definition nq_cell (d : nat) (m : bool) (other : score) (i j : Z)
    (st : Board * score * score) : option (ctl * (Board * score * score)) :=
  let '(b, best, own) := st in
  x ← getitem (board b) i j;
  if x =? 0 then
    ok ← is_safe b i j;
    if (ok : bool) then
      g1 ← setitem (board b) i j 1;
      r ← NQueensAI.minimax evaluate d (if m then own else other)
             (if m then other else own) (negb m) (with_grid b g1);
      g3 ← setitem (board r.2) i j 0;
      let best := pick m best r.1 in
      let own := pick m own r.1 in
      Some (if negb (dir_lt m own other) then Break else Continue,
            (with_grid r.2 g3, best, own))
    else Some (Continue, st)
  else Some (Continue, st).

(** What one cell and one row add to the running score of the unpruned
    search of the board [b]. *)
Definition cell_step (d : nat) (m : bool) (b : Board) (i : Z)
    (acc : score) (j : Z) : score :=
  if free_and_safe b i j
  then pick m acc (mm_value d (negb m) (child b i j))
  else acc.

Definition row_step (d : nat) (m : bool) (b : Board) (acc : score) (i : Z) : score :=
  fold_left (cell_step d m b i) (range (size b)) acc.

(** The invariant of the loops of the pruned search of [b]: the board is
    [b], the bound in the state is the entry bound tightened by the running
    score, and, for a proper window, some running score [u] of the unpruned
    search leads to its final score [goal] through the cells still to come
    ([rest]) and is in phase with the pruned running score. *)
Definition nq_inv (m : bool) (own0 other : score) (b : Board) (goal : score)
    (rest : score → score) (st : Board * score * score) : Prop :=
  st.1.1 = b
  ∧ st.2 = pick m own0 st.1.2
  ∧ (dir_lt m own0 other = true →
     ∃ u, rest u = goal ∧ phase m own0 other u st.1.2).

End EngineViews.

(** *** The states a game goes through

    A board is built by the constructor and changed by [reset] and
    [place_queen]; a completed call of an engine hands back the board it has
    when it returns; inside a search the alpha-beta engine makes and undoes
    moves with [make_move] and [undo_move].  With [grid_only_moves] the
    moves of the two minimax engines count as well: they write the cell and
    nothing else. *)
Inductive reachable (grid_only_moves : bool) : Board → Prop :=
| reach_init n b :
    Board_init n = Some b → reachable grid_only_moves b
| reach_reset b new_size b' :
    reachable grid_only_moves b → reset new_size b = Some b' →
    reachable grid_only_moves b'
| reach_place b r c ok b' :
    reachable grid_only_moves b → place_queen r c b = Some (ok, b') →
    reachable grid_only_moves b'
| reach_make b sp p b' :
    reachable grid_only_moves b →
    BoardAB.get_safe_positions b = Some sp → p ∈ sp →
    AlphaBetaAI.make_move b p.1 p.2 = Some b' →
    reachable grid_only_moves b'
| reach_undo b i j b' :
    reachable grid_only_moves b →
    getitem (board b) i j = Some 1 →
    AlphaBetaAI.undo_move b i j = Some b' →
    reachable grid_only_moves b'
| reach_alpha_beta b d alpha beta m s b' :
    reachable grid_only_moves b →
    AlphaBetaAI.alpha_beta_search d alpha beta m b = Some (s, b') →
    reachable grid_only_moves b'
| reach_best_move_ab b d mv b' :
    reachable grid_only_moves b →
    AlphaBetaAI.get_best_move d b = Some (mv, b') →
    reachable grid_only_moves b'
| reach_minimax b evaluate d m s b' :
    reachable grid_only_moves b →
    MinimaxAI.minimax evaluate d m b = Some (s, b') →
    reachable grid_only_moves b'
| reach_best_move_mm b evaluate mv b' :
    reachable grid_only_moves b →
    MinimaxAI.get_best_move evaluate b = Some (mv, b') →
    reachable grid_only_moves b'
| reach_minimax_pruned b evaluate d alpha beta m s b' :
    reachable grid_only_moves b →
    NQueensAI.minimax evaluate d alpha beta m b = Some (s, b') →
    reachable grid_only_moves b'
| reach_best_move_pruned b evaluate mv b' :
    reachable grid_only_moves b →
    NQueensAI.get_best_move evaluate b = Some (mv, b') →
    reachable grid_only_moves b'
| reach_grid_make b i j g :
    grid_only_moves = true →
    reachable grid_only_moves b →
    getitem (board b) i j = Some 0 → is_safe b i j = Some true →
    setitem (board b) i j 1 = Some g →
    reachable grid_only_moves (with_grid b g)
| reach_grid_undo b i j g :
    grid_only_moves = true →
    reachable grid_only_moves b →
    getitem (board b) i j = Some 1 →
    setitem (board b) i j 0 = Some g →
    reachable grid_only_moves (with_grid b g).

(** A heuristic that tells whether the counter of the board it is shown
    agrees with the grid: 0 if it does, 1 if it does not. *)
Definition counter_probe (b : Board) : Z :=
  if queens_left b =? size b - occupied_cells (board b) then 0 else 1.

(** The boards of the examples. *)
Definition fresh2 : Board := {| size := 2; board := np_zeros 2; queens_left := 2 |}.
Definition fresh4 : Board := {| size := 4; board := np_zeros 4; queens_left := 4 |}.

(** A 2 by 2 board with a queen in the corner: no cell is safe, one queen
    is still to be placed. *)
Definition corner2 : Board :=
  {| size := 2; board := [[1; 0]; [0; 0]]; queens_left := 1 |}.

(** The fresh 2 by 2 board in the middle of the first move of a minimax
    engine: the cell is written, the counter is as it was. *)
Definition moving2 : Board :=
  {| size := 2; board := [[1; 0]; [0; 0]]; queens_left := 2 |}.

(** A 4 by 4 board after the first move of the game on the corner. *)
Definition corner4 : Board :=
  {| size := 4;
     board := [[1; 0; 0; 0]; [0; 0; 0; 0]; [0; 0; 0; 0]; [0; 0; 0; 0]];
     queens_left := 3 |}.

(** *** Legal positions *)

(** Every cell of the grid holds 0 or 1. *)
Definition binary_grid (g : ndarray) : Prop :=
  Forall (Forall (λ x : Z, x = 0 ∨ x = 1)) g.

(** No two queens of the board attack each other. *)
Definition peaceful (b : Board) : Prop :=
  ∀ r c r' c', queen_at b r c → queen_at b r' c' → (r, c) ≠ (r', c') →
    ¬ attacks r c r' c'.

(** The grid of a position of the game: square, cells 0 or 1, no two queens
    attacking each other. *)
Definition legal_grid (b : Board) : Prop :=
  wf_board b ∧ binary_grid (board b) ∧ peaceful b.

(** A position of the game with its counter in agreement. *)
Definition legal (b : Board) : Prop := legal_grid b ∧ counter_ok b.

(** *** The choice of a move by the minimax engines *)

Section BestMoveViews.
Variable evaluate : Board → Z.

(** The score [get_best_move] of [minimax/minimax.py] gives a candidate:
    the cell is written, the reply is searched at depth 3, the score is
    kept. *)
Definition mm_move_score (b : Board) (p : Z * Z) : option score :=
  g1 ← setitem (board b) p.1 p.2 1;
  r ← MinimaxAI.minimax evaluate 3 false (with_grid b g1);
  Some r.1.

(** The body of the second loop of [get_best_move] of [minimax/minimax.py]. *)
Definition mm_best_body (p : Z * Z) (st : Board * score * option (Z * Z))
    : option (ctl * (Board * score * option (Z * Z))) :=
  let '(b, best_score, best_move) := st in
  g1 ← setitem (board b) p.1 p.2 1;
  r ← MinimaxAI.minimax evaluate 3 false (with_grid b g1);
  g3 ← setitem (board r.2) p.1 p.2 0;
  Some (Continue,
        if score_lt best_score r.1 then (with_grid r.2 g3, r.1, Some p)
        else (with_grid r.2 g3, best_score, best_move)).

(** The body of the second loop of [get_best_move] of [nqueens/minimax.py]. *)
Definition nq_best_body (p : Z * Z) (st : Board * score * option (Z * Z))
    : option (ctl * (Board * score * option (Z * Z))) :=
  let '(b, best_score, best_move) := st in
  g1 ← setitem (board b) p.1 p.2 1;
  r ← NQueensAI.minimax evaluate 3 NegInf PosInf false (with_grid b g1);
  g3 ← setitem (board r.2) p.1 p.2 0;
  Some (Continue,
        if score_lt best_score r.1 then (with_grid r.2 g3, r.1, Some p)
        else (with_grid r.2 g3, best_score, best_move)).

End BestMoveViews.

(** A score of the minimax search under the conflict-counting heuristic on
    a legal grid. *)
Definition trivial_score (s : score) : Prop :=
  s = NegInf ∨ s = Fin 0 ∨ s = PosInf.

(** *** The alpha-beta engine against exhaustive search *)

(** The body of the loop of [alpha_beta_search], for either branch. *)
Definition ab_cell (d : nat) (m : bool) (other : score) (p : Z * Z)
    (st : Board * score * score) : option (ctl * (Board * score * score)) :=
  let '(b, best, own) := st in
  b1 ← AlphaBetaAI.make_move b p.1 p.2;
  r ← AlphaBetaAI.alpha_beta_search d (if m then own else other)
         (if m then other else own) (negb m) b1;
  b3 ← AlphaBetaAI.undo_move r.2 p.1 p.2;
  let best := pick m best r.1 in
  let own := pick m own r.1 in
  Some (if negb (dir_lt m own other) then Break else Continue, (b3, best, own)).

(** The board after the move [p] of the alpha-beta engine. *)
Definition moved (b : Board) (p : Z * Z) : Board :=
  default b (AlphaBetaAI.make_move b p.1 p.2).

(** The evaluation of a board as a score. *)
Definition leaf_score (b : Board) : score := Fin (default 0 (BoardAB.evaluate b)).

(** The value of exhaustive minimax over the moves of the alpha-beta engine,
    with its terminal conditions and without any cut. *)
Fixpoint ab_value (d : nat) (m : bool) (b : Board) : score :=
  match d with
  | O => leaf_score b
  | S d' =>
    if BoardAB.is_game_over b then leaf_score b
    else match safe_cells b with
         | [] => leaf_score b
         | l => fold_left (λ acc p, pick m acc (ab_value d' (negb m) (moved b p)))
                          l (init m)
         end
  end.

(** * Properties *)

(** ** Indexing *)

Lemma np_index_lt len k r : np_index len k = Some r → (r < len)%nat.
Proof.
  unfold np_index. intros H.
  destruct ((0 <=? k) && (k <? Z.of_nat len)) eqn:E1.
  - inversion H; subst. apply andb_true_iff in E1 as [?%Z.leb_le ?%Z.ltb_lt]. lia.
  - destruct ((- Z.of_nat len <=? k) && (k <? 0)) eqn:E2; [|done].
    inversion H; subst. apply andb_true_iff in E2 as [?%Z.leb_le ?%Z.ltb_lt]. lia.
Qed.

Lemma np_index_in len k :
  0 <= k < Z.of_nat len → np_index len k = Some (Z.to_nat k).
Proof.
  intros [H1 H2]. unfold np_index.
  apply Z.leb_le in H1. apply Z.ltb_lt in H2. by rewrite H1, H2.
Qed.

Lemma wf_grid_row n g r row :
  wf_grid n g → g !! r = Some row → length row = Z.to_nat n.
Proof. intros [_ Hrows] Hr. by eapply (Forall_lookup_1 _ _ _ _ Hrows Hr). Qed.

(** In range, [a[i, j]] is the plain double lookup. *)
Lemma getitem_in n g i j :
  wf_grid n g → 0 <= i < n → 0 <= j < n →
  ∃ row v, g !! Z.to_nat i = Some row ∧ row !! Z.to_nat j = Some v
           ∧ getitem g i j = Some v.
Proof.
  intros Hwf Hi Hj. pose proof Hwf as [Hlen _].
  destruct (lookup_lt_is_Some_2 g (Z.to_nat i)) as [row Hrow]; [lia|].
  pose proof (wf_grid_row _ _ _ _ Hwf Hrow) as Hlr.
  destruct (lookup_lt_is_Some_2 row (Z.to_nat j)) as [v Hv]; [lia|].
  exists row, v. split_and!; [done..|].
  unfold getitem. rewrite np_index_in by lia. simpl. rewrite Hrow. simpl.
  rewrite np_index_in by lia. simpl. done.
Qed.

Lemma getitem_total n g i j :
  wf_grid n g → 0 <= i < n → 0 <= j < n → is_Some (getitem g i j).
Proof.
  intros Hwf Hi Hj. destruct (getitem_in n g i j) as (?&v&?&?&->); eauto.
Qed.

Lemma setitem_total g i j v x :
  getitem g i j = Some x → is_Some (setitem g i j v).
Proof.
  unfold getitem, setitem. intros H.
  destruct (np_index (length g) i) as [r|]; [simpl in *|done].
  destruct (g !! r) as [row|]; [simpl in *|done].
  destruct (np_index (length row) j) as [c|]; [simpl in *|done]. eauto.
Qed.

Lemma setitem_wf n g i j v g' :
  wf_grid n g → setitem g i j v = Some g' → wf_grid n g'.
Proof.
  intros [Hlen Hrows] H. unfold setitem in H.
  destruct (np_index (length g) i) as [r|]; [simpl in *|done].
  destruct (g !! r) as [row|] eqn:Hr; [simpl in *|done].
  destruct (np_index (length row) j) as [c|]; [simpl in *|done].
  inversion H; subst. split.
  - by rewrite length_insert.
  - apply Forall_insert; [done|]. rewrite length_insert.
    by eapply (Forall_lookup_1 _ _ _ _ Hrows Hr).
Qed.

Lemma setitem_getitem g i j v g' :
  setitem g i j v = Some g' → getitem g' i j = Some v.
Proof.
  unfold setitem, getitem. intros H.
  destruct (np_index (length g) i) as [r|] eqn:Hi; [simpl in *|done].
  destruct (g !! r) as [row|] eqn:Hr; [simpl in *|done].
  destruct (np_index (length row) j) as [c|] eqn:Hj; [simpl in *|done].
  inversion H; subst. rewrite length_insert, Hi. simpl.
  rewrite list_lookup_insert_eq by eauto using np_index_lt. simpl.
  rewrite length_insert, Hj. simpl.
  apply list_lookup_insert_eq. eauto using np_index_lt.
Qed.

(** Writing a cell and writing its old value back gives the old grid. *)
Lemma setitem_roundtrip g i j x v g1 :
  getitem g i j = Some x → setitem g i j v = Some g1 → setitem g1 i j x = Some g.
Proof.
  unfold setitem, getitem. intros Hg H.
  destruct (np_index (length g) i) as [r|] eqn:Hi; [simpl in *|done].
  destruct (g !! r) as [row|] eqn:Hr; [simpl in *|done].
  destruct (np_index (length row) j) as [c|] eqn:Hj; [simpl in *|done].
  inversion H; subst. rewrite length_insert, Hi. simpl.
  rewrite list_lookup_insert_eq by eauto using np_index_lt. simpl.
  rewrite length_insert, Hj. simpl.
  rewrite list_insert_insert_eq, list_insert_insert_eq.
  rewrite (list_insert_id row c x Hg). by rewrite (list_insert_id g r row Hr).
Qed.

(** A write leaves the other cells of the board alone. *)
Lemma setitem_getitem_ne n g i j v g' i' j' :
  wf_grid n g → 0 <= i < n → 0 <= j < n → 0 <= i' < n → 0 <= j' < n →
  (i', j') ≠ (i, j) →
  setitem g i j v = Some g' → getitem g' i' j' = getitem g i' j'.
Proof.
  intros Hwf Hi Hj Hi' Hj' Hne H.
  pose proof (setitem_wf _ _ _ _ _ _ Hwf H) as Hwf'.
  destruct (getitem_in n g i' j' Hwf Hi' Hj') as (row1 & v1 & Hr1 & Hv1 & ->).
  destruct (getitem_in n g' i' j' Hwf' Hi' Hj') as (row2 & v2 & Hr2 & Hv2 & ->).
  unfold setitem in H. destruct Hwf as [Hlen Hrows].
  rewrite np_index_in in H by lia. simpl in H.
  destruct (g !! Z.to_nat i) as [row|] eqn:Hr; [simpl in H|done].
  rewrite np_index_in in H
    by (rewrite (Forall_lookup_1 _ _ _ _ Hrows Hr); lia).
  simpl in H. inversion H; subst g'; clear H.
  destruct (decide (Z.to_nat i = Z.to_nat i')) as [Heq|Hneq].
  - rewrite <- Heq in *. rewrite list_lookup_insert_eq in Hr2 by lia.
    inversion Hr2; subst row2. rewrite Hr in Hr1. inversion Hr1; subst row1.
    rewrite list_lookup_insert_ne in Hv2; [congruence|].
    intros Hc. apply Hne. f_equal; lia.
  - rewrite list_lookup_insert_ne in Hr2 by done. congruence.
Qed.

(** ** Loops that return at the first hit *)

Lemma any_of_spec {A : Type} (test : A → option bool) (l : list A) :
  (∀ x, x ∈ l → is_Some (test x)) →
  ∃ r, any_of test l = Some r
       ∧ (r = true ↔ ∃ x, x ∈ l ∧ test x = Some true).
Proof.
  induction l as [|a l IH]; intros Htot; simpl.
  - exists false. split; [done|]. split; [done|].
    intros (x & Hx & _). by apply elem_of_nil in Hx.
  - destruct (Htot a) as [[|] Ha]; [left|..]; rewrite Ha.
    + exists true. split; [done|]. split; [|done].
      intros _. exists a. split; [left|done].
    + destruct IH as (r & Hr & Hiff).
      { intros x Hx. apply Htot. by right. }
      exists r. split; [done|]. rewrite Hiff. split.
      * intros (x & Hx & Ht). exists x. split; [by right|done].
      * intros (x & Hx & Ht). apply elem_of_cons in Hx as [->|Hx].
        -- congruence.
        -- eauto.
Qed.

Lemma elem_of_range n k : k ∈ range n ↔ 0 <= k < n.
Proof. unfold range. rewrite elem_of_seqZ. lia. Qed.

(** ** [is_safe] *)

(** The outcome of [is_safe] on a cell of the board: it returns, and it
    returns [False] exactly when the cell is occupied or attacked. *)
Lemma is_safe_spec b row col :
  wf_board b → in_range b row col →
  ∃ s, is_safe b row col = Some s
       ∧ (s = false ↔
            getitem (board b) row col = Some 1
            ∨ ∃ r' c', queen_at b r' c' ∧ attacks row col r' c').
Proof.
  intros [Hn Hwf] [Hr Hc]. unfold is_safe.
  destruct (getitem_total _ _ row col Hwf Hr Hc) as [x Hx]. rewrite Hx. simpl.
  destruct (x =? 1) eqn:Ex.
  { apply Z.eqb_eq in Ex as ->. exists false. split; [done|]. split; auto. }
  apply Z.eqb_neq in Ex.
  (* rows and columns *)
  destruct (any_of_spec (λ i,
      y ← getitem (board b) row i;
      if y =? 1 then Some true
      else z ← getitem (board b) i col; Some (z =? 1)) (range (size b)))
    as (hit & Hhit & Hiff).
  { intros i Hi%elem_of_range.
    destruct (getitem_total _ _ row i Hwf Hr Hi) as [y ->]. simpl.
    destruct (y =? 1); [eauto|].
    destruct (getitem_total _ _ i col Hwf Hi Hc) as [z ->]. simpl. eauto. }
  rewrite Hhit. simpl. destruct hit.
  { exists false. split; [done|]. split; [|done]. intros _. right.
    destruct Hiff as [Hiff _]. destruct (Hiff eq_refl) as (i & Hi%elem_of_range & Ht).
    destruct (getitem_total _ _ row i Hwf Hr Hi) as [y Hy]. rewrite Hy in Ht.
    simpl in Ht. destruct (y =? 1) eqn:Ey.
    - apply Z.eqb_eq in Ey as ->. exists row, i.
      split; [by split|]. by left.
    - destruct (getitem_total _ _ i col Hwf Hi Hc) as [z Hz]. rewrite Hz in Ht.
      simpl in Ht. inversion Ht as [Ez]. apply Z.eqb_eq in Ez as ->.
      exists i, col. split; [by split|]. right; by left. }
  (* diagonals *)
  destruct (any_of_spec (λ i,
      any_of (λ j,
        if (i + j =? row + col) || (i - j =? row - col)
        then w ← getitem (board b) i j; Some (w =? 1)
        else Some false) (range (size b))) (range (size b)))
    as (hit' & Hhit' & Hiff').
  { intros i Hi%elem_of_range.
    destruct (any_of_spec (λ j,
        if (i + j =? row + col) || (i - j =? row - col)
        then w ← getitem (board b) i j; Some (w =? 1)
        else Some false) (range (size b))) as (r & -> & _); [|eauto].
    intros j Hj%elem_of_range.
    destruct ((i + j =? row + col) || (i - j =? row - col)); [|eauto].
    destruct (getitem_total _ _ i j Hwf Hi Hj) as [w ->]. simpl. eauto. }
  rewrite Hhit'. simpl.
  assert (Hinner : ∀ i, 0 <= i < size b →
    any_of (λ j,
      if (i + j =? row + col) || (i - j =? row - col)
      then w ← getitem (board b) i j; Some (w =? 1)
      else Some false) (range (size b)) = Some true
    ↔ ∃ j, 0 <= j < size b
           ∧ (i + j = row + col ∨ i - j = row - col)
           ∧ getitem (board b) i j = Some 1).
  { intros i Hi.
    destruct (any_of_spec (λ j,
        if (i + j =? row + col) || (i - j =? row - col)
        then w ← getitem (board b) i j; Some (w =? 1)
        else Some false) (range (size b))) as (r & Hr' & Hiffr).
    { intros j Hj%elem_of_range.
      destruct ((i + j =? row + col) || (i - j =? row - col)); [|eauto].
      destruct (getitem_total _ _ i j Hwf Hi Hj) as [w ->]. simpl. eauto. }
    rewrite Hr'. split.
    - intros Heq. inversion Heq; subst r.
      destruct Hiffr as [Hf _]. destruct (Hf eq_refl) as (j & Hj%elem_of_range & Ht).
      exists j. split; [done|].
      destruct ((i + j =? row + col) || (i - j =? row - col)) eqn:Ed; [|done].
      destruct (getitem_total _ _ i j Hwf Hi Hj) as [w Hw]. rewrite Hw in Ht.
      simpl in Ht. inversion Ht as [Ew]. apply Z.eqb_eq in Ew as ->.
      split; [|done]. apply orb_true_iff in Ed as [?%Z.eqb_eq|?%Z.eqb_eq]; auto.
    - intros (j & Hj & Hd & Hq). f_equal. apply Hiffr. exists j.
      split; [by apply elem_of_range|].
      replace ((i + j =? row + col) || (i - j =? row - col)) with true.
      + rewrite Hq. done.
      + symmetry. apply orb_true_iff. destruct Hd; [left|right]; by apply Z.eqb_eq. }
  destruct hit'.
  { exists false. split; [done|]. split; [|done]. intros _. right.
    destruct Hiff' as [Hf _]. destruct (Hf eq_refl) as (i & Hi%elem_of_range & Ht).
    apply Hinner in Ht as (j & Hj & Hd & Hq); [|done].
    exists i, j. split; [by split|]. right; right. lia. }
  exists true. split; [done|]. split; [done|].
  intros [Hocc|(r' & c' & [[Hr' Hc'] Hq] & Hatt)]; [congruence|].
  destruct Hatt as [->|[->|Habs]].
  - (* same row *)
    destruct Hiff as [_ Hb]. discriminate Hb. exists c'.
    split; [by apply elem_of_range|]. rewrite Hq. done.
  - (* same column *)
    destruct Hiff as [_ Hb]. discriminate Hb. exists r'.
    split; [by apply elem_of_range|].
    destruct (getitem_total _ _ row r' Hwf Hr Hr') as [y ->]. simpl.
    destruct (y =? 1); [done|]. rewrite Hq. done.
  - (* same diagonal *)
    destruct Hiff' as [_ Hb]. discriminate Hb. exists r'.
    split; [by apply elem_of_range|]. apply Hinner; [done|].
    exists c'. split; [done|]. split; [lia|done].
Qed.

(** ** Loops with an invariant *)

(** The rule for a [for] loop: an invariant indexed by the elements still to
    come, kept by every iteration that falls through, and a postcondition
    established at the end of the list and by every [break]. *)
Lemma for_loop_rule {A S : Type} (body : A → S → option (ctl * S))
    (I : list A → S → Prop) (Q : S → Prop) :
  (∀ s, I [] s → Q s) →
  (∀ x l s, I (x :: l) s →
     ∃ c s', body x s = Some (c, s')
             ∧ match c with Continue => I l s' | Break => Q s' end) →
  ∀ l s, I l s → ∃ s', for_loop body l s = Some s' ∧ Q s'.
Proof.
  intros Hend Hstep l. induction l as [|x l IH]; intros s HI; simpl.
  - eauto.
  - destruct (Hstep x l s HI) as (c & s' & -> & Hc). destruct c; eauto.
Qed.

(** ** [get_safe_positions] *)

Lemma free_and_safe_true b i j :
  free_and_safe b i j = true
  ↔ getitem (board b) i j = Some 0 ∧ is_safe b i j = Some true.
Proof.
  unfold free_and_safe. destruct (getitem (board b) i j) as [x|]; [|split; [done|intros [? _]; done]].
  destruct (is_safe b i j) as [[|]|]; simpl;
    rewrite ?andb_true_r, ?andb_false_r, ?Z.eqb_eq.
  - split; [by intros ->|by intros [[=] _]].
  - split; [done|by intros [_ [=]]].
  - split; [done|by intros [_ [=]]].
Qed.

Lemma scan_row_eq b i js acc :
  wf_board b → 0 <= i < size b → (∀ j, j ∈ js → 0 <= j < size b) →
  for_loop (λ j acc,
      x ← getitem (board b) i j;
      if x =? 0 then
        ok ← is_safe b i j;
        Some (Continue, if (ok : bool) then acc ++ [(i, j)] else acc)
      else Some (Continue, acc)) js acc
  = Some (acc ++ (pair i <$> filter (λ j, free_and_safe b i j) js)).
Proof.
  intros Hwf Hi. revert acc. induction js as [|j js IH]; intros acc Hjs; simpl.
  { by rewrite app_nil_r. }
  assert (0 <= j < size b) as Hj by (apply Hjs; left).
  destruct (getitem_total _ _ i j (proj2 Hwf) Hi Hj) as [x Hx].
  destruct (is_safe_spec b i j Hwf (conj Hi Hj)) as (ok & Hok & _).
  assert (free_and_safe b i j = (x =? 0) && ok) as Hfs.
  { unfold free_and_safe. by rewrite Hx, Hok. }
  rewrite Hx. simpl. rewrite filter_cons.
  destruct (x =? 0); simpl in Hfs |- *.
  - rewrite Hok. simpl. rewrite IH by (intros; apply Hjs; by right).
    destruct ok; simpl.
    + rewrite decide_True by (by rewrite Hfs). by rewrite <- app_assoc.
    + rewrite decide_False by (rewrite Hfs; intros []). done.
  - rewrite IH by (intros; apply Hjs; by right).
    rewrite decide_False by (rewrite Hfs; intros []). done.
Qed.

Lemma scan_rows_eq b rows acc :
  wf_board b → (∀ i, i ∈ rows → 0 <= i < size b) →
  for_loop (λ i acc,
      acc' ← for_loop (λ j acc,
                x ← getitem (board b) i j;
                if x =? 0 then
                  ok ← is_safe b i j;
                  Some (Continue, if (ok : bool) then acc ++ [(i, j)] else acc)
                else Some (Continue, acc)) (range (size b)) acc;
      Some (Continue, acc')) rows acc
  = Some (acc ++ (rows ≫= λ i,
            pair i <$> filter (λ j, free_and_safe b i j) (range (size b)))).
Proof.
  intros Hwf. revert acc. induction rows as [|i rows IH]; intros acc Hrows; simpl.
  { by rewrite app_nil_r. }
  rewrite scan_row_eq; [|done|apply Hrows; left|intros j; apply elem_of_range].
  simpl. rewrite IH by (intros; apply Hrows; by right).
  by rewrite <- app_assoc.
Qed.

(** On a well-formed board [get_safe_positions] returns, and returns the
    free and safe cells row by row. *)
Lemma get_safe_positions_eq b :
  wf_board b → BoardAB.get_safe_positions b = Some (safe_cells b).
Proof.
  intros Hwf. unfold BoardAB.get_safe_positions.
  rewrite scan_rows_eq; [done..|intros i; apply elem_of_range].
Qed.

Lemma valid_moves_eq b :
  wf_board b → MinimaxAI.valid_moves b = Some (safe_cells b).
Proof. apply get_safe_positions_eq. Qed.

Lemma elem_of_safe_cells b p :
  p ∈ safe_cells b ↔ in_range b p.1 p.2 ∧ free_and_safe b p.1 p.2 = true.
Proof.
  unfold safe_cells, in_range. rewrite list_elem_of_bind. split.
  - intros (i & Hp & Hi%elem_of_range).
    apply list_elem_of_fmap in Hp as (j & -> & Hj).
    apply list_elem_of_filter in Hj as [Hs Hj%elem_of_range]. simpl.
    split; [done|]. by apply Is_true_true.
  - intros [[Hi Hj] Hs]. exists p.1. split; [|by apply elem_of_range].
    apply list_elem_of_fmap. exists p.2. split; [by destruct p|].
    apply list_elem_of_filter. split; [by apply Is_true_true|by apply elem_of_range].
Qed.

Lemma seqZ_sorted m n : StronglySorted Z.lt (seqZ m n).
Proof.
  destruct (decide (n <= 0)) as [Hn|Hn]; [rewrite seqZ_nil by done; constructor|].
  rewrite <- (Z2Nat.id n) by lia. generalize (Z.to_nat n) as k. clear. intros k.
  revert m. induction k as [|k IH]; intros m; [constructor|].
  rewrite seqZ_cons by lia. constructor.
  - replace (Z.pred (Z.of_nat (S k))) with (Z.of_nat k) by lia. apply IH.
  - apply Forall_forall. intros x Hx%elem_of_seqZ. lia.
Qed.

Lemma filter_sorted {A : Type} (R : relation A) (P : A → Prop)
    `{∀ x, Decision (P x)} (l : list A) :
  StronglySorted R l → StronglySorted R (filter P l).
Proof.
  induction 1 as [|a l Hs IH Hall]; [constructor|].
  rewrite filter_cons. destruct (decide (P a)); [|done].
  constructor; [done|]. apply Forall_forall. intros x Hx.
  apply list_elem_of_filter in Hx.
  rewrite Forall_forall in Hall. destruct Hx as [_ Hx]. by apply Hall.
Qed.

Lemma rows_sorted (cols : Z → list Z) (rows : list Z) :
  StronglySorted Z.lt rows → (∀ i, StronglySorted Z.lt (cols i)) →
  StronglySorted row_major_lt (rows ≫= λ i, pair i <$> cols i).
Proof.
  intros Hrows Hcols.
  induction Hrows as [|i rows Hs IH Hall]; simpl; [constructor|].
  apply StronglySorted_app. split_and!.
  - intros x1 x2 Hx1 Hx2. apply list_elem_of_fmap in Hx1 as (j & -> & _).
    apply list_elem_of_bind in Hx2 as (i' & Hx2 & Hi').
    apply list_elem_of_fmap in Hx2 as (j' & -> & _).
    rewrite Forall_forall in Hall. left. simpl. by apply Hall.
  - eapply StronglySorted_fmap; [|apply Hcols].
    intros j j' Hjj. right. simpl. done.
  - apply IH.
Qed.

(** The cells come out strictly ascending in row-major order. *)
Lemma safe_cells_sorted b : StronglySorted row_major_lt (safe_cells b).
Proof.
  unfold safe_cells. apply rows_sorted; [apply seqZ_sorted|].
  intros i. apply filter_sorted, seqZ_sorted.
Qed.

(** ** [place_queen] and the counter *)

Lemma is_safe_total b r c :
  wf_board b → in_range b r c → is_Some (is_safe b r c).
Proof. intros Hwf Hin. destruct (is_safe_spec b r c Hwf Hin) as (s & -> & _). eauto. Qed.

(** The outcome of [place_queen] on a cell of the board. *)
Lemma place_queen_spec b r c :
  wf_board b → in_range b r c →
  (is_safe b r c = Some true →
     ∃ g, setitem (board b) r c 1 = Some g
          ∧ place_queen r c b
            = Some (true, {| size := size b; board := g;
                             queens_left := queens_left b - 1 |}))
  ∧ (is_safe b r c = Some false → place_queen r c b = Some (false, b)).
Proof.
  intros Hwf [Hr Hc]. unfold place_queen. split; intros ->; simpl; [|done].
  destruct (getitem_total _ _ r c (proj2 Hwf) Hr Hc) as [x Hx].
  destruct (setitem_total _ _ _ 1 _ Hx) as [g Hg]. exists g. by rewrite Hg.
Qed.

Lemma count_insert (l : list Z) (c : nat) (x v : Z) :
  l !! c = Some x →
  Nat.add (length (filter (λ y, y = 1) (<[c := v]> l)))
          (if decide (x = 1) then 1%nat else 0%nat)
  = Nat.add (length (filter (λ y, y = 1) l))
            (if decide (v = 1) then 1%nat else 0%nat).
Proof.
  intros Hl. pose proof (lookup_lt_Some _ _ _ Hl) as Hlt.
  rewrite insert_take_drop by done.
  rewrite <- (take_drop_middle l c x Hl) at 3.
  rewrite !filter_app, !filter_cons, !length_app.
  destruct (decide (x = 1)), (decide (v = 1)); simpl; lia.
Qed.

Lemma count_concat_insert (g : list (list Z)) (r : nat) (row row' : list Z) :
  g !! r = Some row →
  Nat.add (length (filter (λ y, y = 1) (concat (<[r := row']> g))))
          (length (filter (λ y, y = 1) row))
  = Nat.add (length (filter (λ y, y = 1) (concat g)))
            (length (filter (λ y, y = 1) row')).
Proof.
  intros Hg. pose proof (lookup_lt_Some _ _ _ Hg) as Hlt.
  rewrite insert_take_drop by done.
  rewrite <- (take_drop_middle g r row Hg) at 3.
  rewrite !concat_app. simpl. rewrite !filter_app, !length_app. lia.
Qed.

(** A write changes the number of occupied cells by what it overwrites and
    what it writes. *)
Lemma occupied_setitem g i j v g' x :
  getitem g i j = Some x → setitem g i j v = Some g' →
  occupied_cells g'
  = occupied_cells g - (if decide (x = 1) then 1 else 0)
    + (if decide (v = 1) then 1 else 0).
Proof.
  unfold getitem, setitem, occupied_cells. intros Hx Hg.
  destruct (np_index (length g) i) as [r|]; [simpl in *|done].
  destruct (g !! r) as [row|] eqn:Hr; [simpl in *|done].
  destruct (np_index (length row) j) as [c|]; [simpl in *|done].
  inversion Hg; subst g'.
  pose proof (count_insert row c x v Hx).
  pose proof (count_concat_insert g r row (<[c := v]> row) Hr).
  destruct (decide (x = 1)), (decide (v = 1)); lia.
Qed.

Lemma np_zeros_wf n : wf_grid n (np_zeros n).
Proof.
  unfold np_zeros. split; [by rewrite length_replicate|].
  apply Forall_replicate. by rewrite length_replicate.
Qed.

Lemma filter_replicate_0 k : filter (λ y, y = 1) (replicate k 0) = [].
Proof. induction k as [|k IH]; [done|]. simpl. by rewrite filter_cons, decide_False. Qed.

Lemma np_zeros_occupied n : occupied_cells (np_zeros n) = 0.
Proof.
  unfold occupied_cells, np_zeros. generalize (Z.to_nat n) at 1. intros k.
  induction k as [|k IH]; [done|]. simpl.
  rewrite filter_app, length_app, filter_replicate_0. simpl. lia.
Qed.

(** ** The constructive [evaluate] *)

Lemma evaluate_AB_eq b :
  wf_board b →
  BoardAB.evaluate b
  = Some (if queens_left b =? 0 then 1000
          else if (0 <? queens_left b) && (Z.of_nat (length (safe_cells b)) =? 0)
               then -1000
               else 10 * (size b - queens_left b) + Z.of_nat (length (safe_cells b))).
Proof.
  intros Hwf. unfold BoardAB.evaluate. rewrite get_safe_positions_eq by done. simpl.
  destruct (queens_left b =? 0) eqn:E0.
  - apply Z.eqb_eq in E0. replace (size b - queens_left b =? size b) with true; [done|].
    symmetry. apply Z.eqb_eq. lia.
  - apply Z.eqb_neq in E0.
    replace (size b - queens_left b =? size b) with false
      by (symmetry; apply Z.eqb_neq; lia).
    replace (size b - queens_left b <? size b) with (0 <? queens_left b)
      by (destruct (0 <? queens_left b) eqn:E; symmetry;
          [apply Z.ltb_lt; apply Z.ltb_lt in E|apply Z.ltb_ge; apply Z.ltb_ge in E]; lia).
    rewrite andb_comm.
    destruct ((0 <? queens_left b) && (Z.of_nat (length (safe_cells b)) =? 0));
      [done|f_equal; lia].
Qed.

(** ** The order on scores *)

Lemma bounded_mono K K' s : K <= K' → bounded K s → bounded K' s.
Proof. destruct s; simpl; lia. Qed.

Lemma bounded_exists (l : list score) : ∃ K, Forall (bounded K) l.
Proof.
  induction l as [|s l [K HK]]; [by exists 1|].
  exists (Z.max K (Z.abs (match s with Fin z => z | _ => 0 end) + 1)).
  constructor.
  - destruct s; simpl; lia.
  - eapply Forall_impl; [exact HK|]. intros x. apply bounded_mono. lia.
Qed.

Lemma emb_lt K a b :
  bounded K a → bounded K b → score_lt a b = true ↔ emb K a < emb K b.
Proof. destruct a, b; simpl; rewrite ?Z.ltb_lt; intuition (try discriminate; lia). Qed.

Lemma emb_nlt K a b :
  bounded K a → bounded K b → score_lt a b = false ↔ emb K b <= emb K a.
Proof. destruct a, b; simpl; rewrite ?Z.ltb_ge; intuition (try discriminate; lia). Qed.

Lemma emb_eq K a b :
  bounded K a → bounded K b → a = b ↔ emb K a = emb K b.
Proof.
  destruct a, b; simpl; intros; split; intros He;
    first [done | discriminate | lia | by inversion He | by f_equal].
Qed.

Lemma emb_pick_max K a b :
  bounded K a → bounded K b → emb K (pick true a b) = Z.max (emb K a) (emb K b).
Proof.
  intros Ha Hb. unfold pick, dir_lt. destruct (score_lt a b) eqn:E.
  - apply (emb_lt K) in E; [lia|done..].
  - apply (emb_nlt K) in E; [lia|done..].
Qed.

Lemma emb_pick_min K a b :
  bounded K a → bounded K b → emb K (pick false a b) = Z.min (emb K a) (emb K b).
Proof.
  intros Ha Hb. unfold pick, dir_lt. destruct (score_lt b a) eqn:E.
  - apply (emb_lt K) in E; [lia|done..].
  - apply (emb_nlt K) in E; [lia|done..].
Qed.

Lemma bounded_pick K m a b : bounded K a → bounded K b → bounded K (pick m a b).
Proof. unfold pick. by destruct (dir_lt m a b). Qed.

Lemma bounded_inf K s : bounded K s → bounded K NegInf ∧ bounded K PosInf.
Proof. destruct s; simpl; lia. Qed.

Lemma emb_range K s : bounded K s → - K <= emb K s <= K.
Proof. destruct s; simpl; lia. Qed.

Create HintDb bnd.
#[local] Hint Resolve bounded_pick : bnd.

(** Goals about the order of scores, decided on the integers. *)
Ltac score_vars acc :=
  match goal with
  | s : score |- _ =>
      lazymatch acc with
      | context [s] => fail
      | _ => score_vars (s :: acc)
      end
  | _ => acc
  end.

Ltac score_bounds :=
  let l := score_vars (@nil score) in
  let K := fresh "K" in
  let HK := fresh "HK" in
  destruct (bounded_exists (NegInf :: l)) as [K HK];
  repeat (let H := fresh "Hbnd" in
          apply Forall_cons in HK as [H HK]);
  clear HK;
  match goal with
  | H : bounded K NegInf |- _ =>
      let H' := fresh "Hbnd" in
      pose proof (proj2 (bounded_inf K NegInf H)) as H'
  end.

Ltac score_embed K :=
  repeat first
  [ rewrite (emb_pick_max K) in * by auto with bnd
  | rewrite (emb_pick_min K) in * by auto with bnd
  | match goal with
    | H : context [score_lt ?a ?b = true] |- _ =>
        rewrite (emb_lt K a b) in H by auto with bnd
    | H : context [score_lt ?a ?b = false] |- _ =>
        rewrite (emb_nlt K a b) in H by auto with bnd
    | H : context [@eq score ?a ?b] |- _ =>
        rewrite (emb_eq K a b) in H by auto with bnd
    | |- context [score_lt ?a ?b = true] =>
        rewrite (emb_lt K a b) by auto with bnd
    | |- context [score_lt ?a ?b = false] =>
        rewrite (emb_nlt K a b) by auto with bnd
    | |- context [@eq score ?a ?b] =>
        rewrite (emb_eq K a b) by auto with bnd
    end ].

Ltac score_lia :=
  unfold phase, window_ok, init, score_le in *;
  change py_max with (pick true) in *;
  change py_min with (pick false) in *;
  repeat match goal with m : bool |- _ => destruct m end;
  unfold dir_lt in *;
  score_bounds;
  match goal with
  | H : bounded ?K NegInf |- _ =>
      score_embed K;
      repeat match goal with
      | H : bounded K ?s |- _ => apply emb_range in H
      end;
      simpl emb in *
  end;
  lia.

Lemma pick_init m a : pick m a (init m) = a.
Proof. score_lia. Qed.

Lemma pick_assoc m a b c : pick m (pick m a b) c = pick m a (pick m b c).
Proof. score_lia. Qed.

(** The full window is proper, and a result in it is the value. *)
Lemma window_ok_full r v : window_ok NegInf PosInf r v → v = r.
Proof. score_lia. Qed.

(** What the phase says once the branch is done. *)
Lemma phase_window m own0 other u r :
  dir_lt m own0 other = true → phase m own0 other u r →
  window_ok (if m then own0 else other) (if m then other else own0) r u.
Proof. score_lia. Qed.

Lemma phase_init m own0 other :
  dir_lt m own0 other = true → phase m own0 other (init m) (init m).
Proof. score_lia. Qed.

(** One child: the pruned search saw [rc], the unpruned one [vc]. *)
Lemma phase_step m own0 other u r rc vc :
  phase m own0 other u r →
  (dir_lt m (pick m own0 r) other = true →
   window_ok (if m then pick m own0 r else other)
             (if m then other else pick m own0 r) rc vc) →
  phase m own0 other (pick m u vc) (pick m r rc).
Proof. score_lia. Qed.

(** After a cut the unpruned branch may go on alone. *)
Lemma phase_cut m own0 other u r vc :
  dir_lt m (pick m own0 r) other = false →
  phase m own0 other u r → phase m own0 other (pick m u vc) r.
Proof. score_lia. Qed.

(** ** The alpha-beta engine: moves are undone, scores are finite *)

Lemma py_max_fin s z : (∃ y, s = Fin y) ∨ s = NegInf → ∃ y, py_max s (Fin z) = Fin y.
Proof.
  intros [[y ->]| ->]; unfold py_max; simpl; [|eauto]. destruct (y <? z); eauto.
Qed.

Lemma py_min_fin s z : (∃ y, s = Fin y) ∨ s = PosInf → ∃ y, py_min s (Fin z) = Fin y.
Proof.
  intros [[y ->]| ->]; unfold py_min; simpl; [|eauto]. destruct (z <? y); eauto.
Qed.

(** A move on a free and safe cell succeeds, keeps the board well formed, and
    its undo gives back the very board it started from. *)
Lemma make_undo_move b p :
  wf_board b → p ∈ safe_cells b →
  ∃ b1, AlphaBetaAI.make_move b p.1 p.2 = Some b1 ∧ wf_board b1
        ∧ AlphaBetaAI.undo_move b1 p.1 p.2 = Some b.
Proof.
  intros [Hn Hwf] [[Hr Hc] Hfs]%elem_of_safe_cells.
  apply free_and_safe_true in Hfs as [Hx _].
  destruct (setitem_total _ _ _ 1 _ Hx) as [g Hg].
  unfold AlphaBetaAI.make_move, AlphaBetaAI.undo_move. rewrite Hg. simpl.
  eexists. split; [done|]. split.
  - split; simpl; [done|]. by eapply setitem_wf.
  - simpl. rewrite (setitem_roundtrip _ _ _ _ _ _ Hx Hg). simpl.
    destruct b as [n g0 q]; simpl. do 2 f_equal. lia.
Qed.

Lemma evaluate_AB_total b : wf_board b → is_Some (BoardAB.evaluate b).
Proof. intros Hwf. rewrite evaluate_AB_eq by done. eauto. Qed.

(** The search returns, with a finite score and on the board it was given. *)
Lemma alpha_beta_search_frame d :
  ∀ alpha beta m b, wf_board b →
    ∃ z, AlphaBetaAI.alpha_beta_search d alpha beta m b = Some (Fin z, b).
Proof.
  induction d as [|d IH]; intros alpha beta m b Hwf; simpl.
  { destruct (evaluate_AB_total b Hwf) as [ev ->]. simpl. eauto. }
  destruct (BoardAB.is_game_over b).
  { destruct (evaluate_AB_total b Hwf) as [ev ->]. simpl. eauto. }
  rewrite get_safe_positions_eq by done. simpl.
  destruct (safe_cells b) as [|p0 l0] eqn:Ecells.
  { destruct (evaluate_AB_total b Hwf) as [ev ->]. simpl. eauto. }
  rewrite <- Ecells.
  assert (safe_cells b ≠ []) as Hne by (rewrite Ecells; done). clear Ecells.
  destruct m.
  - match goal with |- context [for_loop ?body ?l ?s] =>
      assert (∃ s', for_loop body l s = Some s'
                    ∧ (s'.1.1 = b ∧ ∃ z, s'.1.2 = Fin z)) as (s' & -> & Hb & z & Hz);
        [apply (for_loop_rule body (λ rem st,
           st.1.1 = b ∧ (∀ p, p ∈ rem → p ∈ safe_cells b)
           ∧ ((∃ z, st.1.2 = Fin z) ∨ (st.1.2 = NegInf ∧ rem ≠ []))))|]
    end.
    + intros [[b' me] a]. simpl. intros (-> & _ & [Hfin|[_ Hnil]]); done.
    + intros p rem [[b' me] a]. simpl. intros (-> & Hrem & Hme).
      destruct (make_undo_move b p Hwf) as (b1 & -> & Hwf1 & Hundo).
      { apply Hrem. left. }
      simpl. destruct (IH a beta false b1 Hwf1) as [z ->]. simpl.
      rewrite Hundo. simpl.
      destruct (py_max_fin me z) as [y Hy]; [destruct Hme as [|[? _]]; eauto|].
      eexists _, _. split; [done|].
      destruct (score_le beta (py_max a (Fin z))); simpl.
      * split; [done|]. eauto.
      * split; [done|]. split; [intros; apply Hrem; by right|]. eauto.
    + simpl. split; [done|]. split; [done|]. eauto.
    + simpl. destruct s' as [[b' me] a]. simpl in *. subst. eauto.
  - match goal with |- context [for_loop ?body ?l ?s] =>
      assert (∃ s', for_loop body l s = Some s'
                    ∧ (s'.1.1 = b ∧ ∃ z, s'.1.2 = Fin z)) as (s' & -> & Hb & z & Hz);
        [apply (for_loop_rule body (λ rem st,
           st.1.1 = b ∧ (∀ p, p ∈ rem → p ∈ safe_cells b)
           ∧ ((∃ z, st.1.2 = Fin z) ∨ (st.1.2 = PosInf ∧ rem ≠ []))))|]
    end.
    + intros [[b' me] a]. simpl. intros (-> & _ & [Hfin|[_ Hnil]]); done.
    + intros p rem [[b' me] a]. simpl. intros (-> & Hrem & Hme).
      destruct (make_undo_move b p Hwf) as (b1 & -> & Hwf1 & Hundo).
      { apply Hrem. left. }
      simpl. destruct (IH alpha a true b1 Hwf1) as [z ->]. simpl.
      rewrite Hundo. simpl.
      destruct (py_min_fin me z) as [y Hy]; [destruct Hme as [|[? _]]; eauto|].
      eexists _, _. split; [done|].
      destruct (score_le (py_min a (Fin z)) alpha); simpl.
      * split; [done|]. eauto.
      * split; [done|]. split; [intros; apply Hrem; by right|]. eauto.
    + simpl. split; [done|]. split; [done|]. eauto.
    + simpl. destruct s' as [[b' me] a]. simpl in *. subst. eauto.
Qed.

Lemma row_major_lt_asym p q : row_major_lt p q → row_major_lt q p → False.
Proof. unfold row_major_lt. lia. Qed.

(** What [get_best_move] of the alpha-beta engine returns: nothing on a
    board without safe cell; otherwise a safe cell whose score is maximal,
    and strictly greater than the score of every earlier cell. *)
Lemma get_best_move_AB_spec d b :
  wf_board b →
  (safe_cells b = [] → AlphaBetaAI.get_best_move d b = Some (None, b))
  ∧ (safe_cells b ≠ [] →
     ∃ mv z, AlphaBetaAI.get_best_move d b = Some (Some mv, b)
       ∧ mv ∈ safe_cells b
       ∧ AlphaBetaAI.move_score d b mv = Some (Fin z)
       ∧ ∀ p, p ∈ safe_cells b →
           ∃ z', AlphaBetaAI.move_score d b p = Some (Fin z')
                 ∧ z' <= z ∧ (row_major_lt p mv → z' < z)).
Proof.
  intros Hwf. unfold AlphaBetaAI.get_best_move.
  rewrite get_safe_positions_eq by done. simpl. split.
  { by intros ->. }
  intros Hne. destruct (safe_cells b) as [|p0 l0] eqn:Ecells; [done|].
  rewrite <- Ecells. clear Hne.
  assert (∀ p, p ∈ safe_cells b →
            ∃ b1 z, AlphaBetaAI.make_move b p.1 p.2 = Some b1
              ∧ AlphaBetaAI.alpha_beta_search d NegInf PosInf false b1 = Some (Fin z, b1)
              ∧ AlphaBetaAI.undo_move b1 p.1 p.2 = Some b
              ∧ AlphaBetaAI.move_score d b p = Some (Fin z)) as Hmove.
  { intros p Hp. destruct (make_undo_move b p Hwf Hp) as (b1 & Hmk & Hwf1 & Hundo).
    destruct (alpha_beta_search_frame d NegInf PosInf false b1 Hwf1) as [z Hz].
    exists b1, z. split_and!; [done..|].
    unfold AlphaBetaAI.move_score. rewrite Hmk. simpl. by rewrite Hz. }
  match goal with |- context [for_loop ?body ?l ?s] =>
    assert (∃ s', for_loop body l s = Some s'
              ∧ (s'.1.1 = b ∧ ∃ mv z, s'.2 = Some mv ∧ mv ∈ safe_cells b
                 ∧ AlphaBetaAI.move_score d b mv = Some (Fin z)
                 ∧ ∀ p, p ∈ safe_cells b →
                     ∃ z', AlphaBetaAI.move_score d b p = Some (Fin z')
                           ∧ z' <= z ∧ (row_major_lt p mv → z' < z)))
      as (s' & -> & Hb & mv & z & Hmv & Hin & Hsc & Hmax);
      [apply (for_loop_rule body (λ rem st,
         st.1.1 = b ∧ ∃ seen, seen ++ rem = safe_cells b
         ∧ ((seen = [] ∧ st.1.2 = NegInf)
            ∨ ∃ mv z, st.2 = Some mv ∧ st.1.2 = Fin z ∧ mv ∈ seen
                ∧ AlphaBetaAI.move_score d b mv = Some (Fin z)
                ∧ ∀ p, p ∈ seen →
                    ∃ z', AlphaBetaAI.move_score d b p = Some (Fin z')
                          ∧ z' <= z ∧ (row_major_lt p mv → z' < z))))|]
  end.
  - intros [[b' bs] bm]. simpl. intros (-> & seen & Hseen & Hst).
    rewrite app_nil_r in Hseen. subst seen. split; [done|].
    destruct Hst as [[Hnil _]|(mv & z & ? & ? & ? & ? & ?)].
    + rewrite Ecells in Hnil. done.
    + exists mv, z. done.
  - intros p rem [[b' bs] bm]. simpl. intros (-> & seen & Hseen & Hst).
    assert (p ∈ safe_cells b) as Hp.
    { rewrite <- Hseen. apply elem_of_app. right. left. }
    destruct (Hmove p Hp) as (b1 & zp & -> & Hsearch & Hundo & Hscore). simpl.
    rewrite Hsearch. simpl. rewrite Hundo. simpl.
    assert (∀ q, q ∈ seen → row_major_lt q p) as Hbefore.
    { intros q Hq. pose proof (safe_cells_sorted b) as Hs. rewrite <- Hseen in Hs.
      eapply StronglySorted_app_1_elem_of; [exact Hs|done|left]. }
    eexists Continue, _. split; [done|]. cbv beta.
    destruct Hst as [[-> ->]|(mv & z & -> & -> & Hmv & Hsc & Hall)]; simpl.
    + split; [done|]. exists [p]. split; [done|]. right.
      exists p, zp. split_and!; [done|done|by left|done|].
      intros q ->%list_elem_of_singleton. exists zp. split_and!; [done|lia|].
      intros Hlt. by apply row_major_lt_asym in Hlt.
    + destruct (z <? zp) eqn:Ez; simpl.
      * apply Z.ltb_lt in Ez. split; [done|]. exists (seen ++ [p]).
        split; [by rewrite <- app_assoc|]. right.
        exists p, zp. split_and!; [done|done|apply elem_of_app; right; left|done|].
        intros q [Hq| ->%list_elem_of_singleton]%elem_of_app.
        -- destruct (Hall q Hq) as (z' & ? & ? & ?). exists z'.
           split_and!; [done|lia|]. intros _. lia.
        -- exists zp. split_and!; [done|lia|].
           intros Hlt. by apply row_major_lt_asym in Hlt.
      * apply Z.ltb_ge in Ez. split; [done|]. exists (seen ++ [p]).
        split; [by rewrite <- app_assoc|]. right.
        exists mv, z. split_and!; [done|done|apply elem_of_app; by left|done|].
        intros q [Hq| ->%list_elem_of_singleton]%elem_of_app.
        -- by apply Hall.
        -- exists zp. split_and!; [done|lia|].
           intros Hlt. exfalso. eapply row_major_lt_asym; [exact Hlt|by apply Hbefore].
  - simpl. split; [done|]. exists []. split; [done|]. by left.
  - simpl. destruct s' as [[b' bs] bm]. simpl in *. subst.
    exists mv, z. done.
Qed.

(** ** The minimax engines *)

Section MinimaxEngines.
Variable evaluate : Board → Z.

Lemma minimax_S d m b :
  MinimaxAI.minimax evaluate (S d) m b
  = if np_sum (board b) =? size b then Some (Fin (evaluate b), b)
    else
      st ← for_loop (λ i (st : Board * score),
              st' ← for_loop (mm_cell evaluate d m i) (range (size st.1)) st;
              Some (Continue, st'))
            (range (size b)) (b, init m);
      Some (st.2, st.1).
Proof. destruct m; reflexivity. Qed.

Lemma nq_minimax_S d alpha beta m b :
  NQueensAI.minimax evaluate (S d) alpha beta m b
  = if np_sum (board b) =? size b then Some (Fin (evaluate b), b)
    else
      st ← for_loop (λ i (st : Board * score * score),
              st' ← for_loop (nq_cell evaluate d m (if m then beta else alpha) i)
                             (range (size st.1.1)) st;
              Some (Continue, st'))
            (range (size b)) (b, init m, if m then alpha else beta);
      Some (st.1.2, st.1.1).
Proof. destruct m; reflexivity. Qed.

(** The move of the minimax engines on a free and safe cell and its undo. *)
Lemma child_facts b i j :
  wf_board b → in_range b i j → free_and_safe b i j = true →
  ∃ g1, setitem (board b) i j 1 = Some g1
        ∧ with_grid b g1 = child b i j
        ∧ wf_board (child b i j)
        ∧ setitem (board (child b i j)) i j 0 = Some (board b)
        ∧ with_grid (child b i j) (board b) = b.
Proof.
  intros [Hn Hwf] _ [Hx _]%free_and_safe_true.
  destruct (setitem_total _ _ _ 1 _ Hx) as [g1 Hg1]. exists g1.
  unfold child. rewrite Hg1. simpl. split_and!; [done|done|..].
  - split; simpl; [done|]. by eapply setitem_wf.
  - by eapply setitem_roundtrip.
  - by destruct b.
Qed.

Opaque child.

Lemma free_and_safe_eq b i j x ok :
  getitem (board b) i j = Some x → is_safe b i j = Some ok →
  free_and_safe b i j = (x =? 0) && ok.
Proof. intros Hx Hok. unfold free_and_safe. by rewrite Hx, Hok. Qed.

Section Depth.
Variable d : nat.
Hypothesis minimax_frame_d :
  ∀ m b, wf_board b → ∃ v, MinimaxAI.minimax evaluate d m b = Some (v, b).

Lemma mm_cell_eq m b i j acc :
  wf_board b → in_range b i j →
  mm_cell evaluate d m i j (b, acc)
  = Some (Continue, (b, cell_step evaluate d m b i acc j)).
Proof.
  intros Hwf Hin. unfold mm_cell, cell_step.
  destruct (getitem_total _ _ i j (proj2 Hwf) (proj1 Hin) (proj2 Hin)) as [x Hx].
  destruct (is_safe_total b i j Hwf Hin) as [ok Hok].
  rewrite (free_and_safe_eq b i j x ok Hx Hok), Hx. simpl.
  destruct (x =? 0) eqn:Ex; [|done]. rewrite Hok. simpl.
  destruct ok; [|done].
  destruct (child_facts b i j Hwf Hin) as (g1 & Hg1 & Hc & Hwfc & Hundo & Hback).
  { rewrite (free_and_safe_eq b i j x true Hx Hok), Ex. done. }
  rewrite Hg1. simpl. rewrite Hc. unfold mm_value.
  destruct (minimax_frame_d (negb m) (child b i j) Hwfc) as [v ->]. simpl.
  rewrite Hundo. simpl. by rewrite Hback.
Qed.

Lemma mm_row_eq m b i js acc :
  wf_board b → 0 <= i < size b → (∀ j, j ∈ js → 0 <= j < size b) →
  for_loop (mm_cell evaluate d m i) js (b, acc)
  = Some (b, fold_left (cell_step evaluate d m b i) js acc).
Proof.
  intros Hwf Hi. revert acc. induction js as [|j js IH]; intros acc Hjs; [done|].
  cbn [for_loop]. rewrite mm_cell_eq; [|done|split; [done|apply Hjs; left]].
  apply IH. intros; apply Hjs; by right.
Qed.

Lemma mm_rows_eq m b rows acc :
  wf_board b → (∀ i, i ∈ rows → 0 <= i < size b) →
  for_loop (λ i (st : Board * score),
      st' ← for_loop (mm_cell evaluate d m i) (range (size st.1)) st;
      Some (Continue, st')) rows (b, acc)
  = Some (b, fold_left (row_step evaluate d m b) rows acc).
Proof.
  intros Hwf. revert acc. induction rows as [|i rows IH]; intros acc Hrows; [done|].
  cbn [for_loop fst]. rewrite mm_row_eq; [|done|apply Hrows; left|intros j; apply elem_of_range].
  simpl. apply IH. intros; apply Hrows; by right.
Qed.

Lemma minimax_S_eq m b :
  wf_board b →
  MinimaxAI.minimax evaluate (S d) m b
  = Some (if np_sum (board b) =? size b then Fin (evaluate b)
          else fold_left (row_step evaluate d m b) (range (size b)) (init m), b).
Proof.
  intros Hwf. rewrite minimax_S. destruct (np_sum (board b) =? size b); [done|].
  rewrite mm_rows_eq; [done..|intros i; apply elem_of_range].
Qed.

End Depth.

(** The unpruned search returns, on the board it was given. *)
Lemma minimax_frame d :
  ∀ m b, wf_board b → ∃ v, MinimaxAI.minimax evaluate d m b = Some (v, b).
Proof.
  induction d as [|d IH]; intros m b Hwf; [simpl; eauto|].
  rewrite (minimax_S_eq d IH) by done. eauto.
Qed.

Lemma mm_value_S d m b :
  wf_board b → (np_sum (board b) =? size b) = false →
  mm_value evaluate (S d) m b
  = fold_left (row_step evaluate d m b) (range (size b)) (init m).
Proof.
  intros Hwf Hfull. unfold mm_value.
  rewrite (minimax_S_eq d (minimax_frame d)) by done. by rewrite Hfull.
Qed.

End MinimaxEngines.

(** ** The pruned search against the unpruned one *)

Opaque child.

Section PrunedEngine.
Variable evaluate : Board → Z.

Lemma window_ok_refl (alpha beta r : score) : window_ok alpha beta r r.
Proof. unfold window_ok. auto. Qed.

Lemma dir_lt_window (m : bool) (own other : score) :
  score_lt (if m then own else other) (if m then other else own) = dir_lt m own other.
Proof. by destruct m. Qed.

Section Depth.
Variable d : nat.
Hypothesis nq_sound_d :
  ∀ alpha beta m b, wf_board b →
    ∃ r, NQueensAI.minimax evaluate d alpha beta m b = Some (r, b)
         ∧ (score_lt alpha beta = true →
            window_ok alpha beta r (mm_value evaluate d m b)).

(** One cell of the pruned search: skipped, or searched with the current
    window and undone. *)
Lemma nq_cell_step m other b i j best own :
  wf_board b → in_range b i j →
  (free_and_safe b i j = false
   ∧ nq_cell evaluate d m other i j (b, best, own)
     = Some (Continue, (b, best, own)))
  ∨ (free_and_safe b i j = true
     ∧ ∃ rc,
         nq_cell evaluate d m other i j (b, best, own)
         = Some (if negb (dir_lt m (pick m own rc) other) then Break else Continue,
                 (b, pick m best rc, pick m own rc))
         ∧ (dir_lt m own other = true →
            window_ok (if m then own else other) (if m then other else own) rc
                      (mm_value evaluate d (negb m) (child b i j)))).
Proof.
  intros Hwf Hin. unfold nq_cell.
  destruct (getitem_total _ _ i j (proj2 Hwf) (proj1 Hin) (proj2 Hin)) as [x Hx].
  destruct (is_safe_total b i j Hwf Hin) as [ok Hok].
  rewrite (free_and_safe_eq b i j x ok Hx Hok), Hx. simpl.
  destruct (x =? 0) eqn:Ex; [|by left]. rewrite Hok. simpl.
  destruct ok; [|by left]. right. split; [done|].
  destruct (child_facts b i j Hwf Hin) as (g1 & Hg1 & Hc & Hwfc & Hundo & Hback).
  { rewrite (free_and_safe_eq b i j x true Hx Hok), Ex. done. }
  rewrite Hg1. simpl. rewrite Hc.
  destruct (nq_sound_d (if m then own else other) (if m then other else own)
              (negb m) (child b i j) Hwfc) as (rc & -> & Hrc).
  simpl. rewrite Hundo. simpl. rewrite Hback. exists rc. split; [done|].
  intros Hproper. apply Hrc. by rewrite dir_lt_window.
Qed.

(** After a cut the cells the pruned search skips only push the unpruned
    score further past the bound. *)
Lemma phase_cut_fold m own0 other b i js u r :
  dir_lt m (pick m own0 r) other = false →
  phase m own0 other u r →
  phase m own0 other (fold_left (cell_step evaluate d m b i) js u) r.
Proof.
  intros Hcut. revert u. induction js as [|j js IH]; intros u Hph; [done|].
  simpl. apply IH. unfold cell_step. destruct (free_and_safe b i j); [|done].
  by apply phase_cut.
Qed.

(** The inner loop of the pruned search over the row [i]. *)
Lemma nq_row m own0 other b goal rows i st :
  wf_board b → 0 <= i < size b →
  nq_inv m own0 other b goal
    (λ u, fold_left (row_step evaluate d m b) rows (row_step evaluate d m b u i)) st →
  ∃ st', for_loop (nq_cell evaluate d m other i) (range (size b)) st = Some st'
         ∧ nq_inv m own0 other b goal
             (λ u, fold_left (row_step evaluate d m b) rows u) st'.
Proof.
  intros Hwf Hi Hinv.
  apply (for_loop_rule _ (λ rem st,
    (∀ j, j ∈ rem → 0 <= j < size b)
    ∧ nq_inv m own0 other b goal
        (λ u, fold_left (row_step evaluate d m b) rows
                (fold_left (cell_step evaluate d m b i) rem u)) st)).
  - intros s [_ Hs]. exact Hs.
  - intros j rem [[b' best] own] [Hrem (Hb & Hown & Hph)]. simpl in Hb, Hown. subst b'.
    assert (in_range b i j) as Hin by (split; [done|apply Hrem; left]).
    destruct (nq_cell_step m other b i j best own Hwf Hin)
      as [[Hfs ->]|(Hfs & rc & -> & Hrc)].
    + eexists _, _. split; [done|]. split; [intros; apply Hrem; by right|].
      split_and!; [done..|]. intros Hproper.
      destruct (Hph Hproper) as (u & Hu & Hphase). exists u. split; [|done].
      simpl in Hu. unfold cell_step at 2 in Hu. by rewrite Hfs in Hu.
    + eexists _, _. split; [done|].
      assert (pick m own rc = pick m own0 (pick m best rc)) as Hown'.
      { rewrite Hown. apply pick_assoc. }
      assert (∀ u, phase m own0 other u best → dir_lt m own0 other = true →
                phase m own0 other
                  (pick m u (mm_value evaluate d (negb m) (child b i j)))
                  (pick m best rc)) as Hstep.
      { intros u Hphase Hproper. apply phase_step; [done|].
        rewrite <- Hown. exact Hrc. }
      destruct (negb (dir_lt m (pick m own rc) other)) eqn:Ecut.
      * split_and!; [done..|]. intros Hproper.
        destruct (Hph Hproper) as (u & Hu & Hphase).
        simpl in Hu. unfold cell_step at 2 in Hu. rewrite Hfs in Hu.
        eexists. split; [exact Hu|]. simpl. apply phase_cut_fold.
        -- rewrite <- Hown'. by apply negb_true_iff.
        -- by apply Hstep.
      * split; [intros; apply Hrem; by right|].
        split_and!; [done..|]. intros Hproper.
        destruct (Hph Hproper) as (u & Hu & Hphase).
        simpl in Hu. unfold cell_step at 2 in Hu. rewrite Hfs in Hu.
        eexists. split; [exact Hu|]. simpl. by apply Hstep.
  - split; [intros j; apply elem_of_range|]. exact Hinv.
Qed.

(** The outer loop of the pruned search. *)
Lemma nq_rows m own0 other b goal st :
  wf_board b →
  nq_inv m own0 other b goal
    (λ u, fold_left (row_step evaluate d m b) (range (size b)) u) st →
  ∃ st', for_loop (λ i (st : Board * score * score),
             st' ← for_loop (nq_cell evaluate d m other i) (range (size st.1.1)) st;
             Some (Continue, st')) (range (size b)) st = Some st'
         ∧ nq_inv m own0 other b goal (λ u, u) st'.
Proof.
  intros Hwf Hinv.
  apply (for_loop_rule _ (λ rem st,
    (∀ i, i ∈ rem → 0 <= i < size b)
    ∧ nq_inv m own0 other b goal
        (λ u, fold_left (row_step evaluate d m b) rem u) st)).
  - intros s [_ Hs]. exact Hs.
  - intros i rem s [Hrem Hs]. pose proof Hs as (Hb & _). rewrite Hb.
    destruct (nq_row m own0 other b goal rem i s Hwf) as (s' & -> & Hs').
    { apply Hrem. left. }
    { exact Hs. }
    simpl. eexists Continue, _. split; [done|].
    split; [intros; apply Hrem; by right|done].
  - split; [intros i; apply elem_of_range|]. exact Hinv.
Qed.

Lemma nq_sound_S alpha beta m b :
  wf_board b →
  ∃ r, NQueensAI.minimax evaluate (S d) alpha beta m b = Some (r, b)
       ∧ (score_lt alpha beta = true →
          window_ok alpha beta r (mm_value evaluate (S d) m b)).
Proof.
  intros Hwf. rewrite nq_minimax_S.
  destruct (np_sum (board b) =? size b) eqn:Hfull.
  { eexists. split; [done|]. intros _. unfold mm_value. simpl. rewrite Hfull.
    apply window_ok_refl. }
  destruct (nq_rows m (if m then alpha else beta) (if m then beta else alpha) b
              (mm_value evaluate (S d) m b)
              (b, init m, if m then alpha else beta) Hwf)
    as ([[b' best] own] & -> & Hb & _ & Hph).
  { split_and!; simpl; [done|by rewrite pick_init|].
    intros Hproper. exists (init m). split; [by rewrite mm_value_S|].
    by apply phase_init. }
  simpl in Hb. subst b'. simpl. eexists. split; [done|].
  intros Hproper.
  assert (dir_lt m (if m then alpha else beta) (if m then beta else alpha) = true)
    as Hproper' by (by destruct m).
  destruct (Hph Hproper') as (u & <- & Hphase). simpl in Hphase.
  apply (phase_window _ _ _ _ _ Hproper') in Hphase. by destruct m.
Qed.

End Depth.

(** The pruned search returns, on the board it was given; with a proper
    window its result stands to the unpruned score as the window says. *)
Lemma nq_sound d :
  ∀ alpha beta m b, wf_board b →
    ∃ r, NQueensAI.minimax evaluate d alpha beta m b = Some (r, b)
         ∧ (score_lt alpha beta = true →
            window_ok alpha beta r (mm_value evaluate d m b)).
Proof.
  induction d as [|d IH]; intros alpha beta m b Hwf.
  - simpl. eexists. split; [done|]. intros _. apply window_ok_refl.
  - by apply nq_sound_S.
Qed.

End PrunedEngine.

(** ** The engines hand back the board *)

Lemma alpha_beta_search_dead_end d alpha beta m b :
  wf_board b → BoardAB.get_safe_positions b = Some [] →
  ∃ ev, BoardAB.evaluate b = Some ev
        ∧ AlphaBetaAI.alpha_beta_search d alpha beta m b = Some (Fin ev, b).
Proof.
  intros Hwf Hsp. destruct (evaluate_AB_total b Hwf) as [ev Hev].
  exists ev. split; [done|]. destruct d as [|d]; simpl; rewrite ?Hev; [done|].
  destruct (BoardAB.is_game_over b); rewrite ?Hsp; simpl; by rewrite ?Hev.
Qed.

(** On a board without safe cell that is not full the unpruned search
    returns the score its branch starts from. *)
Lemma minimax_dead_end evaluate d m b :
  wf_board b → BoardAB.get_safe_positions b = Some [] →
  BoardMM.is_game_over b = false →
  MinimaxAI.minimax evaluate (S d) m b = Some (init m, b).
Proof.
  intros Hwf Hsp Hfull. rewrite get_safe_positions_eq in Hsp by done.
  injection Hsp as Hsp. unfold BoardMM.is_game_over in Hfull.
  rewrite (minimax_S_eq evaluate d (minimax_frame evaluate d)) by done.
  rewrite Hfull. do 2 f_equal.
  assert (∀ i j, 0 <= i < size b → 0 <= j < size b → free_and_safe b i j = false)
    as Hnone.
  { intros i j Hi Hj. destruct (free_and_safe b i j) eqn:Hfs; [|done].
    assert ((i, j) ∈ safe_cells b) as Hin by (by apply elem_of_safe_cells).
    rewrite Hsp in Hin. by apply elem_of_nil in Hin. }
  assert (∀ i js acc, 0 <= i < size b → (∀ j, j ∈ js → 0 <= j < size b) →
            fold_left (cell_step evaluate d m b i) js acc = acc) as Hrow.
  { intros i js. induction js as [|j js IH]; intros acc Hi Hjs; [done|].
    simpl. unfold cell_step at 2. rewrite Hnone; [|done|apply Hjs; left].
    apply IH; [done|]. intros; apply Hjs; by right. }
  assert (∀ rows acc, (∀ i, i ∈ rows → 0 <= i < size b) →
            fold_left (row_step evaluate d m b) rows acc = acc) as Hrows.
  { intros rows. induction rows as [|i rows IH]; intros acc Hr; [done|].
    simpl. unfold row_step at 2.
    rewrite Hrow; [|apply Hr; left|intros j; apply elem_of_range].
    apply IH. intros; apply Hr; by right. }
  apply Hrows. intros i. apply elem_of_range.
Qed.

Lemma get_best_move_AB_frame d b :
  wf_board b → ∃ mv, AlphaBetaAI.get_best_move d b = Some (mv, b).
Proof.
  intros Hwf. destruct (get_best_move_AB_spec d b Hwf) as [Hnil Hcons].
  destruct (decide (safe_cells b = [])) as [He|Hne]; [eauto|].
  destruct (Hcons Hne) as (mv & z & -> & _). eauto.
Qed.

Lemma get_best_move_MM_frame evaluate b :
  wf_board b → ∃ mv, MinimaxAI.get_best_move evaluate b = Some (mv, b).
Proof.
  intros Hwf. unfold MinimaxAI.get_best_move. rewrite valid_moves_eq by done.
  cbn -[MinimaxAI.minimax].
  destruct (safe_cells b) as [|p0 l0] eqn:Ecells; [eauto|]. rewrite <- Ecells.
  match goal with |- context [for_loop ?body ?l ?s] =>
    assert (∃ s', for_loop body l s = Some s' ∧ s'.1.1 = b) as (s' & -> & Hb);
      [apply (for_loop_rule body (λ rem st,
         st.1.1 = b ∧ ∀ p, p ∈ rem → p ∈ safe_cells b))|]
  end.
  - by intros s [? _].
  - intros p rem [[b' bs] bm]. cbn -[MinimaxAI.minimax]. intros [-> Hrem].
    assert (p ∈ safe_cells b) as [Hin Hfs]%elem_of_safe_cells by (apply Hrem; left).
    destruct (child_facts b p.1 p.2 Hwf Hin Hfs)
      as (g1 & Hg1 & Hc & Hwfc & Hundo & Hback).
    rewrite Hg1. cbn -[MinimaxAI.minimax]. rewrite Hc.
    destruct (minimax_frame evaluate 3 false (child b p.1 p.2) Hwfc) as [v Hv].
    rewrite Hv. simpl. rewrite Hundo. simpl. rewrite Hback.
    eexists Continue, _. split; [done|]. simpl.
    split; [by destruct (score_lt bs v)|intros; apply Hrem; by right].
  - done.
  - simpl. rewrite Hb. eauto.
Qed.

Lemma get_best_move_NQ_frame evaluate b :
  wf_board b → ∃ mv, NQueensAI.get_best_move evaluate b = Some (mv, b).
Proof.
  intros Hwf. unfold NQueensAI.get_best_move. rewrite valid_moves_eq by done.
  cbn -[NQueensAI.minimax].
  destruct (safe_cells b) as [|p0 l0] eqn:Ecells; [eauto|]. rewrite <- Ecells.
  match goal with |- context [for_loop ?body ?l ?s] =>
    assert (∃ s', for_loop body l s = Some s' ∧ s'.1.1 = b) as (s' & -> & Hb);
      [apply (for_loop_rule body (λ rem st,
         st.1.1 = b ∧ ∀ p, p ∈ rem → p ∈ safe_cells b))|]
  end.
  - by intros s [? _].
  - intros p rem [[b' bs] bm]. cbn -[NQueensAI.minimax]. intros [-> Hrem].
    assert (p ∈ safe_cells b) as [Hin Hfs]%elem_of_safe_cells by (apply Hrem; left).
    destruct (child_facts b p.1 p.2 Hwf Hin Hfs)
      as (g1 & Hg1 & Hc & Hwfc & Hundo & Hback).
    rewrite Hg1. cbn -[NQueensAI.minimax]. rewrite Hc.
    destruct (nq_sound evaluate 3 NegInf PosInf false (child b p.1 p.2) Hwfc)
      as (v & Hv & _).
    rewrite Hv. simpl. rewrite Hundo. simpl. rewrite Hback.
    eexists Continue, _. split; [done|]. simpl.
    split; [by destruct (score_lt bs v)|intros; apply Hrem; by right].
  - done.
  - simpl. rewrite Hb. eauto.
Qed.

(** ** The counter and the grid *)

Lemma Board_init_ok n b : Board_init n = Some b → wf_board b ∧ counter_ok b.
Proof.
  unfold Board_init. destruct (n <? 0) eqn:En; [done|]. intros [= <-].
  apply Z.ltb_ge in En. split.
  - split; simpl; [done|apply np_zeros_wf].
  - unfold counter_ok. simpl. rewrite np_zeros_occupied. lia.
Qed.

Lemma reset_ok new_size b b' : reset new_size b = Some b' → wf_board b' ∧ counter_ok b'.
Proof.
  unfold reset. intros H. apply (Board_init_ok (default (size b) new_size)).
  unfold Board_init. by destruct new_size.
Qed.

Lemma is_safe_free b r c : is_safe b r c = Some true →
  ∃ x, getitem (board b) r c = Some x ∧ x ≠ 1.
Proof.
  unfold is_safe. destruct (getitem (board b) r c) as [x|]; [simpl|done].
  destruct (x =? 1) eqn:Ex; [done|]. apply Z.eqb_neq in Ex. eauto.
Qed.

Lemma place_queen_ok r c b ok b' :
  wf_board b → counter_ok b → place_queen r c b = Some (ok, b') →
  wf_board b' ∧ counter_ok b'.
Proof.
  intros Hwf Hcnt. unfold place_queen.
  destruct (is_safe b r c) as [[|]|] eqn:Hs; simpl; [|by intros [= <- <-]|done].
  destruct (setitem (board b) r c 1) as [g|] eqn:Hg; [simpl|done].
  intros [= <- <-]. destruct (is_safe_free b r c Hs) as (x & Hx & Hx1). split.
  - split; simpl; [apply Hwf|]. eapply setitem_wf; [apply Hwf|done].
  - unfold counter_ok in *. simpl. rewrite (occupied_setitem _ _ _ _ _ _ Hx Hg).
    rewrite decide_False, decide_True by done. lia.
Qed.

Lemma make_move_ok b i j b' :
  wf_board b → counter_ok b → getitem (board b) i j = Some 0 →
  AlphaBetaAI.make_move b i j = Some b' → wf_board b' ∧ counter_ok b'.
Proof.
  intros Hwf Hcnt Hx. unfold AlphaBetaAI.make_move.
  destruct (setitem (board b) i j 1) as [g|] eqn:Hg; [simpl|done].
  intros [= <-]. split.
  - split; simpl; [apply Hwf|]. eapply setitem_wf; [apply Hwf|done].
  - unfold counter_ok in *. simpl. rewrite (occupied_setitem _ _ _ _ _ _ Hx Hg).
    rewrite decide_False, decide_True by done. lia.
Qed.

Lemma undo_move_ok b i j b' :
  wf_board b → counter_ok b → getitem (board b) i j = Some 1 →
  AlphaBetaAI.undo_move b i j = Some b' → wf_board b' ∧ counter_ok b'.
Proof.
  intros Hwf Hcnt Hx. unfold AlphaBetaAI.undo_move.
  destruct (setitem (board b) i j 0) as [g|] eqn:Hg; [simpl|done].
  intros [= <-]. split.
  - split; simpl; [apply Hwf|]. eapply setitem_wf; [apply Hwf|done].
  - unfold counter_ok in *. simpl. rewrite (occupied_setitem _ _ _ _ _ _ Hx Hg).
    rewrite decide_True, decide_False by done. lia.
Qed.

(** Without the grid-only moves every reachable board is well formed and
    its counter agrees with its grid. *)
Lemma reachable_ok b : reachable false b → wf_board b ∧ counter_ok b.
Proof.
  induction 1 as
    [n b Hi|b ns b' _ _ Hr|b r c ok b' _ [Hwf Hc] Hp|b sp p b' _ [Hwf Hc] Hsp Hp Hm
    |b i j b' _ [Hwf Hc] Hx Hu|b d al be m s b' _ [Hwf Hc] Hs
    |b d mv b' _ [Hwf Hc] Hs|b ev d m s b' _ [Hwf Hc] Hs|b ev mv b' _ [Hwf Hc] Hs
    |b ev d al be m s b' _ [Hwf Hc] Hs|b ev mv b' _ [Hwf Hc] Hs
    |b i j g Hf|b i j g Hf]; try done.
  - by eapply Board_init_ok.
  - by eapply reset_ok.
  - by eapply place_queen_ok.
  - rewrite get_safe_positions_eq in Hsp by done. injection Hsp as <-.
    apply elem_of_safe_cells in Hp as [_ [Hx _]%free_and_safe_true].
    by eapply make_move_ok.
  - by eapply undo_move_ok.
  - destruct (alpha_beta_search_frame d al be m b Hwf) as [z Hz].
    rewrite Hz in Hs. by injection Hs as _ <-.
  - destruct (get_best_move_AB_frame d b Hwf) as [mv' Hz].
    rewrite Hz in Hs. by injection Hs as _ <-.
  - destruct (minimax_frame ev d m b Hwf) as [v Hz].
    rewrite Hz in Hs. by injection Hs as _ <-.
  - destruct (get_best_move_MM_frame ev b Hwf) as [mv' Hz].
    rewrite Hz in Hs. by injection Hs as _ <-.
  - destruct (nq_sound ev d al be m b Hwf) as (r & Hz & _).
    rewrite Hz in Hs. by injection Hs as _ <-.
  - destruct (get_best_move_NQ_frame ev b Hwf) as [mv' Hz].
    rewrite Hz in Hs. by injection Hs as _ <-.
Qed.

(** ** Legal positions *)

Lemma attacks_sym r c r' c' : attacks r c r' c' → attacks r' c' r c.
Proof. unfold attacks. lia. Qed.

(** A double lookup by position is [a[i, j]] on the board. *)
Lemma getitem_nat n g (r c : nat) row v :
  wf_grid n g → g !! r = Some row → row !! c = Some v →
  0 <= Z.of_nat r < n ∧ 0 <= Z.of_nat c < n
  ∧ getitem g (Z.of_nat r) (Z.of_nat c) = Some v.
Proof.
  intros Hwf Hr Hc. pose proof Hwf as [Hlen _].
  pose proof (lookup_lt_Some _ _ _ Hr) as Hr'.
  pose proof (lookup_lt_Some _ _ _ Hc) as Hc'.
  rewrite (wf_grid_row _ _ _ _ Hwf Hr) in Hc'.
  assert (0 <= Z.of_nat r < n) as Hi by lia.
  assert (0 <= Z.of_nat c < n) as Hj by lia.
  split_and!; [lia..|].
  destruct (getitem_in n g _ _ Hwf Hi Hj) as (row' & v' & Hrow' & Hv' & ->).
  rewrite Nat2Z.id in Hrow', Hv'. congruence.
Qed.

Lemma np_zeros_lookup n (r c : nat) row v :
  np_zeros n !! r = Some row → row !! c = Some v → v = 0.
Proof.
  unfold np_zeros. intros [-> _]%lookup_replicate [-> _]%lookup_replicate. done.
Qed.

Lemma np_zeros_getitem n i j v : getitem (np_zeros n) i j = Some v → v = 0.
Proof.
  unfold getitem. intros H.
  destruct (np_index _ i) as [r|]; [simpl in H|done].
  destruct (np_zeros n !! r) as [row|] eqn:Hr; [simpl in H|done].
  destruct (np_index _ j) as [c|]; [simpl in H|done].
  by eapply np_zeros_lookup.
Qed.

Lemma np_zeros_binary n : binary_grid (np_zeros n).
Proof.
  unfold binary_grid, np_zeros. apply Forall_replicate, Forall_replicate. by left.
Qed.

Lemma Board_init_legal n b : Board_init n = Some b → legal b.
Proof.
  intros Hi. destruct (Board_init_ok n b Hi) as [Hwf Hc].
  split; [|done]. split_and!; [done|..].
  - unfold Board_init in Hi. destruct (n <? 0); [done|]. injection Hi as <-.
    apply np_zeros_binary.
  - intros r c r' c' [_ Hq] _ _ _.
    unfold Board_init in Hi. destruct (n <? 0); [done|]. injection Hi as <-.
    simpl in Hq. by apply np_zeros_getitem in Hq.
Qed.

Lemma setitem_binary g i j v g' :
  binary_grid g → v = 0 ∨ v = 1 → setitem g i j v = Some g' → binary_grid g'.
Proof.
  unfold binary_grid, setitem. intros Hb Hv H.
  destruct (np_index (length g) i) as [r|]; [simpl in H|done].
  destruct (g !! r) as [row|] eqn:Hr; [simpl in H|done].
  destruct (np_index (length row) j) as [c|]; [simpl in H|done].
  injection H as <-. apply Forall_insert; [done|].
  apply Forall_insert; [|done]. by eapply (Forall_lookup_1 _ _ _ _ Hb Hr).
Qed.

(** The queens after a write of 1 on a cell of the board. *)
Lemma queen_at_added b b' r c r' c' :
  wf_board b → in_range b r c →
  size b' = size b → setitem (board b) r c 1 = Some (board b') →
  queen_at b' r' c' → (r', c') = (r, c) ∨ queen_at b r' c'.
Proof.
  intros Hwf Hin Hsz Hg [Hin' Hq].
  destruct (decide ((r', c') = (r, c))) as [|Hne]; [by left|right].
  unfold in_range in Hin'. rewrite Hsz in Hin'. split; [done|].
  rewrite <- Hq. symmetry.
  exact (setitem_getitem_ne _ _ _ _ _ _ _ _ (proj2 Hwf) (proj1 Hin) (proj2 Hin)
           (proj1 Hin') (proj2 Hin') Hne Hg).
Qed.

(** A queen put on a safe cell of a legal grid leaves the grid legal. *)
Lemma add_queen_legal b b' r c :
  legal_grid b → in_range b r c → is_safe b r c = Some true →
  size b' = size b → setitem (board b) r c 1 = Some (board b') →
  legal_grid b'.
Proof.
  intros (Hwf & Hbin & Hpeace) Hin Hs Hsz Hg.
  destruct (is_safe_spec b r c Hwf Hin) as (s & Hs' & Hiff).
  rewrite Hs in Hs'. injection Hs' as <-.
  assert (∀ r' c', queen_at b r' c' → ¬ attacks r c r' c') as Hfree.
  { intros r' c' Hq Ha. assert (true = false) as Habs; [|done].
    apply Hiff. right. eauto. }
  split_and!.
  - split; rewrite Hsz; [apply Hwf|]. eapply setitem_wf; [apply Hwf|done].
  - eapply setitem_binary; [done|by right|done].
  - intros r1 c1 r2 c2 Hq1 Hq2 Hne Ha.
    destruct (queen_at_added b b' r c r1 c1 Hwf Hin Hsz Hg Hq1) as [E1|Hq1'];
      destruct (queen_at_added b b' r c r2 c2 Hwf Hin Hsz Hg Hq2) as [E2|Hq2'].
    + congruence.
    + injection E1 as -> ->. by apply (Hfree r2 c2).
    + injection E2 as -> ->. apply (Hfree r1 c1); [done|]. by apply attacks_sym.
    + by apply (Hpeace r1 c1 r2 c2).
Qed.

Lemma place_queen_legal b r c ok b' :
  legal b → in_range b r c → place_queen r c b = Some (ok, b') → legal b'.
Proof.
  intros [Hlg Hc] Hin Hp. pose proof Hlg as (Hwf & _).
  split; [|by eapply place_queen_ok].
  destruct (is_safe_total b r c Hwf Hin) as [[|] Hs];
    destruct (place_queen_spec b r c Hwf Hin) as [Hyes Hno].
  - destruct (Hyes Hs) as (g & Hg & Hp'). rewrite Hp' in Hp. injection Hp as _ <-.
    by eapply (add_queen_legal b _ r c).
  - rewrite (Hno Hs) in Hp. by injection Hp as _ <-.
Qed.

(** *** At most one queen in a row *)

Lemma filter_none (l : list Z) :
  (∀ i, l !! i ≠ Some 1) → filter (λ y : Z, y = 1%Z) l = [].
Proof.
  induction l as [|x l IH]; intros Hl; [done|].
  rewrite filter_cons. destruct (decide (x = 1)) as [->|_].
  - by destruct (Hl O).
  - apply IH. intros i. apply (Hl (S i)).
Qed.

Lemma count_row_le1 (l : list Z) :
  (∀ i j, l !! i = Some 1 → l !! j = Some 1 → i = j) →
  (length (filter (λ y : Z, y = 1%Z) l) <= 1)%nat.
Proof.
  induction l as [|x l IH]; intros Hl; [simpl; lia|].
  rewrite filter_cons. destruct (decide (x = 1)) as [->|_].
  - rewrite filter_none; [simpl; lia|].
    intros i Hi. by specialize (Hl O (S i) eq_refl Hi).
  - apply IH. intros i j Hi Hj. by specialize (Hl (S i) (S j) Hi Hj) as [= ->].
Qed.

Lemma count_rows_le (g : list (list Z)) :
  Forall (λ row, (length (filter (λ y : Z, y = 1%Z) row) <= 1)%nat) g →
  (length (filter (λ y : Z, y = 1%Z) (concat g)) <= length g)%nat.
Proof.
  induction 1 as [|row g Hrow _ IH]; [simpl; lia|].
  simpl. rewrite filter_app, length_app. lia.
Qed.

Lemma count_rows_full (g : list (list Z)) :
  Forall (λ row, (length (filter (λ y : Z, y = 1%Z) row) <= 1)%nat) g →
  length (filter (λ y : Z, y = 1%Z) (concat g)) = length g
  ↔ Forall (λ row, length (filter (λ y : Z, y = 1%Z) row) = 1%nat) g.
Proof.
  induction 1 as [|row g Hrow Hg IH]; [by split; [constructor|]|].
  simpl. rewrite filter_app, length_app, Forall_cons.
  pose proof (count_rows_le g Hg). split.
  - intros Hsum. assert (length (filter (λ y : Z, y = 1%Z) row) = 1%nat) as Hr by lia.
    split; [done|]. apply IH. lia.
  - intros [Hr Hall]. apply IH in Hall. lia.
Qed.

Lemma peaceful_rows b :
  legal_grid b →
  Forall (λ row, (length (filter (λ y : Z, y = 1%Z) row) <= 1)%nat) (board b).
Proof.
  intros (Hwf & _ & Hpeace). apply Forall_lookup. intros r row Hr.
  apply count_row_le1. intros i j Hi Hj.
  destruct (getitem_nat _ _ r i row 1 (proj2 Hwf) Hr Hi) as (Hr1 & Hc1 & Hq1).
  destruct (getitem_nat _ _ r j row 1 (proj2 Hwf) Hr Hj) as (_ & Hc2 & Hq2).
  destruct (decide (i = j)) as [|Hne]; [done|exfalso].
  apply (Hpeace (Z.of_nat r) (Z.of_nat i) (Z.of_nat r) (Z.of_nat j)).
  - by split.
  - by split.
  - intros [= E]. lia.
  - by left.
Qed.

(** On a legal grid there are at most as many queens as rows. *)
Lemma occupied_le_size b : legal_grid b → 0 <= occupied_cells (board b) <= size b.
Proof.
  intros Hlg. pose proof (count_rows_le _ (peaceful_rows b Hlg)) as Hle.
  destruct Hlg as ([Hn [Hlen _]] & _). unfold occupied_cells. lia.
Qed.

(** ** More on the board operations *)

Lemma sumZ_app l1 l2 : sumZ (l1 ++ l2) = sumZ l1 + sumZ l2.
Proof. unfold sumZ. induction l1 as [|x l1 IH]; simpl; lia. Qed.

Lemma sumZ_binary (l : list Z) :
  Forall (λ x : Z, x = 0 ∨ x = 1) l →
  sumZ l = Z.of_nat (length (filter (λ y : Z, y = 1) l)).
Proof.
  induction 1 as [|x l Hx _ IH]; [done|].
  rewrite filter_cons. change (sumZ (x :: l)) with (x + sumZ l). rewrite IH.
  destruct (decide (x = 1)); simpl length; lia.
Qed.

(** On a grid of zeros and ones [np.sum] counts the queens. *)
Lemma np_sum_occupied g : binary_grid g → np_sum g = occupied_cells g.
Proof.
  intros Hb. unfold np_sum, occupied_cells. apply sumZ_binary.
  by apply Forall_concat.
Qed.

Lemma np_index_out len k :
  k < - Z.of_nat len ∨ Z.of_nat len <= k → np_index len k = None.
Proof.
  intros Hk. unfold np_index.
  destruct ((0 <=? k) && (k <? Z.of_nat len)) eqn:E1.
  { apply andb_true_iff in E1 as [?%Z.leb_le ?%Z.ltb_lt]. lia. }
  destruct ((- Z.of_nat len <=? k) && (k <? 0)) eqn:E2; [|done].
  apply andb_true_iff in E2 as [?%Z.leb_le ?%Z.ltb_lt]. lia.
Qed.

(** Beyond numpy's wrap-around, in either coordinate, the read raises. *)
Lemma getitem_out n g i j :
  wf_grid n g → 0 <= n →
  (i < - n ∨ n <= i) ∨ (j < - n ∨ n <= j) → getitem g i j = None.
Proof.
  intros Hwf Hn Hout. pose proof Hwf as [Hlen _]. unfold getitem.
  destruct (np_index (length g) i) as [r|] eqn:Hi; [simpl|done].
  destruct (g !! r) as [row|] eqn:Hr; [simpl|done].
  destruct Hout as [Hout|Hout].
  - rewrite np_index_out in Hi; [done|lia].
  - rewrite np_index_out; [done|]. rewrite (wf_grid_row _ _ _ _ Hwf Hr). lia.
Qed.

Lemma filter_all {A : Type} (P : A → Prop) `{∀ x, Decision (P x)} (l : list A) :
  (∀ x, x ∈ l → P x) → filter P l = l.
Proof.
  induction l as [|x l IH]; intros Hl; [done|].
  rewrite filter_cons, decide_True by (apply Hl; left).
  f_equal. apply IH. intros; apply Hl; by right.
Qed.

(** On a board without queens every cell is free and safe. *)
Lemma no_queen_all_safe b :
  wf_board b → (∀ i j v, getitem (board b) i j = Some v → v = 0) →
  safe_cells b = (range (size b) ≫= λ i, pair i <$> range (size b)).
Proof.
  intros Hwf Hzero. unfold safe_cells.
  assert (∀ i, 0 <= i < size b →
            filter (λ j, free_and_safe b i j) (range (size b)) = range (size b))
    as Hrow.
  { intros i Hi. apply filter_all. intros j Hj%elem_of_range.
    apply Is_true_true, free_and_safe_true.
    destruct (getitem_total _ _ i j (proj2 Hwf) Hi Hj) as [v Hv].
    pose proof (Hzero i j v Hv) as ->. split; [done|].
    destruct (is_safe_spec b i j Hwf (conj Hi Hj)) as ([|] & Hs & Hiff); [done|].
    destruct Hiff as [Hiff _].
    destruct (Hiff eq_refl) as [Hocc|(r' & c' & [_ Hq] & _)].
    - congruence.
    - by apply Hzero in Hq. }
  assert (∀ rows, (∀ i, i ∈ rows → 0 <= i < size b) →
            (rows ≫= λ i, pair i <$> filter (λ j, free_and_safe b i j) (range (size b)))
            = (rows ≫= λ i, pair i <$> range (size b))) as Hrows.
  { intros rows. induction rows as [|i rows IH]; intros Hr; [done|].
    simpl. rewrite Hrow by (apply Hr; left). f_equal.
    apply IH. intros; apply Hr; by right. }
  apply Hrows. intros i. apply elem_of_range.
Qed.

Lemma length_all_cells (rows cols : list Z) :
  length (rows ≫= λ i, pair i <$> cols) = (length rows * length cols)%nat.
Proof.
  induction rows as [|i rows IH]; [done|].
  rewrite bind_cons, length_app, length_fmap, IH. simpl. lia.
Qed.

Lemma sorted_NoDup (l : list (Z * Z)) : StronglySorted row_major_lt l → NoDup l.
Proof.
  induction 1 as [|p l _ IH Hall]; constructor; [|done].
  intros Hp. rewrite Forall_forall in Hall. specialize (Hall p Hp).
  unfold row_major_lt in Hall. lia.
Qed.

(** The safe cells after a queen is put on a safe cell [(r, c)] of a legal
    grid: each was safe before, none is [(r, c)] or attacked from it, and
    they are fewer. *)
Lemma safe_cells_shrink b b' r c :
  legal_grid b → in_range b r c → is_safe b r c = Some true →
  size b' = size b → setitem (board b) r c 1 = Some (board b') →
  (∀ p, p ∈ safe_cells b' →
     p ∈ safe_cells b ∧ p ≠ (r, c) ∧ ¬ attacks p.1 p.2 r c)
  ∧ (length (safe_cells b') < length (safe_cells b))%nat.
Proof.
  intros Hlg Hin Hs Hsz Hg. pose proof Hlg as (Hwf & Hbin & _).
  pose proof (add_queen_legal b b' r c Hlg Hin Hs Hsz Hg) as (Hwf' & _ & _).
  pose proof (setitem_getitem _ _ _ _ _ Hg) as Hnew.
  assert (queen_at b' r c) as Hq' by (split; [by unfold in_range; rewrite Hsz|done]).
  destruct (getitem_in _ _ r c (proj2 Hwf) (proj1 Hin) (proj2 Hin))
    as (row & v & Hrow & Hv & Hx).
  assert (v = 0) as ->.
  { destruct (is_safe_free b r c Hs) as (x & Hx' & Hx1).
    rewrite Hx in Hx'. injection Hx' as <-.
    unfold binary_grid in Hbin.
    pose proof (Forall_lookup_1 _ _ _ _ Hbin Hrow) as Hr.
    destruct (Forall_lookup_1 _ _ _ _ Hr Hv); [done|congruence]. }
  assert (∀ p, p ∈ safe_cells b' →
            p ∈ safe_cells b ∧ p ≠ (r, c) ∧ ¬ attacks p.1 p.2 r c) as Hsub.
  { intros [i j] [Hin' [Hx' Hs']%free_and_safe_true]%elem_of_safe_cells.
    simpl in *. unfold in_range in Hin'. rewrite Hsz in Hin'.
    destruct (is_safe_spec b' i j Hwf') as (s' & Hs'' & Hiff');
      [by unfold in_range; rewrite Hsz|].
    rewrite Hs' in Hs''. injection Hs'' as <-.
    assert ((i, j) ≠ (r, c)) as Hne by (intros [= -> ->]; congruence).
    assert (∀ i' j', 0 <= i' < size b → 0 <= j' < size b → (i', j') ≠ (r, c) →
              getitem (board b') i' j' = getitem (board b) i' j') as Hsame.
    { intros i' j' Hi' Hj' Hne'.
      exact (setitem_getitem_ne _ _ _ _ _ _ _ _ (proj2 Hwf) (proj1 Hin) (proj2 Hin)
               Hi' Hj' Hne' Hg). }
    split_and!; [|done|].
    - apply elem_of_safe_cells. split; [done|]. simpl.
      apply free_and_safe_true. rewrite <- Hsame by (done || apply Hin').
      split; [done|].
      destruct (is_safe_spec b i j Hwf Hin') as ([|] & Hsb & Hiff); [done|exfalso].
      destruct Hiff as [Hiff _].
      destruct (Hiff eq_refl) as [Hocc|(r' & c' & [Hin'' Hq] & Ha)].
      + rewrite <- Hsame in Hocc by (done || apply Hin'). congruence.
      + assert (true = false) as Habs; [|done]. apply Hiff'. right.
        exists r', c'. split; [|done]. split; [by unfold in_range; rewrite Hsz|].
        rewrite Hsame; [done|apply Hin''|apply Hin''|].
        intros [= -> ->]. congruence.
    - intros Ha. assert (true = false) as Habs; [|done]. apply Hiff'. right.
      exists r, c. done. }
  split; [exact Hsub|].
  assert ((r, c) ∈ safe_cells b) as Hrc.
  { apply elem_of_safe_cells. split; [done|]. by apply free_and_safe_true. }
  assert (length ((r, c) :: safe_cells b') <= length (safe_cells b))%nat as Hlen.
  { apply submseteq_length, NoDup_submseteq.
    - constructor; [|apply sorted_NoDup, safe_cells_sorted].
      intros Hp. by destruct (Hsub _ Hp) as (_ & Hne & _).
    - intros p [->|Hp]%elem_of_cons; [done|]. by apply Hsub. }
  simpl in Hlen. lia.
Qed.

(** ** The conflict-counting heuristic *)

Lemma count_gt1_nonneg l : 0 <= BoardMM.count_gt1 l.
Proof. unfold BoardMM.count_gt1. lia. Qed.

Lemma count_gt1_zero l : BoardMM.count_gt1 l = 0 ↔ Forall (λ x, x <= 1) l.
Proof.
  unfold BoardMM.count_gt1. induction l as [|x l IH].
  { split; [constructor|done]. }
  rewrite filter_cons, Forall_cons. destruct (decide (1 < x)); simpl length.
  - split; [lia|]. intros [? _]. lia.
  - rewrite <- IH. split; [intros; split; [lia|done]|by intros [_ ?]].
Qed.

Lemma sumZ_cons x l : sumZ (x :: l) = x + sumZ l.
Proof. done. Qed.

Lemma omap_cons_eq {A B : Type} (f : A → option B) a l :
  omap f (a :: l) = match f a with Some v => v :: omap f l | None => omap f l end.
Proof. done. Qed.

Section SumOmap.
Context {A : Type} (f : A → option Z).

Lemma sum_omap_nonneg (l : list A) :
  (∀ x v, x ∈ l → f x = Some v → 0 <= v) → 0 <= sumZ (omap f l).
Proof.
  induction l as [|a l IH]; intros Hv; [done|]. rewrite omap_cons_eq.
  assert (0 <= sumZ (omap f l)) as Hrest.
  { apply IH. intros x v Hx. apply Hv. by right. }
  destruct (f a) as [v|] eqn:Ha; [|done].
  rewrite sumZ_cons.
  pose proof (Hv a v (list_elem_of_here _ _) Ha). lia.
Qed.

Lemma sum_omap_zero (l : list A) :
  (∀ x v, x ∈ l → f x = Some v → v = 0) → sumZ (omap f l) = 0.
Proof.
  induction l as [|a l IH]; intros Hv; [done|]. rewrite omap_cons_eq.
  assert (sumZ (omap f l) = 0) as Hrest.
  { apply IH. intros x v Hx. apply Hv. by right. }
  destruct (f a) as [v|] eqn:Ha; [|done].
  rewrite sumZ_cons.
  pose proof (Hv a v (list_elem_of_here _ _) Ha). lia.
Qed.

(** At most one entry is 1 and the others are 0: the sum is at most 1. *)
Lemma sum_omap_le1 (l : list A) :
  (∀ x v, x ∈ l → f x = Some v → v = 0 ∨ v = 1) →
  (∀ i j x y, l !! i = Some x → l !! j = Some y →
     f x = Some 1 → f y = Some 1 → i = j) →
  sumZ (omap f l) <= 1.
Proof.
  induction l as [|a l IH]; intros Hv Hu; [done|]. rewrite omap_cons_eq.
  assert (sumZ (omap f l) <= 1) as Hrest.
  { apply IH.
    - intros x v Hx. apply Hv. by right.
    - intros i j x y Hi Hj Hx Hy. by specialize (Hu (S i) (S j) x y Hi Hj Hx Hy) as [= ->]. }
  destruct (f a) as [v|] eqn:Ha; [|done].
  rewrite sumZ_cons.
  destruct (Hv a v (list_elem_of_here _ _) Ha) as [->| ->]; [lia|].
  rewrite sum_omap_zero; [lia|].
  intros x v Hx Hfx. destruct (Hv x v) as [Hv0|Hv1]; [by right|done|done|].
  subst v. exfalso.
  apply list_elem_of_lookup in Hx as [j Hj].
  by specialize (Hu O (S j) a x eq_refl Hj Ha Hfx).
Qed.

Lemma sum_omap_ge1 (l : list A) x :
  (∀ x v, x ∈ l → f x = Some v → 0 <= v) →
  x ∈ l → f x = Some 1 → 1 <= sumZ (omap f l).
Proof.
  intros Hv Hx Hfx. apply list_elem_of_split in Hx as (l1 & l2 & ->).
  rewrite omap_app, omap_cons_eq, Hfx, sumZ_app, sumZ_cons.
  assert (0 <= sumZ (omap f l1)).
  { apply sum_omap_nonneg. intros y v Hy. apply Hv. apply elem_of_app. by left. }
  assert (0 <= sumZ (omap f l2)).
  { apply sum_omap_nonneg. intros y v Hy. apply Hv. apply elem_of_app.
    right. by right. }
  lia.
Qed.

(** Two entries are 1 and none is negative: the sum is at least 2. *)
Lemma sum_omap_ge2 (l : list A) (i j : nat) x y :
  (∀ x v, x ∈ l → f x = Some v → 0 <= v) →
  l !! i = Some x → l !! j = Some y → i ≠ j →
  f x = Some 1 → f y = Some 1 → 2 <= sumZ (omap f l).
Proof.
  assert (∀ (i j : nat) x y,
    (∀ x v, x ∈ l → f x = Some v → 0 <= v) →
    l !! i = Some x → l !! j = Some y → (i < j)%nat →
    f x = Some 1 → f y = Some 1 → 2 <= sumZ (omap f l)) as Hlt.
  { clear. intros i j x y Hv Hi Hj Hij Hx Hy.
    assert (∀ z, z ∈ take i l ∨ z ∈ drop (S i) l → z ∈ l) as Hin.
    { intros z Hz. rewrite <- (take_drop_middle l i x Hi).
      apply elem_of_app. destruct Hz; [by left|right; by right]. }
    rewrite <- (take_drop_middle l i x Hi), omap_app, omap_cons_eq.
    rewrite Hx, sumZ_app, sumZ_cons.
    assert (0 <= sumZ (omap f (take i l))).
    { apply sum_omap_nonneg. intros z v Hz. apply Hv, Hin. by left. }
    assert (1 <= sumZ (omap f (drop (S i) l))).
    { apply (sum_omap_ge1 _ y); [|
        apply list_elem_of_lookup; exists (j - S i)%nat;
        rewrite lookup_drop; by replace (S i + (j - S i))%nat with j by lia|done].
      intros z v Hz. apply Hv, Hin. by right. }
    lia. }
  intros Hv Hi Hj Hne Hx Hy.
  destruct (decide (i < j)%nat); [by eapply (Hlt i j x y)|].
  eapply (Hlt j i y x); [done..|lia|done|done].
Qed.
End SumOmap.

Lemma map_fmap {A B : Type} (f : A → B) (l : list A) : map f l = f <$> l.
Proof. done. Qed.

Lemma rev_lookup_Some {A : Type} (l : list A) i x :
  rev l !! i = Some x ↔ l !! (length l - S i)%nat = Some x ∧ (i < length l)%nat.
Proof. rewrite rev_alt. apply reverse_lookup_Some. Qed.

Lemma omap_Some_id {A : Type} (l : list A) : omap Some l = l.
Proof. induction l as [|x l IH]; [done|]. rewrite omap_cons_eq. by f_equal. Qed.

Lemma evaluate_MM_unfold b :
  BoardMM.evaluate b
  = BoardMM.count_gt1 (BoardMM.row_sums (board b))
    + BoardMM.count_gt1 (BoardMM.col_sums (board b))
    + BoardMM.count_gt1
        (flat_map (λ i, [sumZ (BoardMM.np_diagonal (board b) (i - size b + 1));
                         sumZ (BoardMM.np_diagonal (BoardMM.np_fliplr (board b))
                                 (i - size b + 1))])
                  (range (2 * size b - 1))).
Proof. done. Qed.

Section Conflict.
Variable b : Board.
Hypothesis Hwf : wf_board b.
Hypothesis Hbin : binary_grid (board b).

Lemma cell_binary (r c : nat) row v :
  board b !! r = Some row → row !! c = Some v → v = 0 ∨ v = 1.
Proof.
  intros Hr Hc. unfold binary_grid in Hbin.
  pose proof (Forall_lookup_1 _ _ _ _ Hbin Hr) as Hrow.
  exact (Forall_lookup_1 _ _ _ _ Hrow Hc).
Qed.

Lemma queen_lookup (r c : nat) row :
  board b !! r = Some row → row !! c = Some 1 →
  queen_at b (Z.of_nat r) (Z.of_nat c).
Proof.
  intros Hr Hc.
  destruct (getitem_nat _ _ r c row 1 (proj2 Hwf) Hr Hc) as (? & ? & ?).
  by split.
Qed.

Lemma queen_at_lookup r c :
  queen_at b r c →
  ∃ row, board b !! Z.to_nat r = Some row ∧ row !! Z.to_nat c = Some 1
         ∧ length row = Z.to_nat (size b).
Proof.
  intros [[Hr Hc] Hq].
  destruct (getitem_in _ _ r c (proj2 Hwf) Hr Hc) as (row & v & Hrow & Hv & Hg).
  exists row. split_and!; [done|congruence|]. by eapply wf_grid_row; [apply Hwf|].
Qed.

(** The entry of a diagonal of the grid at the row [r]. *)
Lemma diagonal_entry (g : list (list Z)) (k : Z) (r : nat) v :
  (row ← g !! r;
   if 0 <=? Z.of_nat r + k then row !! Z.to_nat (Z.of_nat r + k) else None) = Some v
  ↔ ∃ row, g !! r = Some row ∧ 0 <= Z.of_nat r + k
           ∧ row !! Z.to_nat (Z.of_nat r + k) = Some v.
Proof.
  destruct (g !! r) as [row|]; simpl.
  - destruct (0 <=? Z.of_nat r + k) eqn:E.
    + apply Z.leb_le in E. split; [eauto|]. by intros (? & [= <-] & _ & ?).
    + apply Z.leb_gt in E. split; [done|]. intros (? & _ & ? & _). lia.
  - split; [done|]. by intros (? & ? & _).
Qed.

Lemma fliplr_lookup (r : nat) row' :
  BoardMM.np_fliplr (board b) !! r = Some row'
  ↔ ∃ row, board b !! r = Some row ∧ row' = rev row.
Proof.
  unfold BoardMM.np_fliplr. rewrite map_fmap, list_lookup_fmap.
  destruct (board b !! r) as [row|]; simpl.
  - split; [intros [= <-]; eauto|]. by intros (? & [= <-] & ->).
  - split; [done|]. by intros (? & ? & _).
Qed.

Section Peaceful.
Hypothesis Hpeace : peaceful b.

Lemma peaceful_lookup (r c r' c' : nat) row row' :
  board b !! r = Some row → row !! c = Some 1 →
  board b !! r' = Some row' → row' !! c' = Some 1 →
  attacks (Z.of_nat r) (Z.of_nat c) (Z.of_nat r') (Z.of_nat c') →
  r = r' ∧ c = c'.
Proof.
  intros Hr Hc Hr' Hc' Ha.
  destruct (decide ((Z.of_nat r, Z.of_nat c) = (Z.of_nat r', Z.of_nat c')))
    as [[= ? ?]|Hne]; [lia|exfalso].
  by apply (Hpeace _ _ _ _ (queen_lookup r c row Hr Hc)
                          (queen_lookup r' c' row' Hr' Hc') Hne).
Qed.

Lemma peaceful_row_sums : Forall (λ x, x <= 1) (BoardMM.row_sums (board b)).
Proof.
  unfold BoardMM.row_sums. rewrite map_fmap. apply Forall_fmap, Forall_lookup.
  intros r row Hr. simpl. rewrite <- (omap_Some_id row). apply sum_omap_le1.
  - intros x v Hx [= <-]. apply list_elem_of_lookup in Hx as [c Hc].
    by eapply cell_binary.
  - intros i j x y Hi Hj [= ->] [= ->].
    destruct (peaceful_lookup r i r j row row Hr Hi Hr Hj); [by left|done].
Qed.

Lemma peaceful_col_sums : Forall (λ x, x <= 1) (BoardMM.col_sums (board b)).
Proof.
  unfold BoardMM.col_sums. rewrite map_fmap. apply Forall_fmap, Forall_forall.
  intros c _. simpl. apply sum_omap_le1.
  - intros row v Hrow Hv. apply list_elem_of_lookup in Hrow as [r Hr].
    by eapply cell_binary.
  - intros i j x y Hi Hj Hx Hy.
    destruct (peaceful_lookup i c j c x y Hi Hx Hj Hy); [right; by left|done].
Qed.

Lemma peaceful_diagonal k : sumZ (BoardMM.np_diagonal (board b) k) <= 1.
Proof.
  unfold BoardMM.np_diagonal. apply sum_omap_le1.
  - intros r v _ (row & Hr & _ & Hv)%diagonal_entry. by eapply cell_binary.
  - intros i j x y [-> _]%lookup_seq [-> _]%lookup_seq
      (row & Hr & Hk & Hv)%diagonal_entry (row' & Hr' & Hk' & Hv')%diagonal_entry.
    simpl. destruct (peaceful_lookup _ _ _ _ row row' Hr Hv Hr' Hv'); [|done].
    right; right. rewrite !Z2Nat.id by lia. lia.
Qed.

Lemma peaceful_antidiagonal k :
  sumZ (BoardMM.np_diagonal (BoardMM.np_fliplr (board b)) k) <= 1.
Proof.
  unfold BoardMM.np_diagonal. apply sum_omap_le1.
  - intros r v _ (row' & (row & Hr & ->)%fliplr_lookup & _ & [Hv _]%rev_lookup_Some)%diagonal_entry.
    by eapply cell_binary.
  - intros i j x y [-> _]%lookup_seq [-> _]%lookup_seq
      (row1' & (row1 & Hr1 & ->)%fliplr_lookup & Hk1 & [Hv1 Hl1]%rev_lookup_Some)%diagonal_entry
      (row2' & (row2 & Hr2 & ->)%fliplr_lookup & Hk2 & [Hv2 Hl2]%rev_lookup_Some)%diagonal_entry.
    simpl. destruct (peaceful_lookup _ _ _ _ row1 row2 Hr1 Hv1 Hr2 Hv2); [|done].
    rewrite (wf_grid_row _ _ _ _ (proj2 Hwf) Hr1) in *.
    rewrite (wf_grid_row _ _ _ _ (proj2 Hwf) Hr2) in *.
    right; right. lia.
Qed.

Lemma peaceful_evaluate_zero : BoardMM.evaluate b = 0.
Proof.
  rewrite evaluate_MM_unfold.
  rewrite (proj2 (count_gt1_zero _) peaceful_row_sums).
  rewrite (proj2 (count_gt1_zero _) peaceful_col_sums).
  rewrite (proj2 (count_gt1_zero _)); [done|].
  apply Forall_flat_map, Forall_forall. intros i _.
  repeat constructor; [apply peaceful_diagonal|apply peaceful_antidiagonal].
Qed.

End Peaceful.
End Conflict.

Section ConflictConverse.
Variable b : Board.
Hypothesis Hwf : wf_board b.
Hypothesis Hbin : binary_grid (board b).

Lemma ncols_size row0 (r0 : nat) :
  board b !! r0 = Some row0 → BoardMM.ncols (board b) = Z.to_nat (size b).
Proof.
  intros Hr0. destruct (board b) as [|row g] eqn:Eg; [done|]. simpl.
  eapply (wf_grid_row _ (board b) O); [apply Hwf|]. by rewrite Eg.
Qed.

Lemma evaluate_zero_peaceful : BoardMM.evaluate b = 0 → peaceful b.
Proof.
  rewrite evaluate_MM_unfold. intros Hz.
  pose proof (count_gt1_nonneg (BoardMM.row_sums (board b))) as H1.
  pose proof (count_gt1_nonneg (BoardMM.col_sums (board b))) as H2.
  match type of Hz with _ + BoardMM.count_gt1 ?l = 0 =>
    pose proof (count_gt1_nonneg l) as H3;
    assert (Forall (λ x, x <= 1) l) as Hdiag by (apply count_gt1_zero; lia)
  end.
  assert (Forall (λ x, x <= 1) (BoardMM.row_sums (board b))) as Hrows
    by (apply count_gt1_zero; lia).
  assert (Forall (λ x, x <= 1) (BoardMM.col_sums (board b))) as Hcols
    by (apply count_gt1_zero; lia).
  clear Hz H1 H2 H3.
  rewrite Forall_flat_map, Forall_forall in Hdiag.
  intros r c r' c' Hq Hq' Hne Ha.
  pose proof Hq as [[Hr Hc] _]. pose proof Hq' as [[Hr' Hc'] _].
  destruct (queen_at_lookup b Hwf r c Hq) as (row & Hrow & Hv & Hlen).
  destruct (queen_at_lookup b Hwf r' c' Hq') as (row' & Hrow' & Hv' & Hlen').
  assert (∀ (i j : nat) rw v, board b !! i = Some rw → rw !! j = Some v → 0 <= v)
    as Hnonneg.
  { intros i j rw v Hi Hj. destruct (cell_binary b Hbin i j rw v Hi Hj); lia. }
  destruct (decide (r' = r)) as [->|Hrne].
  { (* the same row *)
    rewrite Hrow in Hrow'. injection Hrow' as <-.
    assert (2 <= sumZ row) as Hsum.
    { rewrite <- (omap_Some_id row).
      apply (sum_omap_ge2 Some row (Z.to_nat c) (Z.to_nat c') 1 1); [|done|done| |done|done].
      - intros x v Hx [= <-]. apply list_elem_of_lookup in Hx as [j Hj]. eauto.
      - intros E. apply Hne. f_equal. lia. }
    unfold BoardMM.row_sums in Hrows. rewrite map_fmap in Hrows.
    pose proof (Forall_lookup_1 _ _ (Z.to_nat r) (sumZ row) Hrows) as Hle.
    rewrite list_lookup_fmap, Hrow in Hle. specialize (Hle eq_refl).
    simpl in Hle. lia. }
  destruct (decide (c' = c)) as [->|Hcne].
  { (* the same column *)
    assert (2 <= sumZ (omap (λ rw : list Z, rw !! Z.to_nat c) (board b))) as Hsum.
    { apply (sum_omap_ge2 _ (board b) (Z.to_nat r) (Z.to_nat r') row row');
        [|done|done|lia|done|done].
      intros rw v Hx Hxv. apply list_elem_of_lookup in Hx as [i Hi]. eauto. }
    unfold BoardMM.col_sums in Hcols. rewrite map_fmap, Forall_forall in Hcols.
    specialize (Hcols (sumZ (omap (λ rw : list Z, rw !! Z.to_nat c) (board b)))).
    assert (sumZ (omap (λ rw : list Z, rw !! Z.to_nat c) (board b)) <= 1); [|lia].
    apply Hcols, list_elem_of_fmap. exists (Z.to_nat c). split; [done|].
    apply elem_of_seq. rewrite (ncols_size row (Z.to_nat r) Hrow). lia. }
  (* a diagonal *)
  assert (r - r' = c - c' ∨ r - r' = - (c - c')) as [Hd|Hd]
    by (destruct Ha as [?|[?|?]]; lia).
  - specialize (Hdiag (c - r + size b - 1)).
    rewrite elem_of_range in Hdiag.
    specialize (Hdiag ltac:(lia)). apply Forall_cons in Hdiag as [Hle _].
    replace (c - r + size b - 1 - size b + 1) with (c - r) in Hle by lia.
    assert (2 <= sumZ (BoardMM.np_diagonal (board b) (c - r))); [|lia].
    unfold BoardMM.np_diagonal.
    assert (length (board b) = Z.to_nat (size b)) as Hlg by apply Hwf.
    apply (sum_omap_ge2 _ _ (Z.to_nat r) (Z.to_nat r') (Z.to_nat r) (Z.to_nat r')).
    + intros x v _ (rw & Hx & _ & Hxv)%diagonal_entry. eauto.
    + apply lookup_seq. lia.
    + apply lookup_seq. lia.
    + lia.
    + apply diagonal_entry. exists row. split; [done|].
      rewrite Z2Nat.id by lia. split; [lia|].
      by replace (r + (c - r)) with c by lia.
    + apply diagonal_entry. exists row'. split; [done|].
      rewrite Z2Nat.id by lia. split; [lia|].
      by replace (r' + (c - r)) with c' by lia.
  - specialize (Hdiag (size b - 1 - c - r + size b - 1)).
    rewrite elem_of_range in Hdiag.
    specialize (Hdiag ltac:(lia)).
    apply Forall_cons in Hdiag as [_ [Hle _]%Forall_cons].
    replace (size b - 1 - c - r + size b - 1 - size b + 1)
      with (size b - 1 - c - r) in Hle by lia.
    assert (2 <= sumZ (BoardMM.np_diagonal (BoardMM.np_fliplr (board b))
                         (size b - 1 - c - r))); [|lia].
    unfold BoardMM.np_diagonal.
    assert (length (BoardMM.np_fliplr (board b)) = Z.to_nat (size b)) as Hlg.
    { unfold BoardMM.np_fliplr. rewrite map_fmap, length_fmap. apply Hwf. }
    apply (sum_omap_ge2 _ _ (Z.to_nat r) (Z.to_nat r') (Z.to_nat r) (Z.to_nat r')).
    + intros x v _ (rw' & (rw & Hx & ->)%fliplr_lookup & _
                    & [Hxv _]%rev_lookup_Some)%diagonal_entry. eauto.
    + apply lookup_seq. lia.
    + apply lookup_seq. lia.
    + lia.
    + apply diagonal_entry. exists (rev row).
      split; [apply fliplr_lookup; eauto|].
      rewrite Z2Nat.id by lia. split; [lia|]. apply rev_lookup_Some.
      rewrite Hlen. split; [|lia].
      by replace (Z.to_nat (size b) - S (Z.to_nat (r + (size b - 1 - c - r))))%nat
        with (Z.to_nat c) by lia.
    + apply diagonal_entry. exists (rev row').
      split; [apply fliplr_lookup; eauto|].
      rewrite Z2Nat.id by lia. split; [lia|]. apply rev_lookup_Some.
      rewrite Hlen'. split; [|lia].
      by replace (Z.to_nat (size b) - S (Z.to_nat (r' + (size b - 1 - c - r))))%nat
        with (Z.to_nat c') by lia.
Qed.

End ConflictConverse.

(** ** The minimax engines on legal grids *)

Lemma child_legal b i j :
  legal_grid b → in_range b i j → free_and_safe b i j = true →
  legal_grid (child b i j).
Proof.
  intros Hlg Hin Hfs. pose proof Hlg as (Hwf & _).
  destruct (child_facts b i j Hwf Hin Hfs) as (g1 & Hg1 & Hc & _).
  apply free_and_safe_true in Hfs as [_ Hs].
  apply (add_queen_legal b (child b i j) i j Hlg Hin Hs); rewrite <- Hc; done.
Qed.

Lemma trivial_pick m a c : trivial_score a → trivial_score c → trivial_score (pick m a c).
Proof. unfold pick. by destruct (dir_lt m a c). Qed.

Lemma trivial_init m : trivial_score (init m).
Proof. destruct m; [by left|right; by right]. Qed.

(** Under the conflict-counting heuristic the unpruned search of a legal
    grid can only return 0 or an infinity. *)
Lemma minimax_conflict_trivial d :
  ∀ m b, legal_grid b → trivial_score (mm_value BoardMM.evaluate d m b).
Proof.
  induction d as [|d IH]; intros m b Hlg; pose proof Hlg as (Hwf & Hbin & Hpeace).
  { unfold mm_value. simpl. rewrite peaceful_evaluate_zero by done. right; by left. }
  unfold mm_value.
  rewrite (minimax_S_eq BoardMM.evaluate d (minimax_frame BoardMM.evaluate d)) by done.
  simpl. destruct (np_sum (board b) =? size b).
  { rewrite peaceful_evaluate_zero by done. right; by left. }
  assert (∀ i js acc, 0 <= i < size b → (∀ j, j ∈ js → 0 <= j < size b) →
            trivial_score acc →
            trivial_score (fold_left (cell_step BoardMM.evaluate d m b i) js acc))
    as Hrow.
  { intros i js. induction js as [|j js IHjs]; intros acc Hi Hjs Hacc; [done|].
    simpl. apply IHjs; [done|intros; apply Hjs; by right|].
    unfold cell_step. destruct (free_and_safe b i j) eqn:Hfs; [|done].
    apply trivial_pick; [done|]. apply IH, child_legal; [done| |done].
    split; [done|apply Hjs; left]. }
  assert (∀ rows acc, (∀ i, i ∈ rows → 0 <= i < size b) → trivial_score acc →
            trivial_score (fold_left (row_step BoardMM.evaluate d m b) rows acc))
    as Hrows.
  { intros rows. induction rows as [|i rows IHr]; intros acc Hr Hacc; [done|].
    simpl. apply IHr; [intros; apply Hr; by right|].
    unfold row_step. apply Hrow; [apply Hr; left|intros j; apply elem_of_range|done]. }
  apply Hrows; [intros i; apply elem_of_range|apply trivial_init].
Qed.

(** ** The choice of a move *)

Section BestMove.
Variable evaluate : Board → Z.

(** The pruned search with the full window is the unpruned search. *)
Lemma nq_full_eq d m b :
  wf_board b →
  NQueensAI.minimax evaluate d NegInf PosInf m b = MinimaxAI.minimax evaluate d m b.
Proof.
  intros Hwf. destruct (minimax_frame evaluate d m b Hwf) as [v Hv].
  destruct (nq_sound evaluate d NegInf PosInf m b Hwf) as (r & Hr & Hwin).
  rewrite Hr, Hv. specialize (Hwin eq_refl). apply window_ok_full in Hwin.
  unfold mm_value in Hwin. rewrite Hv in Hwin. simpl in Hwin. by subst.
Qed.

Lemma get_best_move_MM_unfold b :
  MinimaxAI.get_best_move evaluate b
  = moves ← MinimaxAI.valid_moves b;
    match moves with
    | [] => Some (None, b)
    | _ => st ← for_loop (mm_best_body evaluate) moves (b, NegInf, None);
           Some (st.2, st.1.1)
    end.
Proof. done. Qed.

Lemma get_best_move_NQ_unfold b :
  NQueensAI.get_best_move evaluate b
  = moves ← MinimaxAI.valid_moves b;
    match moves with
    | [] => Some (None, b)
    | _ => st ← for_loop (nq_best_body evaluate) moves (b, NegInf, None);
           Some (st.2, st.1.1)
    end.
Proof. done. Qed.

(** One candidate of [get_best_move]: the board comes back, the best score
    and move are replaced when the candidate scores strictly more. *)
Lemma mm_best_body_eq b p bs bm :
  wf_board b → p ∈ safe_cells b →
  ∃ s, mm_move_score evaluate b p = Some s
       ∧ mm_best_body evaluate p (b, bs, bm)
         = Some (Continue, if score_lt bs s then (b, s, Some p) else (b, bs, bm)).
Proof.
  intros Hwf [Hin Hfs]%elem_of_safe_cells.
  destruct (child_facts b p.1 p.2 Hwf Hin Hfs) as (g1 & Hg1 & Hc & Hwfc & Hundo & Hback).
  destruct (minimax_frame evaluate 3 false (child b p.1 p.2) Hwfc) as [v Hv].
  exists v. unfold mm_move_score, mm_best_body. rewrite Hg1.
  cbn -[MinimaxAI.minimax]. rewrite Hc, Hv. cbn -[MinimaxAI.minimax].
  split; [done|]. rewrite Hundo. cbn. rewrite Hback. by destruct (score_lt bs v).
Qed.

Lemma nq_best_body_eq b p st :
  wf_board b → p ∈ safe_cells b → st.1.1 = b →
  nq_best_body evaluate p st = mm_best_body evaluate p st.
Proof.
  intros Hwf [Hin Hfs]%elem_of_safe_cells Hb. destruct st as [[b' bs] bm].
  simpl in Hb. subst b'.
  destruct (child_facts b p.1 p.2 Hwf Hin Hfs) as (g1 & Hg1 & Hc & Hwfc & _).
  unfold nq_best_body, mm_best_body. rewrite Hg1.
  cbn -[MinimaxAI.minimax NQueensAI.minimax]. rewrite Hc.
  by rewrite nq_full_eq.
Qed.

Lemma best_loops_eq b l st :
  wf_board b → (∀ p, p ∈ l → p ∈ safe_cells b) → st.1.1 = b →
  for_loop (nq_best_body evaluate) l st = for_loop (mm_best_body evaluate) l st.
Proof.
  intros Hwf. revert st. induction l as [|p l IH]; intros st Hl Hb; [done|].
  cbn [for_loop]. rewrite (nq_best_body_eq b) by (done || apply Hl; left).
  destruct st as [[b' bs] bm]. simpl in Hb. subst b'.
  destruct (mm_best_body_eq b p bs bm Hwf) as (s & _ & ->); [apply Hl; left|].
  apply IH; [intros; apply Hl; by right|]. by destruct (score_lt bs s).
Qed.

End BestMove.

Lemma score_lt_neginf_false s : score_lt NegInf s = false → s = NegInf.
Proof. by destruct s. Qed.

(** What [get_best_move] of [minimax/minimax.py] returns: nothing exactly
    when every candidate scores minus infinity; otherwise the first safe
    cell of maximal score. *)
Lemma get_best_move_MM_spec evaluate b :
  wf_board b →
  ∃ mv, MinimaxAI.get_best_move evaluate b = Some (mv, b)
    ∧ (mv = None ↔ ∀ p, p ∈ safe_cells b → mm_move_score evaluate b p = Some NegInf)
    ∧ (∀ q, mv = Some q →
         q ∈ safe_cells b
         ∧ ∃ s, mm_move_score evaluate b q = Some s ∧ s ≠ NegInf
             ∧ ∀ p, p ∈ safe_cells b →
                 ∃ s', mm_move_score evaluate b p = Some s'
                       ∧ score_lt s s' = false
                       ∧ (row_major_lt p q → score_lt s' s = true)).
Proof.
  intros Hwf. rewrite get_best_move_MM_unfold, valid_moves_eq by done. simpl.
  destruct (safe_cells b) as [|p0 l0] eqn:Ecells.
  { exists None. split_and!; [done| |done].
    split; [|done]. intros _ p Hp. by apply elem_of_nil in Hp. }
  rewrite <- Ecells. clear Ecells p0 l0.
  assert (∃ s', for_loop (mm_best_body evaluate) (safe_cells b) (b, NegInf, None)
                = Some s'
            ∧ (s'.1.1 = b
               ∧ ((s'.2 = None
                   ∧ ∀ p, p ∈ safe_cells b → mm_move_score evaluate b p = Some NegInf)
                  ∨ ∃ q, s'.2 = Some q ∧ q ∈ safe_cells b
                      ∧ mm_move_score evaluate b q = Some s'.1.2 ∧ s'.1.2 ≠ NegInf
                      ∧ ∀ p, p ∈ safe_cells b →
                          ∃ s0, mm_move_score evaluate b p = Some s0
                                ∧ score_lt s'.1.2 s0 = false
                                ∧ (row_major_lt p q → score_lt s0 s'.1.2 = true))))
    as (s' & -> & Hb & Hres).
  { apply (for_loop_rule _ (λ rem st,
      st.1.1 = b ∧ ∃ seen, seen ++ rem = safe_cells b
      ∧ ((st.2 = None ∧ st.1.2 = NegInf
          ∧ ∀ p, p ∈ seen → mm_move_score evaluate b p = Some NegInf)
         ∨ ∃ q, st.2 = Some q ∧ q ∈ seen
             ∧ mm_move_score evaluate b q = Some st.1.2 ∧ st.1.2 ≠ NegInf
             ∧ ∀ p, p ∈ seen →
                 ∃ s0, mm_move_score evaluate b p = Some s0
                       ∧ score_lt st.1.2 s0 = false
                       ∧ (row_major_lt p q → score_lt s0 st.1.2 = true)))).
    - intros [[b' bs] bm]. simpl. intros (-> & seen & Hseen & Hst).
      rewrite app_nil_r in Hseen. subst seen. split; [done|].
      destruct Hst as [(? & _ & ?)|Hst]; [by left|by right].
    - intros p rem [[b' bs] bm]. cbn [fst snd]. intros (-> & seen & Hseen & Hst).
      assert (p ∈ safe_cells b) as Hp.
      { rewrite <- Hseen. apply elem_of_app. right. left. }
      destruct (mm_best_body_eq evaluate b p bs bm Hwf Hp) as (s & Hs & ->).
      assert (∀ q, q ∈ seen → row_major_lt q p) as Hbefore.
      { intros q Hq. pose proof (safe_cells_sorted b) as Hsort.
        rewrite <- Hseen in Hsort.
        eapply StronglySorted_app_1_elem_of; [exact Hsort|done|left]. }
      eexists Continue, _. split; [done|]. cbv beta.
      assert (∀ (st : Board * score * option (Z * Z)),
                st = (if score_lt bs s then (b, s, Some p) else (b, bs, bm)) →
                st.1.1 = b) as Hfst by (intros st ->; by destruct (score_lt bs s)).
      split; [by apply Hfst|]. exists (seen ++ [p]).
      split; [by rewrite <- app_assoc|].
      destruct Hst as [(-> & -> & Hall)|(q & -> & Hq & Hsq & Hne & Hall)].
      + destruct (score_lt NegInf s) eqn:E; simpl.
        * right. exists p. split_and!; [done|apply elem_of_app; right; left|done| |].
          { intros ->. done. }
          intros p' [Hp'| ->%list_elem_of_singleton]%elem_of_app.
          -- exists NegInf. split_and!; [by apply Hall|by destruct s|done].
          -- exists s. split_and!; [done|score_lia|].
             intros Hlt. by apply row_major_lt_asym in Hlt.
        * left. split_and!; [done..|]. apply score_lt_neginf_false in E as ->.
          intros p' [Hp'| ->%list_elem_of_singleton]%elem_of_app; [by apply Hall|done].
      + destruct (score_lt bs s) eqn:E; simpl.
        * right. exists p. split_and!; [done|apply elem_of_app; right; left|done| |].
          { intros ->. by destruct bs. }
          intros p' [Hp'| ->%list_elem_of_singleton]%elem_of_app.
          -- destruct (Hall p' Hp') as (s0 & Hs0 & Hle & _). exists s0.
             split_and!; [done|score_lia|]. intros _. score_lia.
          -- exists s. split_and!; [done|score_lia|].
             intros Hlt. by apply row_major_lt_asym in Hlt.
        * right. exists q. split_and!; [done|apply elem_of_app; by left|done..|].
          intros p' [Hp'| ->%list_elem_of_singleton]%elem_of_app; [by apply Hall|].
          exists s. split_and!; [done..|].
          intros Hlt. exfalso. eapply row_major_lt_asym; [exact Hlt|by apply Hbefore].
    - simpl. split; [done|]. exists []. split; [done|]. left. split_and!; [done..|].
      intros p Hp. by apply elem_of_nil in Hp. }
  destruct s' as [[b' bs] mv]. simpl in *. subst b'. exists mv. split; [done|].
  destruct Hres as [[-> Hall]|(q & -> & Hq & Hsq & Hne & Hall)].
  - split_and!; [done|done].
  - split.
    + split; [done|]. intros Hneg. specialize (Hneg q Hq). congruence.
    + intros q' [= <-]. split; [done|]. exists bs. done.
Qed.

(** The two minimax engines choose the same move. *)
Lemma get_best_move_NQ_MM evaluate b :
  wf_board b →
  NQueensAI.get_best_move evaluate b = MinimaxAI.get_best_move evaluate b.
Proof.
  intros Hwf. rewrite get_best_move_NQ_unfold, get_best_move_MM_unfold.
  rewrite valid_moves_eq by done. simpl.
  destruct (safe_cells b) as [|p0 l0] eqn:Ecells; [done|]. rewrite <- Ecells.
  by rewrite (best_loops_eq evaluate b).
Qed.

(** ** The cuts of the alpha-beta engine are sound *)

Lemma alpha_beta_search_S d alpha beta m b :
  AlphaBetaAI.alpha_beta_search (S d) alpha beta m b
  = if BoardAB.is_game_over b then ev ← BoardAB.evaluate b; Some (Fin ev, b)
    else
      sp ← BoardAB.get_safe_positions b;
      match sp with
      | [] => ev ← BoardAB.evaluate b; Some (Fin ev, b)
      | _ =>
        st ← for_loop (ab_cell d m (if m then beta else alpha)) sp
               (b, init m, if m then alpha else beta);
        Some (st.1.2, st.1.1)
      end.
Proof. destruct m; reflexivity. Qed.

Lemma leaf_score_eq b ev : BoardAB.evaluate b = Some ev → leaf_score b = Fin ev.
Proof. unfold leaf_score. by intros ->. Qed.

Section DepthAB.
Variable d : nat.
Hypothesis ab_sound_d :
  ∀ alpha beta m b, wf_board b →
    ∃ r, AlphaBetaAI.alpha_beta_search d alpha beta m b = Some (r, b)
         ∧ (score_lt alpha beta = true → window_ok alpha beta r (ab_value d m b)).

Lemma ab_cell_step m other b p best own :
  wf_board b → p ∈ safe_cells b →
  ∃ rc,
    ab_cell d m other p (b, best, own)
    = Some (if negb (dir_lt m (pick m own rc) other) then Break else Continue,
            (b, pick m best rc, pick m own rc))
    ∧ (dir_lt m own other = true →
       window_ok (if m then own else other) (if m then other else own) rc
                 (ab_value d (negb m) (moved b p))).
Proof.
  intros Hwf Hp. unfold ab_cell, moved.
  destruct (make_undo_move b p Hwf Hp) as (b1 & -> & Hwf1 & Hundo). simpl.
  destruct (ab_sound_d (if m then own else other) (if m then other else own)
              (negb m) b1 Hwf1) as (rc & -> & Hrc).
  simpl. rewrite Hundo. simpl. exists rc. split; [done|].
  intros Hproper. apply Hrc. by rewrite dir_lt_window.
Qed.

Lemma phase_cut_fold_ab m own0 other b l u r :
  dir_lt m (pick m own0 r) other = false →
  phase m own0 other u r →
  phase m own0 other
    (fold_left (λ acc p, pick m acc (ab_value d (negb m) (moved b p))) l u) r.
Proof.
  intros Hcut. revert u. induction l as [|p l IH]; intros u Hph; [done|].
  simpl. apply IH. by apply phase_cut.
Qed.

Lemma ab_loop m own0 other b :
  wf_board b →
  ∃ st, for_loop (ab_cell d m other) (safe_cells b) (b, init m, own0) = Some st
        ∧ st.1.1 = b
        ∧ (dir_lt m own0 other = true →
           phase m own0 other
             (fold_left (λ acc p, pick m acc (ab_value d (negb m) (moved b p)))
                        (safe_cells b) (init m))
             st.1.2).
Proof.
  intros Hwf.
  set (goal := fold_left (λ acc p, pick m acc (ab_value d (negb m) (moved b p)))
                         (safe_cells b) (init m)).
  apply (for_loop_rule _ (λ rem st,
    (∀ p, p ∈ rem → p ∈ safe_cells b)
    ∧ nq_inv m own0 other b goal
        (fold_left (λ acc p, pick m acc (ab_value d (negb m) (moved b p))) rem) st)).
  - intros [[b' best] own] (_ & Hb & _ & Hph). simpl in *. split; [done|].
    intros Hproper. by destruct (Hph Hproper) as (u & <- & ?).
  - intros p rem [[b' best] own] (Hrem & Hb & Hown & Hph). simpl in Hb, Hown. subst b'.
    destruct (ab_cell_step m other b p best own Hwf) as (rc & -> & Hrc);
      [apply Hrem; left|].
    eexists _, _. split; [done|].
    assert (pick m own rc = pick m own0 (pick m best rc)) as Hown'.
    { rewrite Hown. apply pick_assoc. }
    assert (∀ u, phase m own0 other u best → dir_lt m own0 other = true →
              phase m own0 other
                (pick m u (ab_value d (negb m) (moved b p))) (pick m best rc))
      as Hstep.
    { intros u Hphase Hproper. apply phase_step; [done|]. rewrite <- Hown. exact Hrc. }
    destruct (negb (dir_lt m (pick m own rc) other)) eqn:Ecut.
    + simpl. split; [done|]. intros Hproper.
      destruct (Hph Hproper) as (u & Hu & Hphase). simpl in Hu. rewrite <- Hu.
      apply phase_cut_fold_ab; [|by apply Hstep].
      rewrite <- Hown'. by apply negb_true_iff.
    + split; [intros; apply Hrem; by right|].
      split_and!; [done..|]. intros Hproper.
      destruct (Hph Hproper) as (u & Hu & Hphase).
      eexists. split; [exact Hu|]. by apply Hstep.
  - split; [done|]. split_and!; simpl; [done|by rewrite pick_init|].
    intros Hproper. exists (init m). split; [done|]. by apply phase_init.
Qed.

Lemma ab_sound_S alpha beta m b :
  wf_board b →
  ∃ r, AlphaBetaAI.alpha_beta_search (S d) alpha beta m b = Some (r, b)
       ∧ (score_lt alpha beta = true →
          window_ok alpha beta r (ab_value (S d) m b)).
Proof.
  intros Hwf. rewrite alpha_beta_search_S. simpl ab_value.
  destruct (evaluate_AB_total b Hwf) as [ev Hev].
  destruct (BoardAB.is_game_over b).
  { rewrite Hev, (leaf_score_eq b ev Hev). simpl. eexists. split; [done|].
    intros _. apply window_ok_refl. }
  rewrite get_safe_positions_eq by done. simpl.
  destruct (safe_cells b) as [|p0 l0] eqn:Ecells.
  { rewrite Hev, (leaf_score_eq b ev Hev). simpl. eexists. split; [done|].
    intros _. apply window_ok_refl. }
  rewrite <- Ecells.
  destruct (ab_loop m (if m then alpha else beta) (if m then beta else alpha) b Hwf)
    as ([[b' best] own] & -> & Hb & Hph).
  simpl in Hb. subst b'. simpl. eexists. split; [done|]. intros Hproper.
  assert (dir_lt m (if m then alpha else beta) (if m then beta else alpha) = true)
    as Hproper' by (by destruct m).
  specialize (Hph Hproper'). rewrite Ecells in Hph. simpl in Hph.
  apply (phase_window _ _ _ _ _ Hproper') in Hph. by destruct m.
Qed.

End DepthAB.

(** With a proper window the result of the alpha-beta search stands to the
    value of exhaustive minimax as the window says. *)
Lemma ab_sound d :
  ∀ alpha beta m b, wf_board b →
    ∃ r, AlphaBetaAI.alpha_beta_search d alpha beta m b = Some (r, b)
         ∧ (score_lt alpha beta = true → window_ok alpha beta r (ab_value d m b)).
Proof.
  induction d as [|d IH]; intros alpha beta m b Hwf.
  - simpl. destruct (evaluate_AB_total b Hwf) as [ev Hev].
    rewrite Hev, (leaf_score_eq b ev Hev). simpl. eexists. split; [done|].
    intros _. apply window_ok_refl.
  - by apply ab_sound_S.
Qed.

(** ** The end of the game *)

Lemma row_has_queen (l : list Z) :
  (length (filter (λ y : Z, y = 1%Z) l) <= 1)%nat →
  length (filter (λ y : Z, y = 1%Z) l) = 1%nat ↔ ∃ c, l !! c = Some 1.
Proof.
  intros Hle. split.
  - destruct (filter (λ y : Z, y = 1%Z) l) as [|x t] eqn:E; [done|]. intros _.
    assert (x ∈ filter (λ y : Z, y = 1%Z) l) as Hx by (rewrite E; left).
    apply list_elem_of_filter in Hx as [-> Hx].
    by apply list_elem_of_lookup in Hx.
  - intros [c Hc].
    assert (1 ∈ filter (λ y : Z, y = 1%Z) l) as Hx.
    { apply list_elem_of_filter. split; [done|]. apply list_elem_of_lookup. eauto. }
    destruct (filter (λ y : Z, y = 1%Z) l) as [|x t]; [by apply elem_of_nil in Hx|].
    simpl in *. lia.
Qed.

(** On a legal board the game is over exactly when every row holds a queen. *)
Lemma game_over_rows b :
  legal b →
  BoardAB.is_game_over b = true
  ↔ ∀ r, 0 <= r < size b → ∃ c, queen_at b r c.
Proof.
  intros [Hlg Hc]. pose proof Hlg as (Hwf & Hbin & _).
  pose proof (peaceful_rows b Hlg) as Hrows.
  pose proof (count_rows_full _ Hrows) as Hfull.
  pose proof Hwf as [Hn [Hlen _]].
  unfold BoardAB.is_game_over. rewrite Z.eqb_eq.
  unfold counter_ok, occupied_cells in Hc.
  rewrite Forall_lookup in Hfull. rewrite Forall_lookup in Hrows. split.
  - intros Hq r Hr.
    assert (length (filter (λ y : Z, y = 1%Z) (concat (board b))) = length (board b))
      as Hcount by lia.
    destruct (lookup_lt_is_Some_2 (board b) (Z.to_nat r)) as [row Hrow]; [lia|].
    destruct (proj1 (row_has_queen row (Hrows _ _ Hrow))) as [c Hcq].
    { exact (proj1 Hfull Hcount _ _ Hrow). }
    exists (Z.of_nat c).
    destruct (getitem_nat _ _ _ _ _ _ (proj2 Hwf) Hrow Hcq) as (? & ? & Hg).
    rewrite Z2Nat.id in Hg by lia. split; [split; lia|done].
  - intros Hall.
    assert (length (filter (λ y : Z, y = 1%Z) (concat (board b))) = length (board b));
      [|lia].
    apply Hfull. intros r row Hrow. apply row_has_queen; [by eapply Hrows|].
    pose proof (lookup_lt_Some _ _ _ Hrow).
    destruct (Hall (Z.of_nat r)) as [c Hq]; [lia|].
    destruct (queen_at_lookup b Hwf _ _ Hq) as (row' & Hrow' & Hv & _).
    rewrite Nat2Z.id in Hrow'. exists (Z.to_nat c). congruence.
Qed.

Lemma game_over_tests_agree b :
  binary_grid (board b) → counter_ok b →
  BoardAB.is_game_over b = BoardMM.is_game_over b.
Proof.
  intros Hbin Hc. unfold BoardAB.is_game_over, BoardMM.is_game_over.
  rewrite np_sum_occupied by done. unfold counter_ok in Hc.
  destruct (queens_left b =? 0) eqn:E1; symmetry.
  - apply Z.eqb_eq in E1. apply Z.eqb_eq. lia.
  - apply Z.eqb_neq in E1. apply Z.eqb_neq. lia.
Qed.

(** Beyond numpy's wrap-around [is_safe] and [place_queen] raise. *)
Lemma out_of_range_raises b row col :
  wf_board b →
  (row < - size b ∨ size b <= row) ∨ (col < - size b ∨ size b <= col) →
  is_safe b row col = None ∧ place_queen row col b = None.
Proof.
  intros [Hn Hwf] Hout.
  assert (is_safe b row col = None) as Hs.
  { unfold is_safe. by rewrite (getitem_out _ _ row col Hwf Hn Hout). }
  split; [done|]. unfold place_queen. by rewrite Hs.
Qed.

(** After a queen is placed every cell it attacks is refused. *)
Lemma attacked_cells_refused b r c b' i j :
  wf_board b → in_range b r c → place_queen r c b = Some (true, b') →
  in_range b i j → attacks i j r c →
  place_queen i j b' = Some (false, b').
Proof.
  intros Hwf Hin Hp Hin' Ha.
  destruct (is_safe_total b r c Hwf Hin) as [[|] Hs];
    destruct (place_queen_spec b r c Hwf Hin) as [Hyes Hno].
  2:{ rewrite (Hno Hs) in Hp. done. }
  destruct (Hyes Hs) as (g & Hg & Hp'). rewrite Hp' in Hp. injection Hp as <-.
  set (b' := {| size := size b; board := g; queens_left := queens_left b - 1 |}).
  assert (wf_board b') as Hwf'.
  { split; [apply Hwf|]. simpl. eapply setitem_wf; [apply Hwf|done]. }
  destruct (place_queen_spec b' i j Hwf' Hin') as [_ Hno'].
  apply Hno'. destruct (is_safe_spec b' i j Hwf' Hin') as ([|] & Hs' & Hiff); [|done].
  assert (true = false) as Habs; [|done]. apply Hiff. right. exists r, c.
  split; [|done]. split; [done|]. simpl. by eapply setitem_getitem.
Qed.

(** * The properties of the specification *)

(** Well-formedness of a board given by its grid. *)
Ltac wf_now :=
  split; [simpl; lia | split; [reflexivity | repeat constructor]].

(** C1. For every well-formed board, every depth and either player, the
    search with pruning of [nqueens/minimax.py], called with the full
    window, and the search without pruning of [minimax/minimax.py], run with
    the same heuristic, return the same score (and both hand back the board
    they were given): pruning changes the cells visited, not the value. *)
Theorem pruned_minimax_equals_unpruned
    (evaluate : Board → Z) (b : Board) (d : nat) (m : bool) :
  wf_board b →
  ∃ v, MinimaxAI.minimax evaluate d m b = Some (v, b)
       ∧ NQueensAI.minimax evaluate d NegInf PosInf m b = Some (v, b).
Proof.
  intros Hwf. destruct (minimax_frame evaluate d m b Hwf) as [v Hv].
  destruct (nq_sound evaluate d NegInf PosInf m b Hwf) as (r & Hr & Hwin).
  exists v. split; [done|]. rewrite Hr.
  specialize (Hwin eq_refl). apply window_ok_full in Hwin.
  unfold mm_value in Hwin. rewrite Hv in Hwin. simpl in Hwin. by subst.
Qed.

(** The equality at depth 2 on the fresh 4 by 4 board, with the conflict-counting
    heuristic. *)
Lemma pruned_minimax_equals_unpruned_witness :
  wf_board fresh4
  ∧ ∃ v, MinimaxAI.minimax BoardMM.evaluate 2 true fresh4 = Some (v, fresh4)
         ∧ NQueensAI.minimax BoardMM.evaluate 2 NegInf PosInf true fresh4
           = Some (v, fresh4).
Proof.
  split; [wf_now|].
  apply (pruned_minimax_equals_unpruned BoardMM.evaluate fresh4 2 true). wf_now.
Defined.

(** C2. For every well-formed board, every depth, every window and either
    player, each of the three recursive searches returns, and the board
    after the call (the grid and the counter [queens_left]) is the board
    before the call: every move made inside the search has been undone,
    also when a cut ends a loop early. *)
Theorem search_restores_board
    (evaluate : Board → Z) (b : Board) (d : nat) (alpha beta : score) (m : bool) :
  wf_board b →
  (∃ s, AlphaBetaAI.alpha_beta_search d alpha beta m b = Some (s, b))
  ∧ (∃ s, MinimaxAI.minimax evaluate d m b = Some (s, b))
  ∧ (∃ s, NQueensAI.minimax evaluate d alpha beta m b = Some (s, b)).
Proof.
  intros Hwf. split_and!.
  - destruct (alpha_beta_search_frame d alpha beta m b Hwf) as [z Hz]. eauto.
  - apply minimax_frame, Hwf.
  - destruct (nq_sound evaluate d alpha beta m b Hwf) as (r & Hr & _). eauto.
Qed.

(** The three searches on the 4 by 4 board after a first queen on the corner. *)
Lemma search_restores_board_witness :
  wf_board corner4
  ∧ (∃ s, AlphaBetaAI.alpha_beta_search 3 (Fin 0) (Fin 5) false corner4
          = Some (s, corner4))
  ∧ (∃ s, MinimaxAI.minimax BoardMM.evaluate 3 false corner4 = Some (s, corner4))
  ∧ (∃ s, NQueensAI.minimax BoardMM.evaluate 3 (Fin 0) (Fin 5) false corner4
          = Some (s, corner4)).
Proof.
  split; [wf_now|].
  apply (search_restores_board BoardMM.evaluate corner4 3 (Fin 0) (Fin 5) false).
  wf_now.
Defined.

(** C3, at a board where the code departs from it.  On the 2 by 2 board
    with a queen in the corner no cell is safe and one queen is still to be
    placed.  At every positive depth and with every heuristic the two
    minimax engines return there the infinity their branch starts from
    instead of the evaluation of the board; the alpha-beta engine returns
    the evaluation, -1000. *)
Theorem minimax_dead_end_returns_sentinel
    (evaluate : Board → Z) (d : nat) (alpha beta : score) :
  place_queen 0 0 fresh2 = Some (true, corner2)
  ∧ BoardAB.get_safe_positions corner2 = Some []
  ∧ BoardMM.is_game_over corner2 = false
  ∧ MinimaxAI.minimax evaluate (S d) true corner2 = Some (NegInf, corner2)
  ∧ MinimaxAI.minimax evaluate (S d) false corner2 = Some (PosInf, corner2)
  ∧ NQueensAI.minimax evaluate (S d) alpha beta true corner2 = Some (NegInf, corner2)
  ∧ NQueensAI.minimax evaluate (S d) alpha beta false corner2 = Some (PosInf, corner2)
  ∧ BoardAB.evaluate corner2 = Some (-1000)
  ∧ AlphaBetaAI.alpha_beta_search (S d) alpha beta true corner2
    = Some (Fin (-1000), corner2).
Proof. split_and!; reflexivity. Qed.

(** C4 as stated fails: the move of the minimax engines writes the cell and
    leaves the counter alone.  In the middle of the first move of a search
    of the fresh 2 by 2 board the counter is 2 while one cell is occupied;
    and the search of that board, run with a heuristic that tells whether
    the counter agrees with the grid, reports a board where it does not. *)
Lemma counter_drifts_inside_minimax :
  Board_init 2 = Some fresh2
  ∧ reachable true moving2
  ∧ queens_left moving2 = 2
  ∧ size moving2 - occupied_cells (board moving2) = 1
  ∧ ¬ counter_ok moving2
  ∧ MinimaxAI.minimax counter_probe 1 true fresh2 = Some (Fin 1, fresh2).
Proof.
  split_and!; [reflexivity| |reflexivity|reflexivity| |reflexivity].
  - apply (reach_grid_make true fresh2 0 0 [[1; 0]; [0; 0]]); [done| |done..].
    by apply (reach_init true 2).
  - unfold counter_ok. vm_compute. discriminate.
Qed.

(** C4, amended.  In every state reached from a constructed or reset board
    through [place_queen], [reset], completed calls of the engines, and the
    moves made and undone inside the alpha-beta search, the board is well
    formed and [queens_left] is the size minus the number of occupied
    cells. *)
Theorem counter_agrees_on_reachable (b : Board) :
  reachable false b → wf_board b ∧ counter_ok b.
Proof. apply reachable_ok. Qed.

(** The 4 by 4 board after [place_queen(0, 0)]. *)
Lemma counter_agrees_on_reachable_witness :
  reachable false corner4 ∧ wf_board corner4 ∧ counter_ok corner4.
Proof.
  assert (reachable false corner4) as Hr.
  { apply (reach_place false fresh4 0 0 true); [|reflexivity].
    by apply (reach_init false 4). }
  split; [exact Hr|]. exact (counter_agrees_on_reachable corner4 Hr).
Defined.

(** C5, at a board where the code departs from it.  On the 4 by 4 board
    after a first queen on the corner six cells are safe, and
    [get_best_move] of [minimax/minimax.py] returns [None] all the same,
    with every heuristic: each candidate scores minus infinity, which is
    not greater than the initial best score.  So does the engine of
    [nqueens/minimax.py].  The alpha-beta engine returns a safe cell on the
    same board. *)
Theorem minimax_best_move_none_with_safe_cells (evaluate : Board → Z) :
  place_queen 0 0 fresh4 = Some (true, corner4)
  ∧ MinimaxAI.valid_moves corner4
    = Some [(1, 2); (1, 3); (2, 1); (2, 3); (3, 1); (3, 2)]
  ∧ MinimaxAI.get_best_move evaluate corner4 = Some (None, corner4)
  ∧ NQueensAI.get_best_move evaluate corner4 = Some (None, corner4)
  ∧ AlphaBetaAI.get_best_move 4 corner4 = Some (Some (1, 2), corner4).
Proof. split_and!; vm_compute; reflexivity. Qed.

(** C6. On every well-formed board [get_safe_positions] returns exactly the
    cells of the board that are empty and safe, strictly ascending in
    row-major order; and when there is such a cell, [get_best_move] of the
    alpha-beta engine returns one of them whose score is maximal and
    strictly greater than the score of every candidate before it in
    row-major order. *)
Theorem safe_positions_and_first_best_move (b : Board) (max_depth : nat) :
  wf_board b →
  ∃ sp, BoardAB.get_safe_positions b = Some sp
    ∧ (∀ p, p ∈ sp ↔ in_range b p.1 p.2
                      ∧ getitem (board b) p.1 p.2 = Some 0
                      ∧ is_safe b p.1 p.2 = Some true)
    ∧ StronglySorted row_major_lt sp
    ∧ (sp ≠ [] →
       ∃ mv z, AlphaBetaAI.get_best_move max_depth b = Some (Some mv, b)
         ∧ mv ∈ sp
         ∧ AlphaBetaAI.move_score max_depth b mv = Some (Fin z)
         ∧ ∀ p, p ∈ sp →
             ∃ z', AlphaBetaAI.move_score max_depth b p = Some (Fin z')
                   ∧ z' <= z ∧ (row_major_lt p mv → z' < z)).
Proof.
  intros Hwf. exists (safe_cells b). split_and!.
  - by apply get_safe_positions_eq.
  - intros p. rewrite elem_of_safe_cells, free_and_safe_true. done.
  - apply safe_cells_sorted.
  - apply get_best_move_AB_spec, Hwf.
Qed.

(** The 4 by 4 board after a first queen on the corner, searched at depth 2. *)
Lemma safe_positions_and_first_best_move_witness :
  wf_board corner4
  ∧ ∃ sp, BoardAB.get_safe_positions corner4 = Some sp
    ∧ (∀ p, p ∈ sp ↔ in_range corner4 p.1 p.2
                      ∧ getitem (board corner4) p.1 p.2 = Some 0
                      ∧ is_safe corner4 p.1 p.2 = Some true)
    ∧ StronglySorted row_major_lt sp
    ∧ (sp ≠ [] →
       ∃ mv z, AlphaBetaAI.get_best_move 2 corner4 = Some (Some mv, corner4)
         ∧ mv ∈ sp
         ∧ AlphaBetaAI.move_score 2 corner4 mv = Some (Fin z)
         ∧ ∀ p, p ∈ sp →
             ∃ z', AlphaBetaAI.move_score 2 corner4 p = Some (Fin z')
                   ∧ z' <= z ∧ (row_major_lt p mv → z' < z)).
Proof.
  split; [wf_now|]. apply (safe_positions_and_first_best_move corner4 2). wf_now.
Defined.

(** C7. On every well-formed board and for every cell of the board,
    [is_safe] returns, and it returns false exactly when the cell is
    occupied or some queen of the board shares its row, its column or a
    diagonal with it; otherwise it returns true. *)
Theorem is_safe_false_iff_occupied_or_attacked (b : Board) (row col : Z) :
  wf_board b → in_range b row col →
  ∃ s, is_safe b row col = Some s
       ∧ (s = false ↔
            getitem (board b) row col = Some 1
            ∨ ∃ r' c', queen_at b r' c' ∧ attacks row col r' c').
Proof. apply is_safe_spec. Qed.

(** The cell [(2, 1)] of the 4 by 4 board with a queen on the corner. *)
Lemma is_safe_false_iff_occupied_or_attacked_witness :
  wf_board corner4 ∧ in_range corner4 2 1
  ∧ ∃ s, is_safe corner4 2 1 = Some s
         ∧ (s = false ↔
              getitem (board corner4) 2 1 = Some 1
              ∨ ∃ r' c', queen_at corner4 r' c' ∧ attacks 2 1 r' c').
Proof.
  assert (in_range corner4 2 1) as Hin by (unfold in_range; simpl; lia).
  split; [wf_now|]. split; [exact Hin|].
  apply (is_safe_false_iff_occupied_or_attacked corner4 2 1); [wf_now|exact Hin].
Defined.

(** C8. On every well-formed board and for every cell of the board: if
    [is_safe] holds, [place_queen] returns true, the cell is occupied
    afterwards, the other cells, and the size, are as before, and the counter is one less;
    if [is_safe] does not hold, [place_queen] returns false and the board
    is unchanged. *)
Theorem place_queen_outcome (b : Board) (row col : Z) :
  wf_board b → in_range b row col →
  (is_safe b row col = Some true →
     ∃ b', place_queen row col b = Some (true, b')
       ∧ getitem (board b') row col = Some 1
       ∧ queens_left b' = queens_left b - 1
       ∧ size b' = size b
       ∧ ∀ r' c', in_range b r' c' → (r', c') ≠ (row, col) →
           getitem (board b') r' c' = getitem (board b) r' c')
  ∧ (is_safe b row col = Some false → place_queen row col b = Some (false, b)).
Proof.
  intros Hwf Hin. destruct (place_queen_spec b row col Hwf Hin) as [Hyes Hno].
  split; [|done]. intros Hs. destruct (Hyes Hs) as (g & Hg & ->).
  eexists. split; [done|]. simpl. split_and!; [|done|done|].
  - by eapply setitem_getitem.
  - intros r' c' [Hr' Hc'] Hne.
    exact (setitem_getitem_ne _ _ _ _ _ _ _ _ (proj2 Hwf) (proj1 Hin) (proj2 Hin)
             Hr' Hc' Hne Hg).
Qed.

(** A queen on [(2, 1)] of the 4 by 4 board with a queen on the corner. *)
Lemma place_queen_outcome_witness :
  wf_board corner4 ∧ in_range corner4 2 1
  ∧ (is_safe corner4 2 1 = Some true →
       ∃ b', place_queen 2 1 corner4 = Some (true, b')
         ∧ getitem (board b') 2 1 = Some 1
         ∧ queens_left b' = queens_left corner4 - 1
         ∧ size b' = size corner4
         ∧ ∀ r' c', in_range corner4 r' c' → (r', c') ≠ (2, 1) →
             getitem (board b') r' c' = getitem (board corner4) r' c')
  ∧ (is_safe corner4 2 1 = Some false → place_queen 2 1 corner4 = Some (false, corner4)).
Proof.
  assert (in_range corner4 2 1) as Hin by (unfold in_range; simpl; lia).
  split; [wf_now|]. split; [exact Hin|].
  apply (place_queen_outcome corner4 2 1); [wf_now|exact Hin].
Defined.

(** C9. On every well-formed board the constructive [evaluate] returns 1000
    when [queens_left] is 0; -1000 when [queens_left] is positive and the
    board has no safe position; and otherwise ten times the number of queens
    placed (the size minus [queens_left], which is the number of occupied
    cells when the counter agrees with the grid) plus the number of safe
    positions.  The safe positions counted are those of the grid: the list
    [get_safe_positions] returns holds, once each, exactly the cells of the
    board that read 0 and that no queen of the board attacks. *)
Theorem evaluate_constructive (b : Board) :
  wf_board b →
  ∃ sp, BoardAB.get_safe_positions b = Some sp
    ∧ sp = safe_cells b
    ∧ NoDup sp
    ∧ (∀ r c, (r, c) ∈ sp
         ↔ in_range b r c ∧ getitem (board b) r c = Some 0
           ∧ ¬ ∃ r' c', queen_at b r' c' ∧ attacks r c r' c')
    ∧ BoardAB.evaluate b
      = Some (if queens_left b =? 0 then 1000
              else if (0 <? queens_left b) && (Z.of_nat (length sp) =? 0) then -1000
              else 10 * (size b - queens_left b) + Z.of_nat (length sp))
    ∧ (counter_ok b → size b - queens_left b = occupied_cells (board b)).
Proof.
  intros Hwf. exists (safe_cells b). split_and!.
  - by apply get_safe_positions_eq.
  - done.
  - apply sorted_NoDup, safe_cells_sorted.
  - intros r c. rewrite elem_of_safe_cells, free_and_safe_true. simpl.
    split.
    + intros (Hin & Hfree & Hs). split_and!; [done|done|].
      destruct (is_safe_spec b r c Hwf Hin) as (s & Hs' & Hiff).
      rewrite Hs in Hs'. injection Hs' as <-. intros Hatt.
      assert (true = false) as Habs by (apply Hiff; by right). done.
    + intros (Hin & Hfree & Hno). split_and!; [done|done|].
      destruct (is_safe_spec b r c Hwf Hin) as (s & Hs' & Hiff).
      rewrite Hs'. destruct s; [done|].
      destruct (proj1 Hiff eq_refl) as [Hocc|Hatt]; [|done].
      rewrite Hfree in Hocc. done.
  - by apply evaluate_AB_eq.
  - unfold counter_ok. lia.
Qed.

(** The 4 by 4 board with a queen on the corner: six safe positions, and
    the evaluation is 10 * 1 + 6. *)
Lemma evaluate_constructive_witness :
  wf_board corner4
  ∧ BoardAB.evaluate corner4 = Some 16
  ∧ ∃ sp, BoardAB.get_safe_positions corner4 = Some sp
    ∧ sp = safe_cells corner4
    ∧ NoDup sp
    ∧ (∀ r c, (r, c) ∈ sp
         ↔ in_range corner4 r c ∧ getitem (board corner4) r c = Some 0
           ∧ ¬ ∃ r' c', queen_at corner4 r' c' ∧ attacks r c r' c')
    ∧ BoardAB.evaluate corner4
      = Some (if queens_left corner4 =? 0 then 1000
              else if (0 <? queens_left corner4) && (Z.of_nat (length sp) =? 0)
                   then -1000
              else 10 * (size corner4 - queens_left corner4) + Z.of_nat (length sp))
    ∧ (counter_ok corner4
       → size corner4 - queens_left corner4 = occupied_cells (board corner4)).
Proof.
  split; [wf_now|]. split; [reflexivity|].
  apply (evaluate_constructive corner4). wf_now.
Defined.

(** C10. On every well-formed board, with arguments on the board, [is_safe]
    and [place_queen] return without an index error, and so do
    [get_safe_positions] and [evaluate]; every position returned by
    [get_safe_positions] lies on the board. *)
Theorem board_operations_in_bounds (b : Board) :
  wf_board b →
  (∀ row col, in_range b row col →
     is_Some (is_safe b row col) ∧ is_Some (place_queen row col b))
  ∧ (∃ sp, BoardAB.get_safe_positions b = Some sp
           ∧ ∀ p, p ∈ sp → in_range b p.1 p.2)
  ∧ is_Some (BoardAB.evaluate b).
Proof.
  intros Hwf. split_and!.
  - intros row col Hin. split; [by apply is_safe_total|].
    destruct (is_safe_total b row col Hwf Hin) as [[|] Hs];
      destruct (place_queen_spec b row col Hwf Hin) as [Hyes Hno].
    + destruct (Hyes Hs) as (g & _ & ->). eauto.
    + rewrite (Hno Hs). eauto.
  - exists (safe_cells b). split; [by apply get_safe_positions_eq|].
    intros p Hp. by apply elem_of_safe_cells in Hp as [? _].
  - by apply evaluate_AB_total.
Qed.

(** The operations on the 4 by 4 board with a queen on the corner. *)
Lemma board_operations_in_bounds_witness :
  wf_board corner4
  ∧ (∀ row col, in_range corner4 row col →
       is_Some (is_safe corner4 row col) ∧ is_Some (place_queen row col corner4))
  ∧ (∃ sp, BoardAB.get_safe_positions corner4 = Some sp
           ∧ ∀ p, p ∈ sp → in_range corner4 p.1 p.2)
  ∧ is_Some (BoardAB.evaluate corner4).
Proof. split; [wf_now|]. apply (board_operations_in_bounds corner4). wf_now. Defined.

(** * Further properties of the code *)

(** Legality of a board given by its grid: the shape and the cells by
    inspection, the queens through the conflict count, the counter by
    computation. *)
Ltac binary_now := unfold binary_grid; repeat first [by left | by right | constructor].

Ltac legal_grid_now :=
  split_and!;
  [wf_now | binary_now
  | apply evaluate_zero_peaceful; [wf_now | binary_now | reflexivity]].

Ltac legal_now := split; [legal_grid_now | reflexivity].

(** X1. A board fresh from the constructor or from [reset] has the size
    asked for, its counter at that size, is legal, and every one of its
    cells is safe: [get_safe_positions] returns all [n * n] cells, row by
    row. *)
Theorem fresh_board_all_safe (n : Z) (b : Board) :
  Board_init n = Some b
  ∨ (∃ b0 new_size, reset new_size b0 = Some b ∧ n = default (size b0) new_size) →
  size b = n ∧ queens_left b = n ∧ legal b
  ∧ BoardAB.get_safe_positions b = Some (range n ≫= λ i, pair i <$> range n)
  ∧ length (range n ≫= λ i, pair i <$> range n) = (Z.to_nat n * Z.to_nat n)%nat.
Proof.
  intros H. assert (Board_init n = Some b) as Hi.
  { destruct H as [H|(b0 & ns & H & ->)]; [done|].
    unfold reset in H. unfold Board_init. by destruct ns. }
  pose proof (Board_init_legal n b Hi) as Hl.
  unfold Board_init in Hi. destruct (n <? 0); [done|]. injection Hi as <-.
  simpl. split_and!; [done|done|done| |].
  - destruct Hl as [(Hwf & _) _]. rewrite get_safe_positions_eq by done.
    f_equal. apply (no_queen_all_safe _ Hwf). intros i j v. apply np_zeros_getitem.
  - unfold range. by rewrite length_all_cells, length_seqZ.
Qed.

(** The fresh 4 by 4 board: 16 safe cells. *)
Lemma fresh_board_all_safe_witness :
  Board_init 4 = Some fresh4
  ∧ size fresh4 = 4 ∧ queens_left fresh4 = 4 ∧ legal fresh4
  ∧ BoardAB.get_safe_positions fresh4 = Some (range 4 ≫= λ i, pair i <$> range 4)
  ∧ length (range 4 ≫= λ i, pair i <$> range 4) = (Z.to_nat 4 * Z.to_nat 4)%nat.
Proof.
  split; [reflexivity|]. apply (fresh_board_all_safe 4 fresh4). left. reflexivity.
Defined.

(** X2. [place_queen] on a cell of a legal board leaves a legal board: the
    grid is square, its cells are 0 or 1, no two queens attack each other,
    and the counter agrees with the grid. *)
Theorem place_queen_keeps_legal (b : Board) (row col : Z) (ok : bool) (b' : Board) :
  legal b → in_range b row col →
  place_queen row col b = Some (ok, b') → legal b'.
Proof. apply place_queen_legal. Qed.

(** A second queen on [(2, 1)] of the 4 by 4 board with a queen on the corner. *)
Lemma place_queen_keeps_legal_witness :
  legal corner4 ∧ in_range corner4 2 1
  ∧ place_queen 2 1 corner4
    = Some (true, {| size := 4;
                     board := [[1; 0; 0; 0]; [0; 0; 0; 0]; [0; 1; 0; 0]; [0; 0; 0; 0]];
                     queens_left := 2 |})
  ∧ legal {| size := 4;
             board := [[1; 0; 0; 0]; [0; 0; 0; 0]; [0; 1; 0; 0]; [0; 0; 0; 0]];
             queens_left := 2 |}.
Proof.
  assert (legal corner4) as Hl by legal_now.
  assert (in_range corner4 2 1) as Hin by (unfold in_range; simpl; lia).
  split; [exact Hl|]. split; [exact Hin|]. split; [reflexivity|].
  apply (place_queen_keeps_legal corner4 2 1 true _ Hl Hin). reflexivity.
Defined.

(** X3. On a legal board the counter stays between 0 and the size, and the
    game is over ([queens_left == 0]) exactly when every row holds a
    queen. *)
Theorem legal_counter_and_game_over (b : Board) :
  legal b →
  0 <= queens_left b <= size b
  ∧ (BoardAB.is_game_over b = true ↔ ∀ r, 0 <= r < size b → ∃ c, queen_at b r c).
Proof.
  intros Hl. split; [|by apply game_over_rows].
  destruct Hl as [Hlg Hc]. pose proof (occupied_le_size b Hlg).
  unfold counter_ok in Hc. lia.
Qed.

Lemma legal_counter_and_game_over_witness :
  legal corner4
  ∧ 0 <= queens_left corner4 <= size corner4
  ∧ (BoardAB.is_game_over corner4 = true
     ↔ ∀ r, 0 <= r < size corner4 → ∃ c, queen_at corner4 r c).
Proof.
  assert (legal corner4) as Hl by legal_now.
  split; [exact Hl|]. exact (legal_counter_and_game_over corner4 Hl).
Defined.

(** X4. With a row or a column outside [-n, n), where numpy's wrap-around
    ends, [is_safe] raises, and so does [place_queen], before it writes
    anything. *)
Theorem out_of_range_index_raises (b : Board) (row col : Z) :
  wf_board b →
  (row < - size b ∨ size b <= row) ∨ (col < - size b ∨ size b <= col) →
  is_safe b row col = None ∧ place_queen row col b = None.
Proof. apply out_of_range_raises. Qed.

Lemma out_of_range_index_raises_witness :
  wf_board corner4
  ∧ ((4 < - size corner4 ∨ size corner4 <= 4) ∨ (0 < - size corner4 ∨ size corner4 <= 0))
  ∧ is_safe corner4 4 0 = None ∧ place_queen 4 0 corner4 = None.
Proof.
  assert (wf_board corner4) as Hwf by wf_now.
  assert ((4 < - size corner4 ∨ size corner4 <= 4)
          ∨ (0 < - size corner4 ∨ size corner4 <= 0)) as Hout
    by (left; right; simpl; lia).
  split; [exact Hwf|]. split; [exact Hout|].
  exact (out_of_range_index_raises corner4 4 0 Hwf Hout).
Defined.

(** X5. After [place_queen] has put a queen on a cell, a further
    [place_queen] on that cell or on any cell of the board in its row, its
    column or on one of its diagonals returns false and changes nothing. *)
Theorem attacked_cells_are_refused (b : Board) (row col : Z) (b' : Board) (i j : Z) :
  wf_board b → in_range b row col →
  place_queen row col b = Some (true, b') →
  in_range b i j → attacks i j row col →
  place_queen i j b' = Some (false, b').
Proof. apply attacked_cells_refused. Qed.

Lemma attacked_cells_are_refused_witness :
  wf_board fresh4 ∧ in_range fresh4 0 0
  ∧ place_queen 0 0 fresh4 = Some (true, corner4)
  ∧ in_range fresh4 3 3 ∧ attacks 3 3 0 0
  ∧ place_queen 3 3 corner4 = Some (false, corner4).
Proof.
  assert (wf_board fresh4) as Hwf by wf_now.
  assert (in_range fresh4 0 0) as H0 by (unfold in_range; simpl; lia).
  assert (in_range fresh4 3 3) as H3 by (unfold in_range; simpl; lia).
  assert (attacks 3 3 0 0) as Ha by (unfold attacks; lia).
  split_and!; [exact Hwf|exact H0|reflexivity|exact H3|exact Ha|].
  exact (attacked_cells_are_refused fresh4 0 0 corner4 3 3 Hwf H0 eq_refl H3 Ha).
Defined.

(** X6. A successful [place_queen] on a legal board shrinks the safe
    positions: every position safe afterwards was safe before, the cell
    just taken and the cells it attacks are gone, and the list is strictly
    shorter. *)
Theorem placement_shrinks_safe_positions
    (b : Board) (row col : Z) (b' : Board) (sp sp' : list (Z * Z)) :
  legal b → in_range b row col →
  place_queen row col b = Some (true, b') →
  BoardAB.get_safe_positions b = Some sp →
  BoardAB.get_safe_positions b' = Some sp' →
  (∀ p, p ∈ sp' → p ∈ sp ∧ p ≠ (row, col) ∧ ¬ attacks p.1 p.2 row col)
  ∧ (length sp' < length sp)%nat.
Proof.
  intros Hl Hin Hp Hsp Hsp'. pose proof Hl as [Hlg _]. pose proof Hlg as (Hwf & _).
  pose proof (place_queen_legal b row col true b' Hl Hin Hp) as [(Hwf' & _) _].
  rewrite get_safe_positions_eq in Hsp, Hsp' by done.
  injection Hsp as <-. injection Hsp' as <-.
  destruct (is_safe_total b row col Hwf Hin) as [[|] Hs];
    destruct (place_queen_spec b row col Hwf Hin) as [Hyes Hno].
  2:{ rewrite (Hno Hs) in Hp. done. }
  destruct (Hyes Hs) as (g & Hg & Hp'). rewrite Hp' in Hp. injection Hp as <-.
  by apply (safe_cells_shrink b _ row col).
Qed.

Lemma placement_shrinks_safe_positions_witness :
  legal fresh4 ∧ in_range fresh4 0 0
  ∧ place_queen 0 0 fresh4 = Some (true, corner4)
  ∧ BoardAB.get_safe_positions corner4
    = Some [(1, 2); (1, 3); (2, 1); (2, 3); (3, 1); (3, 2)]
  ∧ (length [(1, 2); (1, 3); (2, 1); (2, 3); (3, 1); (3, 2)]
     < length (range 4 ≫= λ i, pair i <$> range 4))%nat.
Proof.
  assert (legal fresh4) as Hl by legal_now.
  assert (in_range fresh4 0 0) as H0 by (unfold in_range; simpl; lia).
  split_and!; [exact Hl|exact H0|reflexivity|reflexivity|].
  exact (proj2 (placement_shrinks_safe_positions fresh4 0 0 corner4 _ _ Hl H0
                  eq_refl eq_refl eq_refl)).
Defined.

(** X7. On a square grid of zeros and ones the conflict-counting [evaluate]
    of [minimax/board.py] is never negative, and it is 0 exactly when no
    two queens share a row, a column or a diagonal. *)
Theorem conflict_heuristic_zero_iff_peaceful (b : Board) :
  wf_board b → binary_grid (board b) →
  0 <= BoardMM.evaluate b ∧ (BoardMM.evaluate b = 0 ↔ peaceful b).
Proof.
  intros Hwf Hbin. split.
  - rewrite evaluate_MM_unfold.
    pose proof (count_gt1_nonneg (BoardMM.row_sums (board b))).
    pose proof (count_gt1_nonneg (BoardMM.col_sums (board b))).
    match goal with |- 0 <= _ + BoardMM.count_gt1 ?l =>
      pose proof (count_gt1_nonneg l) end.
    lia.
  - split; [by apply evaluate_zero_peaceful|by apply peaceful_evaluate_zero].
Qed.

(** Two queens on the main diagonal of the 4 by 4 board: one conflict. *)
Lemma conflict_heuristic_zero_iff_peaceful_witness :
  let b := {| size := 4;
              board := [[1; 0; 0; 0]; [0; 0; 0; 0]; [0; 0; 0; 0]; [0; 0; 0; 1]];
              queens_left := 2 |} in
  wf_board b ∧ binary_grid (board b)
  ∧ BoardMM.evaluate b = 1
  ∧ 0 <= BoardMM.evaluate b ∧ (BoardMM.evaluate b = 0 ↔ peaceful b).
Proof.
  intros b. assert (wf_board b) as Hwf by wf_now.
  assert (binary_grid (board b)) as Hbin by binary_now.
  split_and!; [exact Hwf|exact Hbin|reflexivity|..];
    apply (conflict_heuristic_zero_iff_peaceful b Hwf Hbin).
Defined.

(** X8. When the cells are 0 or 1 and the counter agrees with the grid, the
    two tests for the end of the game, [queens_left == 0] of
    [alphabeta/board.py] and [np.sum(board) == size] of [minimax/board.py],
    give the same answer. *)
Theorem game_over_tests_coincide (b : Board) :
  binary_grid (board b) → counter_ok b →
  BoardAB.is_game_over b = BoardMM.is_game_over b.
Proof. apply game_over_tests_agree. Qed.

Lemma game_over_tests_coincide_witness :
  binary_grid (board corner4) ∧ counter_ok corner4
  ∧ BoardAB.is_game_over corner4 = BoardMM.is_game_over corner4.
Proof.
  assert (binary_grid (board corner4)) as Hbin by binary_now.
  assert (counter_ok corner4) as Hc by reflexivity.
  split_and!; [exact Hbin|exact Hc|exact (game_over_tests_coincide corner4 Hbin Hc)].
Defined.

(** X9. With the conflict-counting heuristic of [minimax/board.py], the
    search of [minimax/minimax.py] on a legal grid returns one of three
    scores only, minus infinity, 0 or plus infinity, at every depth and for
    either player: the moves it tries are safe, so the heuristic is 0 on
    every board it evaluates. *)
Theorem minimax_conflict_scores (d : nat) (m : bool) (b : Board) :
  legal_grid b →
  ∃ v, MinimaxAI.minimax BoardMM.evaluate d m b = Some (v, b)
       ∧ (v = NegInf ∨ v = Fin 0 ∨ v = PosInf).
Proof.
  intros Hlg. pose proof (minimax_conflict_trivial d m b Hlg) as Ht.
  destruct (minimax_frame BoardMM.evaluate d m b (proj1 Hlg)) as [v Hv].
  exists v. split; [done|]. unfold mm_value in Ht. by rewrite Hv in Ht.
Qed.

Lemma minimax_conflict_scores_witness :
  legal_grid corner4
  ∧ MinimaxAI.minimax BoardMM.evaluate 3 true corner4 = Some (NegInf, corner4)
  ∧ ∃ v, MinimaxAI.minimax BoardMM.evaluate 3 true corner4 = Some (v, corner4)
         ∧ (v = NegInf ∨ v = Fin 0 ∨ v = PosInf).
Proof.
  assert (legal_grid corner4) as Hlg by legal_grid_now.
  split_and!; [exact Hlg|reflexivity|].
  exact (minimax_conflict_scores 3 true corner4 Hlg).
Defined.

(** X10. [get_best_move] of [minimax/minimax.py], for any heuristic, on a
    square board: it returns with the board as it was; it returns None
    exactly when every valid move scores minus infinity (so in particular
    when there is none); and a move it returns is a valid move whose score
    is not minus infinity, is not exceeded by the score of any valid move,
    and is strictly above the score of every valid move that comes earlier
    in row-major order. *)
Theorem minimax_best_move_first_maximal (evaluate : Board → Z) (b : Board) :
  wf_board b →
  ∃ moves mv,
    MinimaxAI.valid_moves b = Some moves
    ∧ MinimaxAI.get_best_move evaluate b = Some (mv, b)
    ∧ (mv = None ↔ ∀ p, p ∈ moves → mm_move_score evaluate b p = Some NegInf)
    ∧ (∀ q, mv = Some q →
         q ∈ moves
         ∧ ∃ s, mm_move_score evaluate b q = Some s ∧ s ≠ NegInf
             ∧ ∀ p, p ∈ moves →
                 ∃ s', mm_move_score evaluate b p = Some s'
                       ∧ score_lt s s' = false
                       ∧ (row_major_lt p q → score_lt s' s = true)).
Proof.
  intros Hwf. destruct (get_best_move_MM_spec evaluate b Hwf) as (mv & H).
  exists (safe_cells b), mv. split; [by apply valid_moves_eq|exact H].
Qed.

(** The fresh 4 by 4 board: the corner comes first and scores plus infinity. *)
Lemma minimax_best_move_first_maximal_witness :
  wf_board fresh4
  ∧ MinimaxAI.get_best_move BoardMM.evaluate fresh4 = Some (Some (0, 0), fresh4)
  ∧ ∃ moves mv,
      MinimaxAI.valid_moves fresh4 = Some moves
      ∧ MinimaxAI.get_best_move BoardMM.evaluate fresh4 = Some (mv, fresh4)
      ∧ (mv = None
         ↔ ∀ p, p ∈ moves → mm_move_score BoardMM.evaluate fresh4 p = Some NegInf)
      ∧ (∀ q, mv = Some q →
           q ∈ moves
           ∧ ∃ s, mm_move_score BoardMM.evaluate fresh4 q = Some s ∧ s ≠ NegInf
               ∧ ∀ p, p ∈ moves →
                   ∃ s', mm_move_score BoardMM.evaluate fresh4 p = Some s'
                         ∧ score_lt s s' = false
                         ∧ (row_major_lt p q → score_lt s' s = true)).
Proof.
  assert (wf_board fresh4) as Hwf by wf_now.
  split_and!; [exact Hwf|vm_compute; reflexivity|].
  exact (minimax_best_move_first_maximal BoardMM.evaluate fresh4 Hwf).
Defined.

(** X11. The two minimax engines choose the same move: on a square board
    [get_best_move] of [nqueens/minimax.py], whose search prunes, returns
    what [get_best_move] of [minimax/minimax.py] returns, for any
    heuristic. *)
Theorem minimax_engines_choose_same_move (evaluate : Board → Z) (b : Board) :
  wf_board b →
  NQueensAI.get_best_move evaluate b = MinimaxAI.get_best_move evaluate b.
Proof. apply get_best_move_NQ_MM. Qed.

Lemma minimax_engines_choose_same_move_witness :
  wf_board fresh4
  ∧ NQueensAI.get_best_move BoardMM.evaluate fresh4
    = MinimaxAI.get_best_move BoardMM.evaluate fresh4.
Proof.
  assert (wf_board fresh4) as Hwf by wf_now.
  split; [exact Hwf|].
  exact (minimax_engines_choose_same_move BoardMM.evaluate fresh4 Hwf).
Defined.

(** X12. [get_best_move] of [alphabeta/alphabeta.py] on a legal board, at
    any depth: it returns with the board as it was; it returns None exactly
    when [get_safe_positions] is empty; and a move it returns is accepted
    by [place_queen], which then leaves a legal board with one queen less
    to place. *)
Theorem alpha_beta_best_move_is_playable (d : nat) (b : Board) :
  legal b →
  ∃ mv, AlphaBetaAI.get_best_move d b = Some (mv, b)
    ∧ (mv = None ↔ BoardAB.get_safe_positions b = Some [])
    ∧ (∀ q, mv = Some q →
         ∃ b', place_queen q.1 q.2 b = Some (true, b')
               ∧ legal b' ∧ queens_left b' = queens_left b - 1).
Proof.
  intros Hl. pose proof Hl as [(Hwf & _) _].
  destruct (get_best_move_AB_spec d b Hwf) as [Hnil Hcons].
  rewrite get_safe_positions_eq by done.
  destruct (decide (safe_cells b = [])) as [He|Hne].
  - exists None. split_and!; [by apply Hnil| |done]. by rewrite He.
  - destruct (Hcons Hne) as (q & z & Hq & Hin & _). exists (Some q).
    split_and!; [done| |].
    + split; [done|]. intros [= He]. done.
    + intros q' [= <-].
      apply elem_of_safe_cells in Hin as [Hin [_ Hs]%free_and_safe_true].
      destruct (place_queen_spec b q.1 q.2 Hwf Hin) as [Hyes _].
      destruct (Hyes Hs) as (g & Hg & Hp). eexists. split; [exact Hp|].
      split; [by eapply (place_queen_legal b q.1 q.2 true)|done].
Qed.

Lemma alpha_beta_best_move_is_playable_witness :
  legal corner4
  ∧ AlphaBetaAI.get_best_move 2 corner4 = Some (Some (1, 2), corner4)
  ∧ ∃ mv, AlphaBetaAI.get_best_move 2 corner4 = Some (mv, corner4)
      ∧ (mv = None ↔ BoardAB.get_safe_positions corner4 = Some [])
      ∧ (∀ q, mv = Some q →
           ∃ b', place_queen q.1 q.2 corner4 = Some (true, b')
                 ∧ legal b' ∧ queens_left b' = queens_left corner4 - 1).
Proof.
  assert (legal corner4) as Hl by legal_now.
  split_and!; [exact Hl|vm_compute; reflexivity|].
  exact (alpha_beta_best_move_is_playable 2 corner4 Hl).
Defined.

(** X13. The cuts of [alpha_beta_search] are sound.  On a square board and
    with a window [alpha < beta], the search returns with the board as it
    was, and its result stands to the result [v] of the same search with
    the full window as follows: if the result is strictly inside the window
    it is [v]; if it is at or below [alpha], so is [v]; if it is at or
    above [beta], so is [v]. *)
Theorem alpha_beta_window_sound (d : nat) (alpha beta : score) (m : bool) (b : Board) :
  wf_board b → score_lt alpha beta = true →
  ∃ r v,
    AlphaBetaAI.alpha_beta_search d alpha beta m b = Some (r, b)
    ∧ AlphaBetaAI.alpha_beta_search d NegInf PosInf m b = Some (v, b)
    ∧ (score_lt alpha r = true → score_lt r beta = true → r = v)
    ∧ (score_lt alpha r = false → score_lt alpha v = false)
    ∧ (score_lt r beta = false → score_lt v beta = false).
Proof.
  intros Hwf Hab.
  destruct (ab_sound d alpha beta m b Hwf) as (r & Hr & Hw).
  destruct (ab_sound d NegInf PosInf m b Hwf) as (v & Hv & Hfull).
  exists r, v. split_and!; [done|done|..].
  all: pose proof (window_ok_full _ _ (Hfull eq_refl)) as Hval;
       rewrite <- Hval; destruct (Hw Hab) as (Hlo & Hhi & Hin).
  - intros H1 H2. symmetry. by apply Hin.
  - done.
  - done.
Qed.

(** The corner board searched with the window (0, 1): the result -1000
    lies below the window, and so does the value. *)
Lemma alpha_beta_window_sound_witness :
  wf_board corner4 ∧ score_lt (Fin 0) (Fin 1) = true
  ∧ ∃ r v,
      AlphaBetaAI.alpha_beta_search 2 (Fin 0) (Fin 1) true corner4 = Some (r, corner4)
      ∧ AlphaBetaAI.alpha_beta_search 2 NegInf PosInf true corner4 = Some (v, corner4)
      ∧ (score_lt (Fin 0) r = true → score_lt r (Fin 1) = true → r = v)
      ∧ (score_lt (Fin 0) r = false → score_lt (Fin 0) v = false)
      ∧ (score_lt r (Fin 1) = false → score_lt v (Fin 1) = false).
Proof.
  assert (wf_board corner4) as Hwf by wf_now.
  split_and!; [exact Hwf|reflexivity|].
  exact (alpha_beta_window_sound 2 (Fin 0) (Fin 1) true corner4 Hwf eq_refl).
Defined.

(** X14. With the full window, [alpha_beta_search] computes the value of
    exhaustive minimax over the safe positions, with the terminal rules of
    the engine (depth 0, game over, no safe position: the evaluation of the
    board): no cut changes the value at the root. *)
Theorem alpha_beta_full_window_exhaustive (d : nat) (m : bool) (b : Board) :
  wf_board b →
  AlphaBetaAI.alpha_beta_search d NegInf PosInf m b = Some (ab_value d m b, b).
Proof.
  intros Hwf. destruct (ab_sound d NegInf PosInf m b Hwf) as (v & Hv & Hfull).
  by rewrite (window_ok_full _ _ (Hfull eq_refl)).
Qed.

Lemma alpha_beta_full_window_exhaustive_witness :
  wf_board corner4
  ∧ AlphaBetaAI.alpha_beta_search 3 NegInf PosInf true corner4
    = Some (ab_value 3 true corner4, corner4).
Proof.
  assert (wf_board corner4) as Hwf by wf_now.
  split; [exact Hwf|].
  exact (alpha_beta_full_window_exhaustive 3 true corner4 Hwf).
Defined.

(** X15. The cuts of the search of [nqueens/minimax.py] are sound for every
    window, not only the full one.  On a square board and with
    [alpha < beta], its result stands to the result [v] of the unpruned
    search of [minimax/minimax.py] as follows: strictly inside the window
    it is [v]; at or below [alpha], so is [v]; at or above [beta], so is
    [v]. *)
Theorem pruned_minimax_window_sound
    (evaluate : Board → Z) (d : nat) (alpha beta : score) (m : bool) (b : Board) :
  wf_board b → score_lt alpha beta = true →
  ∃ r v,
    NQueensAI.minimax evaluate d alpha beta m b = Some (r, b)
    ∧ MinimaxAI.minimax evaluate d m b = Some (v, b)
    ∧ (score_lt alpha r = true → score_lt r beta = true → r = v)
    ∧ (score_lt alpha r = false → score_lt alpha v = false)
    ∧ (score_lt r beta = false → score_lt v beta = false).
Proof.
  intros Hwf Hab.
  destruct (nq_sound evaluate d alpha beta m b Hwf) as (r & Hr & Hw).
  destruct (minimax_frame evaluate d m b Hwf) as [v Hv].
  exists r, v. split_and!; [done|done|..].
  all: destruct (Hw Hab) as (Hlo & Hhi & Hin); unfold mm_value in *;
       rewrite Hv in *; simpl in *.
  - intros H1 H2. symmetry. by apply Hin.
  - done.
  - done.
Qed.

Lemma pruned_minimax_window_sound_witness :
  wf_board fresh4 ∧ score_lt (Fin 0) (Fin 1) = true
  ∧ ∃ r v,
      NQueensAI.minimax BoardMM.evaluate 2 (Fin 0) (Fin 1) true fresh4 = Some (r, fresh4)
      ∧ MinimaxAI.minimax BoardMM.evaluate 2 true fresh4 = Some (v, fresh4)
      ∧ (score_lt (Fin 0) r = true → score_lt r (Fin 1) = true → r = v)
      ∧ (score_lt (Fin 0) r = false → score_lt (Fin 0) v = false)
      ∧ (score_lt r (Fin 1) = false → score_lt v (Fin 1) = false).
Proof.
  assert (wf_board fresh4) as Hwf by wf_now.
  split_and!; [exact Hwf|reflexivity|].
  exact (pruned_minimax_window_sound BoardMM.evaluate 2 (Fin 0) (Fin 1) true fresh4
           Hwf eq_refl).
Defined.

(** X18. [alpha_beta_search] never returns one of its infinite sentinels:
    on a square board, for every depth, player and window, proper or not,
    its result is an integer, an evaluation of some board. *)
Theorem alpha_beta_score_is_finite (d : nat) (alpha beta : score) (m : bool) (b : Board) :
  wf_board b →
  ∃ z, AlphaBetaAI.alpha_beta_search d alpha beta m b = Some (Fin z, b).
Proof. apply alpha_beta_search_frame. Qed.

(** The dead end on the 2 by 2 board, searched with an empty window. *)
Lemma alpha_beta_score_is_finite_witness :
  wf_board corner2
  ∧ AlphaBetaAI.alpha_beta_search 3 PosInf NegInf true corner2
    = Some (Fin (-1000), corner2)
  ∧ ∃ z, AlphaBetaAI.alpha_beta_search 3 PosInf NegInf true corner2
         = Some (Fin z, corner2).
Proof.
  assert (wf_board corner2) as Hwf by wf_now.
  split_and!; [exact Hwf|vm_compute; reflexivity|].
  exact (alpha_beta_score_is_finite 3 PosInf NegInf true corner2 Hwf).
Defined.
